(** * RaTS: deferred events and unit movement

    A shallow embedding of [utils/scheduling.py] (ScheduledEvent,
    EventsScheduler, EventsCreator) and of the path-following part of
    [units/units.py] (class Unit), with the properties of the design
    document stated over it.

    Conventions of the embedding.
    - Python objects that are mutated and shared (ScheduledEvent, Unit) live
      in a store indexed by an identifier; lists hold identifiers, so that
      [list.index] and [list.remove] compare by identity, as they do for
      classes that define no [__eq__].
    - Time stamps ([time.time()], delays) are Python floats; they are
      modelled as exact integers of one fixed clock unit, so rounding is not
      part of the model.  The clock itself is an oracle: the n-th call of
      [time.time()] returns [clock n].
      Sums and differences of time stamps are stated in the order in which
      the code computes them.
    - Exceptions are explicit: a computation returns [Ok], or [Raise] with
      the state reached when the exception was raised.
    - [eval], the map, the pathfinder and the float geometry helpers are
      taken as they are given: [eval] and the helpers as functions, an
      angle being the exact rational its float stands for. *)

From Stdlib Require Import String ZArith List Lia Bool Arith.
From Stdlib Require QArith.
Import ListNotations.


(** ** Python-flavoured computations: state, exceptions, lists *)

Module Py.

Inductive exn : Type :=
| ValueError | IndexError | NameError | AttributeError | SyntaxError.

Definition exn_eqb (a b : exn) : bool :=
  match a, b with
  | ValueError, ValueError | IndexError, IndexError
  | NameError, NameError | AttributeError, AttributeError
  | SyntaxError, SyntaxError => true
  | _, _ => false
  end.

Inductive result (St A : Type) : Type :=
| Ok (a : A) (s : St)
| Raise (e : exn) (s : St)
| OutOfFuel.

Arguments Ok {St A} a s.
Arguments Raise {St A} e s.
Arguments OutOfFuel {St A}.

Definition M (St A : Type) : Type := St -> result St A.

Definition ret {St A} (a : A) : M St A := fun s => Ok a s.

Definition bind {St A B} (m : M St A) (k : A -> M St B) : M St B :=
  fun s =>
    match m s with
    | Ok a s' => k a s'
    | Raise e s' => Raise e s'
    | OutOfFuel => OutOfFuel
    end.

Definition raise {St A} (e : exn) : M St A := fun s => Raise e s.

Definition gets {St A} (f : St -> A) : M St A := fun s => Ok (f s) s.

Definition modify {St} (f : St -> St) : M St unit := fun s => Ok tt (f s).

(** [try: m  except e: h] *)
Definition try_except {St A} (m : M St A) (e : exn) (h : M St A) : M St A :=
  fun s =>
    match m s with
    | Raise e' s' => if exn_eqb e e' then h s' else Raise e' s'
    | r => r
    end.

Definition of_option {St A} (e : exn) (o : option A) : M St A :=
  match o with
  | Some a => ret a
  | None => raise e
  end.

(** A value, or the exception raised instead of it. *)
Definition of_sum {St A} (v : exn + A) : M St A :=
  match v with
  | inr a => ret a
  | inl e => raise e
  end.

(** [l.index(x)]: position of the first occurrence; [None] stands for
    ValueError. *)
Fixpoint list_index (x : nat) (l : list nat) : option nat :=
  match l with
  | [] => None
  | y :: l' =>
      if Nat.eqb x y then Some 0%nat
      else match list_index x l' with
           | Some i => Some (S i)
           | None => None
           end
  end.

(** [l.pop(i)] for [0 <= i]: the list without its i-th element; [None]
    stands for IndexError. *)
Fixpoint list_pop {A} (i : nat) (l : list A) {struct l} : option (list A) :=
  match l, i with
  | [], _ => None
  | _ :: l', O => Some l'
  | y :: l', S i' =>
      match list_pop i' l' with
      | Some r => Some (y :: r)
      | None => None
      end
  end.

(** [l.remove(x)]: drops the first occurrence; [None] stands for
    ValueError. *)
Definition list_remove (x : nat) (l : list nat) : option (list nat) :=
  match list_index x l with
  | Some i => list_pop i l
  | None => None
  end.

(** [l[-1]] *)
Definition list_last {A} (l : list A) : option A :=
  match rev l with
  | [] => None
  | x :: _ => Some x
  end.

End Py.

Declare Scope py_scope.
Delimit Scope py_scope with py.
Notation "x <- m ;; k" := (Py.bind m (fun x => k))
  (at level 61, m at next level, right associativity) : py_scope.
Notation "m ;; k" := (Py.bind m (fun _ => k))
  (at level 61, right associativity) : py_scope.

(** ** utils/scheduling.py *)

Module Scheduling.
Import Py.
Local Open Scope Z_scope.
Local Open Scope py_scope.

(** Identity of a ScheduledEvent object, and of an object that inherits from
    EventsCreator. *)
Abbreviation EventId := nat (only parsing).
Abbreviation CreatorId := nat (only parsing).

(** [repeat] is an int, or [math.inf] for an event scheduled for ever. *)
Inductive Repeat : Type :=
| Inf
| Fin (n : Z).

(** The scheduled callable: its [__name__], and the object it is bound to
    ([__self__]) when it is a bound method. *)
Record Callable : Type := mkCallable {
  fn_name : string;
  fn_self : option CreatorId
}.

Record ScheduledEvent : Type := mkEvent {
  creator : CreatorId;
  delay : Z;
  function : Callable;
  args : list Z;
  kwargs : list (string * Z);
  repeat : Repeat;
  delay_left : option Z
}.

(** [ScheduledEvent.__init__] *)
Definition ScheduledEvent_init (creator : CreatorId) (delay : Z)
    (function : Callable) (args : option (list Z))
    (kwargs : option (list (string * Z))) (repeat : Repeat)
    (delay_left : option Z) : ScheduledEvent :=
  {| creator := creator;
     delay := delay;
     function := function;
     args := match args with Some a => a | None => [] end;
     kwargs := match kwargs with Some k => k | None => [] end;
     repeat := match repeat with
               | Fin n => if n =? -1 then Inf else Fin n
               | Inf => Inf
               end;
     delay_left := delay_left |}.

(** [EventsScheduler]: two parallel lists. *)
Record EventsScheduler : Type := mkScheduler {
  update_rate : Z;
  scheduled_events : list EventId;
  execution_times : list Z
}.

(** The part of the program state the module reads and writes. [instance]
    is [EventsScheduler.instance]; [owned c] is the [scheduled_events] list
    of the EventsCreator [c]; [executed] records, in order, the events whose
    [execute] was called. *)
Record World : Type := mkWorld {
  clock : nat -> Z;
  clock_reads : nat;
  heap : EventId -> ScheduledEvent;
  next_id : EventId;
  instance : EventsScheduler;
  owned : CreatorId -> list EventId;
  executed : list EventId
}.

Definition set_instance (f : EventsScheduler -> EventsScheduler) (w : World)
  : World :=
  {| clock := clock w; clock_reads := clock_reads w; heap := heap w;
     next_id := next_id w; instance := f (instance w); owned := owned w;
     executed := executed w |}.

Definition set_events (f : list EventId -> list EventId) : World -> World :=
  set_instance (fun sch =>
    {| update_rate := update_rate sch;
       scheduled_events := f (scheduled_events sch);
       execution_times := execution_times sch |}).

Definition set_times (f : list Z -> list Z) : World -> World :=
  set_instance (fun sch =>
    {| update_rate := update_rate sch;
       scheduled_events := scheduled_events sch;
       execution_times := f (execution_times sch) |}).

Definition set_heap (id : EventId) (e : ScheduledEvent) (w : World) : World :=
  {| clock := clock w; clock_reads := clock_reads w;
     heap := fun k => if Nat.eqb k id then e else heap w k;
     next_id := next_id w; instance := instance w; owned := owned w;
     executed := executed w |}.

Definition set_owned (c : CreatorId) (f : list EventId -> list EventId)
    (w : World) : World :=
  {| clock := clock w; clock_reads := clock_reads w; heap := heap w;
     next_id := next_id w; instance := instance w;
     owned := fun k => if Nat.eqb k c then f (owned w k) else owned w k;
     executed := executed w |}.

Definition events (w : World) : list EventId := scheduled_events (instance w).
Definition times (w : World) : list Z := execution_times (instance w).

(** [time.time()] *)
Definition get_time : M World Z :=
  fun w =>
    Ok (clock w (clock_reads w))
       {| clock := clock w; clock_reads := S (clock_reads w); heap := heap w;
          next_id := next_id w; instance := instance w; owned := owned w;
          executed := executed w |}.

(** [x or y] on an optional float: [None] and [0.0] are falsy. *)
Definition py_or (x : option Z) (y : Z) : Z :=
  match x with
  | Some d => if d =? 0 then y else d
  | None => y
  end.

(** Truth value of [event.repeat]. *)
Definition truthy (r : Repeat) : bool :=
  match r with
  | Inf => true
  | Fin n => negb (n =? 0)
  end.

(** [event.repeat -= 1] ([inf - 1 == inf]). *)
Definition decrement (r : Repeat) : Repeat :=
  match r with
  | Inf => Inf
  | Fin n => Fin (n - 1)
  end.

(** [ScheduledEvent.execute]: the callable runs inside try/except Exception,
    so [execute] always returns; what the callable does is outside this
    module, and the call is recorded in [executed]. *)
Definition execute (event : EventId) : M World unit :=
  fun w =>
    Ok tt {| clock := clock w; clock_reads := clock_reads w; heap := heap w;
             next_id := next_id w; instance := instance w; owned := owned w;
             executed := executed w ++ [event] |}.

(** [EventsScheduler.schedule] *)
Definition schedule (event : EventId) : M World unit :=
  modify (set_events (fun l => l ++ [event])) ;;
  e <- gets (fun w => heap w event) ;;
  let delay := py_or (delay_left e) (delay e) in
  now <- get_time ;;
  modify (set_times (fun l => l ++ [now + delay])).

(** [EventsScheduler.unschedule] *)
Definition unschedule (event : EventId) : M World unit :=
  try_except
    (l <- gets events ;;
     index <- of_option ValueError (list_index event l) ;;
     l' <- of_option IndexError (list_pop index l) ;;
     modify (set_events (fun _ => l')) ;;
     t <- gets times ;;
     t' <- of_option IndexError (list_pop index t) ;;
     modify (set_times (fun _ => t')))
    ValueError
    (ret tt).

(** Body of the [for] loop of [update] for the element [event] found at
    position [i]. *)
Definition update_body (time : Z) (i : nat) (event : EventId) : M World unit :=
  t <- gets times ;;
  due <- of_option IndexError (nth_error t i) ;;
  if time >=? due then
    execute event ;;
    unschedule event ;;
    e <- gets (fun w => heap w event) ;;
    if truthy (repeat e) then
      modify (set_heap event
                {| creator := creator e; delay := delay e;
                   function := function e; args := args e;
                   kwargs := kwargs e; repeat := decrement (repeat e);
                   delay_left := delay_left e |}) ;;
      schedule event
    else ret tt
  else ret tt.

(** [for i, event in enumerate(self.scheduled_events)]: the list iterator
    keeps a position into the list object itself, which the body mutates.
    Each round reads the element at the current position of the list as it
    is then, and stops as soon as the position is past the end. *)
Fixpoint update_loop (fuel : nat) (time : Z) (i : nat) : M World unit :=
  fun w =>
    match nth_error (events w) i with
    | None => Ok tt w
    | Some event =>
        match fuel with
        | O => OutOfFuel
        | S fuel' =>
            (update_body time i event ;; update_loop fuel' time (S i)) w
        end
    end.

(** [EventsScheduler.update]. The list never grows over a round (an event
    is appended only after it was removed), so its initial length bounds the
    number of rounds. *)
Definition update : M World unit :=
  time <- get_time ;;
  n <- gets (fun w => length (events w)) ;;
  update_loop n time 0.

(** [EventsScheduler.time_left_to_event_execution] *)
Definition time_left_to_event_execution (event : EventId) : M World Z :=
  l <- gets events ;;
  index <- of_option ValueError (list_index event l) ;;
  t <- gets times ;;
  due <- of_option IndexError (nth_error t index) ;;
  now <- get_time ;;
  ret (due - now).

(** [EventsCreator.add_event_to_scheduled_list] *)
Definition add_event_to_scheduled_list (self : CreatorId) (event : EventId)
  : M World unit :=
  modify (set_owned self (fun l => l ++ [event])).

(** [EventsCreator.remove_event_from_scheduled_list] *)
Definition remove_event_from_scheduled_list (self : CreatorId)
    (event : EventId) : M World unit :=
  l <- gets (fun w => owned w self) ;;
  l' <- of_option ValueError (list_remove event l) ;;
  modify (set_owned self (fun _ => l')).

(** [EventsCreator.schedule_event] *)
Definition schedule_event (self : CreatorId) (event : EventId) : M World unit :=
  add_event_to_scheduled_list self event ;;
  schedule event.

(** [EventsCreator.unschedule_event] *)
Definition unschedule_event (self : CreatorId) (event : EventId)
  : M World unit :=
  remove_event_from_scheduled_list self event ;;
  unschedule event.

(** One dictionary of the list built by [scheduled_events_to_shelve_data].
    [sd_self] is the string ['self'] for a bound method and [None]
    otherwise. *)
Record ShelveData : Type := mkShelveData {
  sd_delay_left : Z;
  sd_delay : Z;
  sd_function_name : string;
  sd_self : option string;
  sd_args : list Z;
  sd_kwargs : list (string * Z);
  sd_repeat : Repeat
}.

Fixpoint shelve_events (l : list EventId) : M World (list ShelveData) :=
  match l with
  | [] => ret []
  | event :: l' =>
      left <- time_left_to_event_execution event ;;
      e <- gets (fun w => heap w event) ;;
      rest <- shelve_events l' ;;
      ret ({| sd_delay_left := left;
              sd_delay := delay e;
              sd_function_name := fn_name (function e);
              sd_self := match fn_self (function e) with
                         | Some _ => Some "self"%string
                         | None => None
                         end;
              sd_args := args e;
              sd_kwargs := kwargs e;
              sd_repeat := repeat e |} :: rest)
  end.

(** [EventsCreator.scheduled_events_to_shelve_data] *)
Definition scheduled_events_to_shelve_data (self : CreatorId)
  : M World (list ShelveData) :=
  l <- gets (fun w => owned w self) ;;
  shelve_events l.

(** A new ScheduledEvent object. *)
Definition new_event (e : ScheduledEvent) : M World EventId :=
  fun w =>
    Ok (next_id w)
       {| clock := clock w; clock_reads := clock_reads w;
          heap := fun k => if Nat.eqb k (next_id w) then e else heap w k;
          next_id := S (next_id w); instance := instance w; owned := owned w;
          executed := executed w |}.

(** Python's [eval] at the place where
    [shelve_data_to_scheduled_events] calls it, [self] being the creator:
    the object the expression evaluates to, or the exception raised
    (NameError for a name that is not bound there, AttributeError for an
    attribute the object does not have, SyntaxError for a text that is no
    expression). *)
Definition Eval : Type := CreatorId -> string -> exn + Callable.

(** The text handed to [eval]:
    [f"{data['self']}.{data['function_name']}" if data['self']
     else data['function_name']]. *)
Definition function_expression (data : ShelveData) : string :=
  match sd_self data with
  | None | Some EmptyString => sd_function_name data
  | Some self_name =>
      String.append self_name (String.append "."%string (sd_function_name data))
  end.

(** [EventsCreator.shelve_data_to_scheduled_events].  The arguments of
    [ScheduledEvent(...)] are evaluated before the object is made, so an
    exception of [eval] leaves no event behind. *)
Fixpoint shelve_data_to_scheduled_events (py_eval : Eval) (self : CreatorId)
    (shelve_data : list ShelveData) : M World (list EventId) :=
  match shelve_data with
  | [] => ret []
  | data :: rest =>
      function <- of_sum (py_eval self (function_expression data)) ;;
      event <- new_event
        (ScheduledEvent_init self (sd_delay data) function
           (Some (sd_args data)) (Some (sd_kwargs data)) (sd_repeat data)
           (Some (sd_delay_left data))) ;;
      events <- shelve_data_to_scheduled_events py_eval self rest ;;
      ret (event :: events)
  end.

(** *** Running the scheduler tick after tick *)

Fixpoint updates (k : nat) : M World unit :=
  match k with
  | O => ret tt
  | S k' => update ;; updates k'
  end.

(** Saving the events of [self] and restoring them: the stored dictionaries
    are turned back into events, and each restored event is handed to
    [EventsScheduler.schedule]. *)
Fixpoint schedule_all (l : list EventId) : M World unit :=
  match l with
  | [] => ret tt
  | event :: l' => schedule event ;; schedule_all l'
  end.

Definition save_and_restore (py_eval : Eval) (self : CreatorId)
  : M World (list ShelveData * list EventId) :=
  shelve_data <- scheduled_events_to_shelve_data self ;;
  restored <- shelve_data_to_scheduled_events py_eval self shelve_data ;;
  schedule_all restored ;;
  ret (shelve_data, restored).

(** The two lists of the registry have the same length. *)
Definition parallel (w : World) : Prop :=
  length (events w) = length (times w).

(** The clock eventually passes every instant. *)
Definition diverges (c : nat -> Z) : Prop :=
  forall z : Z, exists n0 : nat, forall n : nat, (n0 <= n)%nat -> z <= c n.

(** How many times [event] was executed so far. *)
Definition fired (event : EventId) (w : World) : nat :=
  count_occ Nat.eq_dec (executed w) event.

End Scheduling.

(** ** units/units.py: class Unit, occupancy of map nodes and path following *)

Module Units.
Import Py.
Local Open Scope Z_scope.
Local Open Scope py_scope.

Abbreviation UnitId := nat (only parsing).
Definition GridPosition : Type := Z * Z.
Definition Position : Type := Z * Z.

(** A MapNode is identified by its grid coordinates; its mutable [unit]
    attribute is kept in the world's occupancy table. *)
Definition MapNode : Type := GridPosition.

Definition node_eqb (a b : MapNode) : bool :=
  (fst a =? fst b) && (snd a =? snd b).

(** Calls received by the Pathfinder (module map, outside this source
    tree). *)
Inductive PathfinderCall : Type :=
| request_path (unit : UnitId) (start destination : GridPosition)
| cancel_unit_path_requests (unit : UnitId).

(** What Unit takes from its collaborators: the map ([position_to_node],
    [MapNode.position], [position_to_map_grid], the properties
    [MapNode.walkable] and [MapNode.walkable_adjacent], which may depend on
    the occupancy table), [PlayerEntity.is_enemy], [Pathfinder.__contains__]
    as a function of the calls the pathfinder received, the draws of
    [random], and the geometry helpers.  [calculate_angle] returns a float,
    taken as the rational it stands for; [follow_path] truncates it with
    [int], [move_to_current_waypoint] hands it to [vector_2d] as it is. *)
Record Collaborators : Type := mkCollaborators {
  position_to_node : Position -> MapNode;
  node_position : MapNode -> Position;
  position_to_map_grid : Position -> GridPosition;
  walkable : (MapNode -> option UnitId) -> MapNode -> bool;
  walkable_adjacent : (MapNode -> option UnitId) -> MapNode -> list MapNode;
  is_enemy : UnitId -> UnitId -> bool;
  pathfinder_contains : list PathfinderCall -> UnitId -> bool;
  random_draw : nat -> nat;
  calculate_angle : Position -> Position -> QArith_base.Q;
  distance_2d : Position -> Position -> Z;
  vector_2d : QArith_base.Q -> Z -> Z * Z
}.

(** [int(x)] on a float: truncation towards zero. *)
Definition py_int (x : QArith_base.Q) : Z :=
  Z.quot (QArith_base.Qnum x) (Z.pos (QArith_base.Qden x)).

Record Unit : Type := mkUnit {
  position : Position;
  change_x : Z;
  change_y : Z;
  virtual_angle : Z;
  current_node : MapNode;
  reserved_node : option MapNode;
  path : list Position;
  path_wait_counter : Z;
  awaited_path : option (list Position);
  max_speed : Z;
  current_speed : Z;
  rotation_speed : Z
}.

Record World : Type := mkWorld {
  clock : nat -> Z;
  clock_reads : nat;
  draws : nat;
  units : UnitId -> Unit;
  node_unit : MapNode -> option UnitId;
  pathfinder : list PathfinderCall
}.

(** Field updates. *)
Definition with_position (v : Position) (u : Unit) : Unit :=
  mkUnit v (change_x u) (change_y u) (virtual_angle u) (current_node u)
    (reserved_node u) (path u) (path_wait_counter u) (awaited_path u)
    (max_speed u) (current_speed u) (rotation_speed u).
Definition with_change (x y : Z) (u : Unit) : Unit :=
  mkUnit (position u) x y (virtual_angle u) (current_node u)
    (reserved_node u) (path u) (path_wait_counter u) (awaited_path u)
    (max_speed u) (current_speed u) (rotation_speed u).
Definition with_virtual_angle (v : Z) (u : Unit) : Unit :=
  mkUnit (position u) (change_x u) (change_y u) v (current_node u)
    (reserved_node u) (path u) (path_wait_counter u) (awaited_path u)
    (max_speed u) (current_speed u) (rotation_speed u).
Definition with_current_node (v : MapNode) (u : Unit) : Unit :=
  mkUnit (position u) (change_x u) (change_y u) (virtual_angle u) v
    (reserved_node u) (path u) (path_wait_counter u) (awaited_path u)
    (max_speed u) (current_speed u) (rotation_speed u).
Definition with_reserved_node (v : option MapNode) (u : Unit) : Unit :=
  mkUnit (position u) (change_x u) (change_y u) (virtual_angle u)
    (current_node u) v (path u) (path_wait_counter u) (awaited_path u)
    (max_speed u) (current_speed u) (rotation_speed u).
Definition with_path (v : list Position) (u : Unit) : Unit :=
  mkUnit (position u) (change_x u) (change_y u) (virtual_angle u)
    (current_node u) (reserved_node u) v (path_wait_counter u)
    (awaited_path u) (max_speed u) (current_speed u) (rotation_speed u).
Definition with_path_wait_counter (v : Z) (u : Unit) : Unit :=
  mkUnit (position u) (change_x u) (change_y u) (virtual_angle u)
    (current_node u) (reserved_node u) (path u) v (awaited_path u)
    (max_speed u) (current_speed u) (rotation_speed u).
Definition with_awaited_path (v : option (list Position)) (u : Unit) : Unit :=
  mkUnit (position u) (change_x u) (change_y u) (virtual_angle u)
    (current_node u) (reserved_node u) (path u) (path_wait_counter u) v
    (max_speed u) (current_speed u) (rotation_speed u).
Definition with_current_speed (v : Z) (u : Unit) : Unit :=
  mkUnit (position u) (change_x u) (change_y u) (virtual_angle u)
    (current_node u) (reserved_node u) (path u) (path_wait_counter u)
    (awaited_path u) (max_speed u) v (rotation_speed u).

Definition set_unit (self : UnitId) (f : Unit -> Unit) (w : World) : World :=
  mkWorld (clock w) (clock_reads w) (draws w)
    (fun k => if Nat.eqb k self then f (units w k) else units w k)
    (node_unit w) (pathfinder w).

Definition set_node_unit (node : MapNode) (v : option UnitId) (w : World)
  : World :=
  mkWorld (clock w) (clock_reads w) (draws w) (units w)
    (fun n => if node_eqb n node then v else node_unit w n)
    (pathfinder w).

Definition call_pathfinder (c : PathfinderCall) (w : World) : World :=
  mkWorld (clock w) (clock_reads w) (draws w) (units w) (node_unit w)
    (pathfinder w ++ [c]).

(** [time.time()] *)
Definition get_time : M World Z :=
  fun w =>
    Ok (clock w (clock_reads w))
       (mkWorld (clock w) (S (clock_reads w)) (draws w) (units w)
          (node_unit w) (pathfinder w)).

Definition self_ (self : UnitId) : M World Unit :=
  gets (fun w => units w self).

Section WithCollaborators.

Variable env : Collaborators.

(** [random.choice(l)] on a list that is not empty. *)
Definition random_choice (l : list MapNode) : M World MapNode :=
  fun w =>
    match nth_error l (random_draw env (draws w) mod length l)%nat with
    | Some n =>
        Ok n (mkWorld (clock w) (clock_reads w) (S (draws w)) (units w)
                (node_unit w) (pathfinder w))
    | None => Raise IndexError w
    end.

(** [Unit.unblock_map_node] *)
Definition unblock_map_node (node : MapNode) : M World unit :=
  modify (set_node_unit node None).

(** [Unit.block_map_node] *)
Definition block_map_node (self : UnitId) (node : MapNode) : M World unit :=
  modify (set_node_unit node (Some self)).

(** [Unit.swap_blocked_nodes] *)
Definition swap_blocked_nodes (self : UnitId) (unblocked : option MapNode)
    (blocked : MapNode) : M World unit :=
  match unblocked with
  | Some node => unblock_map_node node
  | None => ret tt
  end ;;
  block_map_node self blocked.

(** [Unit.update_current_blocked_node] *)
Definition update_current_blocked_node (self : UnitId)
    (new_current_node : MapNode) : M World unit :=
  u <- self_ self ;;
  swap_blocked_nodes self (Some (current_node u)) new_current_node ;;
  modify (set_unit self (with_current_node new_current_node)).

(** [Unit.update_reserved_node] *)
Definition update_reserved_node (self : UnitId) : M World unit :=
  u <- self_ self ;;
  front <- of_option IndexError (nth_error (path u) 0) ;;
  let new_reserved_node := position_to_node env front in
  swap_blocked_nodes self (reserved_node u) new_reserved_node ;;
  modify (set_unit self (with_reserved_node (Some new_reserved_node))).

(** [Sprite.stop], inherited from the arcade library: the velocity is set
    to zero. *)
Definition stop (self : UnitId) : M World unit :=
  modify (set_unit self (with_change 0 0)).

(** [Unit.cancel_path_requests] *)
Definition cancel_path_requests (self : UnitId) : M World unit :=
  modify (call_pathfinder (cancel_unit_path_requests self)).

(** [Unit.move_to] *)
Definition move_to (self : UnitId) (destination : GridPosition)
  : M World unit :=
  cancel_path_requests self ;;
  u <- self_ self ;;
  let start := position_to_map_grid env (position u) in
  modify (call_pathfinder (request_path self start destination)).

(** [Unit.has_destination]: truth value of
    [self.path or self.awaited_path or self in Pathfinder.instance]. *)
Definition has_destination (self : UnitId) (w : World) : bool :=
  let u := units w self in
  match path u with
  | _ :: _ => true
  | [] =>
      match awaited_path u with
      | Some (_ :: _) => true
      | _ => pathfinder_contains env (pathfinder w) self
      end
  end.

(** [Unit.wait_for_free_path] *)
Definition wait_for_free_path (self : UnitId) (path : list Position)
  : M World unit :=
  now <- get_time ;;
  modify (set_unit self (with_path_wait_counter (now + 1))) ;;
  modify (set_unit self (with_awaited_path (Some path))) ;;
  modify (set_unit self (with_path [])) ;;
  stop self.

(** [Unit.find_alternative_path]: the new path when a detour was found. *)
Definition find_alternative_path (self : UnitId)
  : M World (option (list Position)) :=
  u <- self_ self ;;
  match path u with
  | front :: second :: rest =>
      occupancy <- gets node_unit ;;
      let destination := position_to_node env second in
      let adjacent := walkable_adjacent env occupancy (current_node u) in
      let around := walkable_adjacent env occupancy destination in
      match filter (fun n => existsb (node_eqb n) around) adjacent with
      | node :: _ =>
          let path' := node_position env node :: second :: rest in
          modify (set_unit self (with_path path')) ;;
          ret (Some path')
      | [] => ret None
      end
  | _ => ret None
  end.

(** [Unit.find_free_tile_to_unblock_way], called on the blocker. *)
Definition find_free_tile_to_unblock_way (self : UnitId)
    (path : list Position) : M World bool :=
  u <- self_ self ;;
  occupancy <- gets node_unit ;;
  match walkable_adjacent env occupancy (current_node u) with
  | [] => ret false
  | adjacent =>
      free_tile <- random_choice adjacent ;;
      move_to self free_tile ;;
      ret true
  end.

(** [Unit.ask_for_pass] *)
Definition ask_for_pass (self blocker : UnitId) : M World unit :=
  u <- self_ self ;;
  moved <- find_free_tile_to_unblock_way blocker (path u) ;;
  if moved then
    u <- self_ self ;;
    wait_for_free_path self (path u)
  else
    u <- self_ self ;;
    last <- of_option IndexError (list_last (path u)) ;;
    move_to self (position_to_map_grid env last).

(** [Unit.find_best_way_to_avoid_collision] *)
Definition find_best_way_to_avoid_collision (self blocker : UnitId)
  : M World unit :=
  busy <- gets (has_destination blocker) ;;
  if busy || is_enemy env self blocker then
    u <- self_ self ;;
    wait_for_free_path self (path u)
  else
    detour <- find_alternative_path self ;;
    match detour with
    | Some _ => ret tt
    | None => ask_for_pass self blocker
    end.

(** [Unit.scan_next_nodes_for_collisions] *)
Definition scan_next_nodes_for_collisions (self : UnitId) : M World unit :=
  u <- self_ self ;;
  match path u with
  | [] => ret tt
  | front :: _ =>
      occupancy <- gets node_unit ;;
      match occupancy (position_to_node env front) with
      | None => ret tt
      | Some blocker =>
          if Nat.eqb blocker self then ret tt
          else find_best_way_to_avoid_collision self blocker
      end
  end.

(** [Unit.update_blocked_map_nodes] *)
Definition update_blocked_map_nodes (self : UnitId)
    (new_current_node : MapNode) : M World unit :=
  scan_next_nodes_for_collisions self ;;
  update_current_blocked_node self new_current_node ;;
  u <- self_ self ;;
  if (1 <? length (path u))%nat then update_reserved_node self
  else ret tt.

(** [Unit.restart_path] *)
Definition restart_path (self : UnitId) (path : list Position)
  : M World unit :=
  (if (20 <? length path)%nat then
     modify (set_unit self (with_path path))
   else
     destination_position <- of_option IndexError (list_last path) ;;
     move_to self (position_to_map_grid env destination_position)) ;;
  modify (set_unit self (with_awaited_path None)).

(** [Unit.countdown_waiting] *)
Definition countdown_waiting (self : UnitId) (path : list Position)
  : M World unit :=
  now <- get_time ;;
  u <- self_ self ;;
  if now >=? path_wait_counter u then
    front <- of_option IndexError (nth_error path 0) ;;
    occupancy <- gets node_unit ;;
    if walkable env occupancy (position_to_node env front)
       || (length path <? 20)%nat
    then restart_path self path
    else modify (set_unit self
                   (with_path_wait_counter (path_wait_counter u + 1)))
  else ret tt.

(** [Unit.calculate_unit_virtual_angle] *)
Definition calculate_unit_virtual_angle (self : UnitId) (angle_to_target : Z)
  : M World unit :=
  u <- self_ self ;;
  let difference := Z.abs (virtual_angle u - angle_to_target) in
  let rotation := Z.min difference (rotation_speed u) in
  let direction :=
    if difference <? 180 then
      if virtual_angle u <? angle_to_target then 1 else -1
    else
      if virtual_angle u <? angle_to_target then -1 else 1 in
  modify (set_unit self
            (with_virtual_angle
               ((virtual_angle u + rotation * direction) mod 360))).

(** [Unit.rotate_towards_target]; the choice of the texture is left out. *)
Definition rotate_towards_target (self : UnitId) (angle_to_target : Z)
  : M World unit :=
  calculate_unit_virtual_angle self angle_to_target.

(** [Unit.move_to_next_waypoint] *)
Definition move_to_next_waypoint (self : UnitId) : M World unit :=
  u <- self_ self ;;
  match path u with
  | [] => raise IndexError
  | _ :: rest => modify (set_unit self (with_path rest))
  end.

(** [Unit.move_to_current_waypoint] *)
Definition move_to_current_waypoint (self : UnitId) (destination : Position)
    (distance_left : Z) : M World unit :=
  u <- self_ self ;;
  let angle := calculate_angle env (position u) destination in
  let speed := Z.min distance_left (max_speed u) in
  modify (set_unit self (with_current_speed speed)) ;;
  let v := vector_2d env angle speed in
  modify (set_unit self (with_change (fst v) (snd v))).

(** [Unit.follow_path] *)
Definition follow_path (self : UnitId) : M World unit :=
  u <- self_ self ;;
  destination <- of_option IndexError (nth_error (path u) 0) ;;
  let angle_to_target :=
    py_int (calculate_angle env (position u) destination) in
  if negb (virtual_angle u =? angle_to_target) then
    stop self ;;
    rotate_towards_target self angle_to_target
  else
    let speed := current_speed u in
    let distance_left := distance_2d env (position u) destination in
    if distance_left <=? speed then move_to_next_waypoint self
    else move_to_current_waypoint self destination distance_left.

(** [Unit.update_pathfinding] *)
Definition update_pathfinding (self : UnitId) : M World unit :=
  u <- self_ self ;;
  match awaited_path u with
  | Some awaited => countdown_waiting self awaited
  | None =>
      match path u with
      | _ :: _ => follow_path self
      | [] => stop self
      end
  end.

(** [Unit.update_current_node]; the swap of rendering layers is left out. *)
Definition update_current_node (self : UnitId) : M World MapNode :=
  u <- self_ self ;;
  ret (position_to_node env (position u)).

(** [Unit.on_update]. Of the inherited [on_update] (PlayerEntity, then
    GameObject) the step of [GameObject.on_update] that moves the sprite by
    its velocity is kept; animation, the observed area and the sector
    bookkeeping do not touch the fields modelled here and are left out. *)
Definition on_update (self : UnitId) : M World unit :=
  u <- self_ self ;;
  modify (set_unit self
            (with_position (fst (position u) + change_x u,
                            snd (position u) + change_y u))) ;;
  new_current_node <- update_current_node self ;;
  update_blocked_map_nodes self new_current_node ;;
  update_pathfinding self.

(** The simulation loop calls [on_update] once per tick. *)
Fixpoint ticks (self : UnitId) (k : nat) : M World unit :=
  match k with
  | O => ret tt
  | S k' => on_update self ;; ticks self k'
  end.

(** [Unit.clear_all_blocked_nodes] *)
Definition clear_all_blocked_nodes (self : UnitId) : M World unit :=
  u <- self_ self ;;
  unblock_map_node (current_node u) ;;
  match reserved_node u with
  | Some node => unblock_map_node node
  | None => ret tt
  end.

End WithCollaborators.

End Units.

(** ** Notions used to state and prove the properties *)

Module SchedulingNotions.
Import Py Scheduling.
Local Open Scope Z_scope.
Local Open Scope py_scope.

(** The entries (event, fire time) of the registry that do not belong to
    [event], in registry order. *)
Definition entries_of_others (event : EventId) (w : World)
  : list (EventId * Z) :=
  filter (fun p => negb (Nat.eqb (fst p) event))
         (combine (events w) (times w)).

(** The world after a due event [x] fired, [l'] and [t'] being the registry
    without the entry of [x]. *)
Definition after_fire (w : World) (x : EventId) (l' : list EventId)
    (t' : list Z) : World :=
  let e := heap w x in
  if truthy (repeat e) then
    {| clock := clock w; clock_reads := S (clock_reads w);
       heap := fun k =>
         if Nat.eqb k x then
           {| creator := creator e; delay := delay e;
              function := function e; args := args e;
              kwargs := kwargs e; repeat := decrement (repeat e);
              delay_left := delay_left e |}
         else heap w k;
       next_id := next_id w;
       instance :=
         {| update_rate := update_rate (instance w);
            scheduled_events := l' ++ [x];
            execution_times :=
              t' ++ [clock w (clock_reads w)
                     + py_or (delay_left e) (delay e)] |};
       owned := owned w; executed := executed w ++ [x] |}
  else
    {| clock := clock w; clock_reads := clock_reads w; heap := heap w;
       next_id := next_id w;
       instance :=
         {| update_rate := update_rate (instance w);
            scheduled_events := l'; execution_times := t' |};
       owned := owned w; executed := executed w ++ [x] |}.

(** Executions still owed to [e]: one for its entry in the registry and one
    per remaining repeat. *)
Definition pending (e : EventId) (w : World) : Z :=
  match repeat (heap w e) with
  | Fin r => if (count_occ Nat.eq_dec (events w) e =? 0)%nat then 0 else r + 1
  | Inf => 0
  end.

(** The invariant behind the repeat count: the registry is well formed, [e]
    has at most one entry and a finite repeat count that is not negative,
    and past plus owed executions add up to [K]. *)
Definition accounted (e : EventId) (K : Z) (w : World) : Prop :=
  parallel w /\
  (count_occ Nat.eq_dec (events w) e <= 1)%nat /\
  (exists r, repeat (heap w e) = Fin r /\ 0 <= r) /\
  Z.of_nat (fired e w) + pending e w = K.

(** What a pass of [update] started at position [i] does for [e]: it fires,
    or its entry stays, no further from the front, and when the iterator had
    not passed it yet the entry moved towards the front or was not due. *)
Definition progress (e : EventId) (time : Z) (i : nat) (w w' : World) : Prop :=
  (fired e w < fired e w')%nat \/
  (fired e w' = fired e w /\
   forall j due,
     list_index e (events w) = Some j ->
     nth_error (times w) j = Some due ->
     exists j',
       list_index e (events w') = Some j' /\
       nth_error (times w') j' = Some due /\
       (j' <= j)%nat /\
       ((i <= j)%nat -> (j' < j)%nat \/ time < due)).

(** Example worlds. *)

(** An event created by [ScheduledEvent(creator, delay, f, repeat=repeat)]. *)
Definition plain (repeat : Z) (delay : Z) : ScheduledEvent :=
  ScheduledEvent_init 0%nat delay {| fn_name := "f"; fn_self := None |}
    None None (Fin repeat) None.

(** A scheduler with nothing scheduled. *)
Definition idle (c : nat -> Z) (h : EventId -> ScheduledEvent) : World :=
  {| clock := c; clock_reads := 0%nat; heap := h; next_id := 100%nat;
     instance := {| update_rate := 1; scheduled_events := [];
                    execution_times := [] |};
     owned := fun _ => []; executed := [] |}.

(** Two one-shot events, both due at 5, at time 10. *)
Definition two_due : World :=
  {| clock := fun _ => 10; clock_reads := 0%nat;
     heap := fun _ => plain 0 5; next_id := 100%nat;
     instance := {| update_rate := 1; scheduled_events := [1%nat; 2%nat];
                    execution_times := [5; 5] |};
     owned := fun _ => []; executed := [] |}.

(** Three one-shot events due at 5, 6 and 7. *)
Definition three_events : World :=
  {| clock := fun _ => 0; clock_reads := 0%nat;
     heap := fun _ => plain 0 5; next_id := 100%nat;
     instance := {| update_rate := 1;
                    scheduled_events := [1%nat; 2%nat; 3%nat];
                    execution_times := [5; 6; 7] |};
     owned := fun _ => []; executed := [] |}.

(** A restored event: delay 10, 7 left when it was saved, one repeat; it is
    due at 7 and the time is 7. *)
Definition restored_repeater : World :=
  {| clock := fun _ => 7; clock_reads := 0%nat;
     heap := fun _ =>
       ScheduledEvent_init 0%nat 10 {| fn_name := "f"; fn_self := None |}
         None None (Fin 1) (Some 7);
     next_id := 100%nat;
     instance := {| update_rate := 1; scheduled_events := [1%nat];
                    execution_times := [7] |};
     owned := fun _ => [1%nat]; executed := [] |}.

(** An event of delay 10 owned by creator 0, due at 10, at time 10. *)
Definition due_now : World :=
  {| clock := fun _ => 10; clock_reads := 0%nat;
     heap := fun _ => plain 0 10; next_id := 100%nat;
     instance := {| update_rate := 1; scheduled_events := [1%nat];
                    execution_times := [10] |};
     owned := fun _ => [1%nat]; executed := [] |}.

(** The text [eval] is given for an event that was saved with the function
    [f]: the saver writes ['self'] for a bound method. *)
Definition stored_expression (f : Callable) : string :=
  match fn_self f with
  | Some _ => String.append "self" (String.append "." (fn_name f))
  | None => fn_name f
  end.

(** A creator with a method [move_to] and nothing else that [eval] could
    find. *)
Definition unit_methods : Eval :=
  fun self expression =>
    if String.eqb expression "self.move_to"
    then inr {| fn_name := "move_to"; fn_self := Some self |}
    else inl NameError.

(** Creator 0 ordered a move, event 1, with delay 10; it is due at 10, and
    the time is 10. *)
Definition due_order : World :=
  {| clock := fun _ => 10; clock_reads := 0%nat;
     heap := fun _ =>
       ScheduledEvent_init 0%nat 10
         {| fn_name := "move_to"; fn_self := Some 0%nat |} None None (Fin 0)
         None;
     next_id := 100%nat;
     instance := {| update_rate := 1; scheduled_events := [1%nat];
                    execution_times := [10] |};
     owned := fun _ => [1%nat]; executed := [] |}.

(** Creator 0 scheduled event 1 and cancelled it once. *)
Definition cancelled_once : World :=
  match (schedule_event 0%nat 1%nat ;; unschedule_event 0%nat 1%nat)
          (idle (fun _ => 0) (fun _ => plain 0 5)) with
  | Ok _ w => w
  | _ => idle (fun _ => 0) (fun _ => plain 0 5)
  end.

End SchedulingNotions.

Module UnitsNotions.
Import Py Units.
Local Open Scope Z_scope.
Local Open Scope py_scope.

(** A step leaves the reservation of [self] as it was. *)
Definition keeps_reservation (self : UnitId) (w w' : World) : Prop :=
  reserved_node (units w' self) = reserved_node (units w self).

(** What a tick leaves of the unit [self]: its waypoint queue and its
    reservation ([None] when the tick raised). *)
Definition queue_and_reservation (self : UnitId) (r : result World unit)
  : option (list Position * option MapNode) :=
  match r with
  | Ok _ w => Some (path (units w self), reserved_node (units w self))
  | _ => None
  end.

(** The holder a tick leaves on [node] ([None] when the tick raised). *)
Definition occupant (node : MapNode) (r : result World unit)
  : option (option UnitId) :=
  match r with
  | Ok _ w => Some (node_unit w node)
  | _ => None
  end.

(** A small map: one pixel per cell, a node is walkable when no unit holds
    it, its neighbours are the four cells around it.  The geometry helpers
    are exact along the four axis directions, where [calculate_angle] is 0
    towards +y, 90 towards -x, 180 towards -y and 270 towards +x, and
    [distance_2d] is the distance along the axis. *)
Definition free (occupancy : MapNode -> option nat) (n : MapNode) : bool :=
  match occupancy n with None => true | Some _ => false end.

Definition grid_map : Collaborators :=
  {| position_to_node := fun p => p;
     node_position := fun n => n;
     position_to_map_grid := fun p => p;
     walkable := free;
     walkable_adjacent := fun occupancy n =>
       filter (free occupancy)
         [(fst n + 1, snd n); (fst n - 1, snd n);
          (fst n, snd n + 1); (fst n, snd n - 1)];
     is_enemy := fun _ _ => false;
     pathfinder_contains := fun _ _ => false;
     random_draw := fun _ => 0%nat;
     calculate_angle := fun a b =>
       QArith_base.inject_Z
         (if fst a <? fst b then 270
          else if fst b <? fst a then 90
          else if snd b <? snd a then 180 else 0);
     distance_2d := fun a b =>
       Z.abs (fst b - fst a) + Z.abs (snd b - snd a);
     vector_2d := fun angle speed =>
       if QArith_base.Qeq_bool angle (QArith_base.inject_Z 270)
       then (speed, 0)
       else if QArith_base.Qeq_bool angle (QArith_base.inject_Z 90)
       then (- speed, 0)
       else if QArith_base.Qeq_bool angle (QArith_base.inject_Z 180)
       then (0, - speed) else (0, speed) |}.

(** A unit standing at [p], facing +x, with the waypoints [route] ahead. *)
Definition walker (p : Position) (route : list Position) : Unit :=
  {| position := p; change_x := 0; change_y := 0; virtual_angle := 270;
     current_node := p; reserved_node := None; path := route;
     path_wait_counter := 0; awaited_path := None; max_speed := 1;
     current_speed := 1; rotation_speed := 45 |}.

(** Unit 1 alone on the map, at (0, 0), with two waypoints ahead. *)
Definition lone_walker : World :=
  {| clock := fun n => Z.of_nat n; clock_reads := 0%nat; draws := 0%nat;
     units := fun _ => walker (0, 0) [(1, 0); (2, 0)];
     node_unit := fun n => if node_eqb n (0, 0) then Some 1%nat else None;
     pathfinder := [] |}.

(** Unit 1 holds the node (2, 0), unit 2 the node (1, 0). *)
Definition contested : World :=
  {| clock := fun n => Z.of_nat n; clock_reads := 0%nat; draws := 0%nat;
     units := fun k => walker (if Nat.eqb k 1 then (2, 0) else (1, 0)) [];
     node_unit := fun n =>
       if node_eqb n (2, 0) then Some 1%nat
       else if node_eqb n (1, 0) then Some 2%nat else None;
     pathfinder := [] |}.

(** Unit 1 at (0, 0) is sent to (2, 0) through (1, 0).  Unit 2 stands on
    (1, 0) with nowhere to go: unit 1 and the units 3, 4 and 5 hold the four
    nodes around it. *)
Definition boxed_in : World :=
  {| clock := fun n => Z.of_nat n; clock_reads := 0%nat; draws := 0%nat;
     units := fun k =>
       match k with
       | 1%nat => walker (0, 0) [(1, 0); (2, 0)]
       | 2%nat => walker (1, 0) []
       | 3%nat => walker (2, 0) []
       | 4%nat => walker (1, 1) []
       | _ => walker (1, -1) []
       end;
     node_unit := fun n =>
       if node_eqb n (0, 0) then Some 1%nat
       else if node_eqb n (1, 0) then Some 2%nat
       else if node_eqb n (2, 0) then Some 3%nat
       else if node_eqb n (1, 1) then Some 4%nat
       else if node_eqb n (1, -1) then Some 5%nat
       else None;
     pathfinder := [] |}.

(** Unit 1 waits at (0, 0) with a shelved path of one waypoint, whose node
    is held by unit 2; its deadline has passed. *)
Definition blocked_waiter : World :=
  {| clock := fun n => 5; clock_reads := 0%nat; draws := 0%nat;
     units := fun k =>
       if Nat.eqb k 1 then
         {| position := (0, 0); change_x := 0; change_y := 0;
            virtual_angle := 270; current_node := (0, 0);
            reserved_node := None; path := [];
            path_wait_counter := 4; awaited_path := Some [(3, 0)];
            max_speed := 1; current_speed := 1; rotation_speed := 45 |}
       else walker (3, 0) [];
     node_unit := fun n =>
       if node_eqb n (0, 0) then Some 1%nat
       else if node_eqb n (3, 0) then Some 2%nat else None;
     pathfinder := [] |}.

End UnitsNotions.

(** ** More of the scheduler and of its callers *)

Module SchedulingMore.
Import Py Scheduling.
Local Open Scope Z_scope.
Local Open Scope py_scope.

(** [f == g] on callables: bound methods are equal when they are bound to
    the same object and wrap the same function, functions when they are
    the same function; a function is identified by its name here. *)
Definition callable_eqb (f g : Callable) : bool :=
  String.eqb (fn_name f) (fn_name g)
  && match fn_self f, fn_self g with
     | Some a, Some b => Nat.eqb a b
     | None, None => true
     | _, _ => false
     end.

(** The bound method [self.move_to] of a unit. *)
Definition move_to_method (self : CreatorId) : Callable :=
  {| fn_name := "move_to"; fn_self := Some self |}.

(** The loop of [Unit.unschedule_earlier_move_orders]:
    [for event in (e for e in self.scheduled_events if e.function == self.move_to)].
    The generator walks the owner's list by position while the body removes
    events from that very list. *)
Fixpoint move_orders_loop (fuel : nat) (self : CreatorId) (i : nat)
  : M World unit :=
  fun w =>
    match nth_error (owned w self) i with
    | None => Ok tt w
    | Some event =>
        match fuel with
        | O => OutOfFuel
        | S fuel' =>
            if callable_eqb (function (heap w event)) (move_to_method self)
            then (unschedule_event self event ;;
                  move_orders_loop fuel' self (S i)) w
            else move_orders_loop fuel' self (S i) w
        end
    end.

(** [Unit.unschedule_earlier_move_orders] (units/units.py); a Unit is an
    EventsCreator.  The list never grows, so its length bounds the number
    of rounds. *)
Definition unschedule_earlier_move_orders (self : CreatorId) : M World unit :=
  n <- gets (fun w => length (owned w self)) ;;
  move_orders_loop n self 0.

(** A repeat count that never becomes falsy: [inf], or a negative int. *)
Definition endless (r : Repeat) : Prop :=
  match r with
  | Inf => True
  | Fin n => n < 0
  end.

(** The world after one more call of [time.time()]. *)
Definition after_clock_read (w : World) : World :=
  {| clock := clock w; clock_reads := S (clock_reads w); heap := heap w;
     next_id := next_id w; instance := instance w; owned := owned w;
     executed := executed w |}.

(** What the sweep over the owner's list leaves of it, [keep] telling the
    events that are no move orders: a cancelled event takes the place the
    iterator is on, so its successor is stepped over. *)
Fixpoint survivors (keep : EventId -> bool) (l : list EventId)
  : list EventId :=
  match l with
  | [] => []
  | e :: rest =>
      if keep e then e :: survivors keep rest
      else match rest with
           | [] => []
           | s :: rest' => s :: survivors keep rest'
           end
  end.

(** The pass of [update] so far, seen from the world [w0] it started in:
    the registry is well formed and holds events of [w0] only, the
    executions recorded since are of events of [w0], and the owners' lists
    are untouched. *)
Definition pass_from (w0 w : World) : Prop :=
  parallel w /\
  incl (events w) (events w0) /\
  (exists l, executed w = executed w0 ++ l /\ incl l (events w0)) /\
  owned w = owned w0 /\ next_id w = next_id w0 /\ clock w = clock w0.

(** [e] has one entry in a well-formed registry and an endless repeat
    count. *)
Definition kept_for_ever (e : EventId) (w : World) : Prop :=
  parallel w /\
  count_occ Nat.eq_dec (events w) e = 1%nat /\
  endless (repeat (heap w e)).

(** Unit 7 scheduled two orders to move, the events 1 and 2, both due
    at 5. *)
Definition two_move_orders : World :=
  {| clock := fun _ => 0; clock_reads := 0%nat;
     heap := fun _ =>
       ScheduledEvent_init 7%nat 5 (move_to_method 7%nat) None None (Fin 0)
         None;
     next_id := 100%nat;
     instance := {| update_rate := 1; scheduled_events := [1%nat; 2%nat];
                    execution_times := [5; 5] |};
     owned := fun c => if Nat.eqb c 7 then [1%nat; 2%nat] else [];
     executed := [] |}.

End SchedulingMore.

(** ** utils/geometry.py: the helpers on integers *)

Module Geometry.
Local Open Scope Z_scope.

(** [range(lo, hi)] *)
Definition range (lo hi : Z) : list Z :=
  map (fun n => lo + Z.of_nat n) (seq 0 (Z.to_nat (hi - lo))).

(** A dict built by a comprehension, as the list of its (key, value) pairs
    in the order they are produced; a pair produced later replaces the
    value of its key. *)
Definition dict_get (k : Z) (d : list (Z * Z)) : option Z :=
  fold_left (fun acc p => if fst p =? k then Some (snd p) else acc) d None.

(** [precalculate_8_angles]: the comprehension
    [{i: j if j < 8 else 0 for j in range(0, 9) for i in range(361)
      if (j * 45) - i < 22.5}];
    the comparison with 22.5 is written on the doubled integers. *)
Definition precalculate_8_angles : list (Z * Z) :=
  flat_map
    (fun j =>
       flat_map
         (fun i =>
            if 2 * (j * 45 - i) <? 45
            then [(i, if j <? 8 then j else 0)]
            else [])
         (range 0 361))
    (range 0 9).

(** [clamp(value, maximum, minimum=0)] on integers. *)
Definition clamp (value maximum minimum : Z) : Z :=
  Z.max minimum (Z.min value maximum).

(** The table of [precalculate_8_angles] is right at the key [i]. *)
Definition slice_ok (i : Z) : bool :=
  match dict_get i precalculate_8_angles with
  | Some v => v =? ((2 * i + 45) / 90) mod 8
  | None => false
  end.

End Geometry.

(** ** units/units.py: class UnitsOrderedDestinations *)

Module Destinations.
Local Open Scope Z_scope.

Definition Point : Type := Z * Z.

(** The object's two attributes.  [destinations] is the list the caller
    passed to [new_destinations]; the caller's own reference to it is not
    part of the model. *)
Record UnitsOrderedDestinations : Type := mkDestinations {
  destinations : list Point;
  time_left : Z
}.

(** [UnitsOrderedDestinations.__init__] *)
Definition init : UnitsOrderedDestinations :=
  {| destinations := []; time_left := 0 |}.

(** [UnitsOrderedDestinations.new_destinations] *)
Definition new_destinations (points : list Point)
    (self : UnitsOrderedDestinations) : UnitsOrderedDestinations :=
  {| destinations := points; time_left := 90 |}.

(** [UnitsOrderedDestinations.on_update] *)
Definition on_update (self : UnitsOrderedDestinations)
  : UnitsOrderedDestinations :=
  if 0 <? time_left self then
    {| destinations := destinations self; time_left := time_left self - 1 |}
  else
    {| destinations := []; time_left := time_left self |}.

(** [k] frames. *)
Definition frames (k : nat) (self : UnitsOrderedDestinations)
  : UnitsOrderedDestinations :=
  Nat.iter k on_update self.

End Destinations.

(** ** Notions for the units' movement *)

Module UnitsMore.
Import Py Units UnitsNotions.
Local Open Scope Z_scope.
Local Open Scope py_scope.

(** A step of the unit [self] leaves the other units as they were. *)
Definition others_untouched (self : UnitId) (w w' : World) : Prop :=
  forall k, k <> self -> units w' k = units w k.

(** A shelved path is never empty, and while a path is shelved the
    waypoint queue is empty. *)
Definition shelved_well (u : Unit) : Prop :=
  match awaited_path u with
  | Some [] => False
  | Some (_ :: _) => path u = []
  | None => True
  end.

(** The nodes that name [self] as their unit are among its current node
    and its reserved node. *)
Definition tidy (self : UnitId) (w : World) : Prop :=
  forall n, node_unit w n = Some self ->
            n = current_node (units w self) \/
            reserved_node (units w self) = Some n.

(** What the collision scan of [self] leaves alone. *)
Definition scan_frame (self : UnitId) (w w1 : World) : Prop :=
  others_untouched self w w1 /\
  node_unit w1 = node_unit w /\
  current_node (units w1 self) = current_node (units w self) /\
  reserved_node (units w1 self) = reserved_node (units w self) /\
  position (units w1 self) = position (units w self) /\
  (shelved_well (units w self) -> shelved_well (units w1 self)).

(** What [update_pathfinding] of [self] leaves alone. *)
Definition steering_frame (self : UnitId) (w w' : World) : Prop :=
  others_untouched self w w' /\
  node_unit w' = node_unit w /\
  current_node (units w' self) = current_node (units w self) /\
  reserved_node (units w' self) = reserved_node (units w self) /\
  position (units w' self) = position (units w self) /\
  shelved_well (units w' self).

(** The angle between two directions given in degrees, the short way
    round. *)
Definition arc (a b : Z) : Z :=
  Z.min (Z.abs (a - b)) (360 - Z.abs (a - b)).

(** The nodes [find_alternative_path] can step on instead of the blocked
    waypoint: the walkable neighbours of the unit's node that are walkable
    neighbours of the node of the waypoint after it, [second]. *)
Definition detours (env : Collaborators) (w : World) (self : UnitId)
    (second : Position) : list MapNode :=
  filter (fun n => existsb (node_eqb n)
                     (walkable_adjacent env (node_unit w)
                        (position_to_node env second)))
         (walkable_adjacent env (node_unit w) (current_node (units w self))).

(** Unit 1 at (0, 0) is sent through (1, 0), where unit 2 stands, which is
    itself on its way to (0, 0). *)
Definition oncoming : World :=
  {| clock := fun n => Z.of_nat n; clock_reads := 0%nat; draws := 0%nat;
     units := fun k =>
       if Nat.eqb k 1 then walker (0, 0) [(1, 0); (2, 0)]
       else walker (1, 0) [(0, 0)];
     node_unit := fun n =>
       if node_eqb n (0, 0) then Some 1%nat
       else if node_eqb n (1, 0) then Some 2%nat else None;
     pathfinder := [] |}.

(** Unit 1 at (0, 0) is sent to (1, 1) through (1, 0), where the idle
    unit 2 stands. *)
Definition corner : World :=
  {| clock := fun n => Z.of_nat n; clock_reads := 0%nat; draws := 0%nat;
     units := fun k =>
       if Nat.eqb k 1 then walker (0, 0) [(1, 0); (1, 1)]
       else walker (1, 0) [];
     node_unit := fun n =>
       if node_eqb n (0, 0) then Some 1%nat
       else if node_eqb n (1, 0) then Some 2%nat else None;
     pathfinder := [] |}.

(** Unit 1 moves from (0, 0) towards (1, 0), the node it has reserved and
    whose waypoint it has already passed on to the next ones, (2, 0) and
    (3, 0). *)
Definition arrived : World :=
  {| clock := fun n => Z.of_nat n; clock_reads := 0%nat; draws := 0%nat;
     units := fun _ =>
       {| position := (0, 0); change_x := 1; change_y := 0;
          virtual_angle := 270; current_node := (0, 0);
          reserved_node := Some (1, 0); path := [(2, 0); (3, 0)];
          path_wait_counter := 0; awaited_path := None; max_speed := 1;
          current_speed := 1; rotation_speed := 45 |};
     node_unit := fun n =>
       if node_eqb n (0, 0) then Some 1%nat
       else if node_eqb n (1, 0) then Some 1%nat else None;
     pathfinder := [] |}.

(** Unit 1 waits at (0, 0) with a shelved path; its deadline, 9, is still
    ahead. *)
Definition early_waiter : World :=
  {| clock := fun n => 5; clock_reads := 0%nat; draws := 0%nat;
     units := fun k =>
       if Nat.eqb k 1 then
         {| position := (0, 0); change_x := 0; change_y := 0;
            virtual_angle := 270; current_node := (0, 0);
            reserved_node := None; path := [];
            path_wait_counter := 9; awaited_path := Some [(3, 0)];
            max_speed := 1; current_speed := 1; rotation_speed := 45 |}
       else walker (3, 0) [];
     node_unit := fun n =>
       if node_eqb n (0, 0) then Some 1%nat
       else if node_eqb n (3, 0) then Some 2%nat else None;
     pathfinder := [] |}.

End UnitsMore.

(** Unfolds the monadic combinators. *)
Ltac run :=
  cbv beta iota delta
    [Py.bind Py.gets Py.modify Py.ret Py.of_option Py.of_sum Py.raise
     Py.try_except Py.exn_eqb].

(** ** Properties of the scheduler *)

Module SchedulingFacts.
Import Py Scheduling SchedulingNotions.
Local Open Scope Z_scope.
Local Open Scope py_scope.

Lemma list_index_None (x : nat) (l : list nat) :
  list_index x l = None <-> ~ In x l.
Proof.
  induction l as [|y l IH]; simpl.
  - tauto.
  - destruct (Nat.eqb_spec x y) as [->|Hne].
    + split; [discriminate | intros H; exfalso; apply H; now left].
    + destruct (list_index x l) eqn:E.
      * split; [discriminate|]. intros H. exfalso. apply H. right.
        destruct (in_dec Nat.eq_dec x l) as [Hin|Hin]; [exact Hin|].
        apply IH in Hin. discriminate.
      * split; [|reflexivity]. intros _ [H|H]; [congruence|].
        now apply IH in H.
Qed.

Lemma list_index_Some (x : nat) (l : list nat) (i : nat) :
  list_index x l = Some i ->
  nth_error l i = Some x /\ (i < length l)%nat /\
  forall j, (j < i)%nat -> nth_error l j <> Some x.
Proof.
  revert i. induction l as [|y l IH]; simpl; intros i H; [discriminate|].
  destruct (Nat.eqb_spec x y) as [->|Hne].
  - injection H as <-. simpl. repeat split; [lia | intros j Hj; lia].
  - destruct (list_index x l) eqn:E; [|discriminate].
    injection H as <-. destruct (IH n eq_refl) as (H1 & H2 & H3).
    simpl. repeat split; [exact H1 | lia |].
    intros [|j] Hj; simpl; [congruence | apply H3; lia].
Qed.

Lemma list_pop_Some {A} (i : nat) (l : list A) :
  (i < length l)%nat ->
  exists l', list_pop i l = Some l' /\ S (length l') = length l.
Proof.
  revert i. induction l as [|y l IH]; simpl; intros i H; [lia|].
  destruct i as [|i].
  - eexists; split; reflexivity.
  - destruct (IH i) as (l' & E & Hl); [lia|].
    simpl. rewrite E. eexists; split; [reflexivity|]. simpl. lia.
Qed.

Lemma list_pop_None {A} (i : nat) (l : list A) :
  (length l <= i)%nat -> list_pop i l = None.
Proof.
  revert i. induction l as [|y l IH]; simpl; intros i H; [reflexivity|].
  destruct i as [|i]; [lia|]. simpl. rewrite IH by lia. reflexivity.
Qed.

Lemma unschedule_absent_noop (event : EventId) (w : World) :
  list_index event (events w) = None -> unschedule event w = Ok tt w.
Proof.
  intros H. unfold unschedule. run. rewrite H. reflexivity.
Qed.

Lemma unschedule_present (event : EventId) (w : World) (i : nat) :
  parallel w ->
  list_index event (events w) = Some i ->
  exists l' t',
    list_pop i (events w) = Some l' /\
    list_pop i (times w) = Some t' /\
    unschedule event w = Ok tt (set_times (fun _ => t') (set_events (fun _ => l') w)).
Proof.
  intros Hp Hi.
  destruct (list_index_Some _ _ _ Hi) as (_ & Hlt & _).
  destruct (list_pop_Some i (events w) Hlt) as (l' & Hl & _).
  destruct (list_pop_Some i (times w)) as (t' & Ht & _).
  { unfold parallel in Hp. lia. }
  exists l', t'. repeat split; try assumption.
  unfold unschedule. run. rewrite Hi. run. rewrite Hl. run.
  change (times (set_events _ w)) with (times w). rewrite Ht. reflexivity.
Qed.

Lemma list_index_app_l (x : nat) (l m : list nat) (j : nat) :
  list_index x l = Some j -> list_index x (l ++ m) = Some j.
Proof.
  revert j. induction l as [|y l IH]; simpl; intros j H; [discriminate|].
  destruct (Nat.eqb x y); [exact H|].
  destruct (list_index x l); [|discriminate].
  now rewrite (IH n eq_refl).
Qed.

Lemma list_index_app_r (x : nat) (l m : list nat) :
  list_index x l = None ->
  list_index x (l ++ m) =
  match list_index x m with Some j => Some (length l + j)%nat | None => None end.
Proof.
  induction l as [|y l IH]; simpl; intros H.
  - destruct (list_index x m); reflexivity.
  - destruct (Nat.eqb x y); [discriminate|].
    destruct (list_index x l); [discriminate|].
    rewrite IH by reflexivity. destruct (list_index x m); reflexivity.
Qed.

Lemma list_index_count (x : nat) (l : list nat) :
  list_index x l = None <-> count_occ Nat.eq_dec l x = 0%nat.
Proof.
  rewrite list_index_None. apply count_occ_not_In.
Qed.

(** Removing the entry at [p] moves the later entries one place down. *)
Lemma nth_error_pop {A} (p : nat) (l l' : list A) (j : nat) :
  list_pop p l = Some l' ->
  nth_error l' j = nth_error l (if (j <? p)%nat then j else S j).
Proof.
  revert p l' j. induction l as [|y l IH]; simpl; intros p l' j H; [discriminate|].
  destruct p as [|p].
  - injection H as <-. reflexivity.
  - destruct (list_pop p l) as [r|] eqn:E; [|discriminate].
    injection H as <-. destruct j as [|j]; [reflexivity|].
    simpl. rewrite (IH p r j E).
    change (S j <? S p)%nat with (j <? p)%nat.
    destruct (j <? p)%nat; reflexivity.
Qed.

Lemma list_index_pop (x : nat) (p : nat) (l l' : list nat) (j : nat) :
  list_pop p l = Some l' ->
  list_index x l = Some j ->
  p <> j ->
  list_index x l' = Some (if (p <? j)%nat then pred j else j).
Proof.
  revert p l' j. induction l as [|y l IH]; simpl; intros p l' j H Hj Hne;
    [discriminate|].
  destruct p as [|p].
  - injection H as H. subst l'.
    destruct (Nat.eqb x y); [injection Hj as <-; congruence|].
    destruct (list_index x l); [|discriminate]. injection Hj as <-.
    reflexivity.
  - destruct (list_pop p l) as [r|] eqn:E; [|discriminate].
    injection H as <-. simpl.
    destruct (Nat.eqb x y); [injection Hj as <-; reflexivity|].
    destruct (list_index x l) as [n|] eqn:En; [|discriminate].
    injection Hj as <-.
    rewrite (IH p r n E eq_refl) by congruence.
    change (S p <? S n)%nat with (p <? n)%nat.
    destruct (p <? n)%nat eqn:Hlt; [|reflexivity].
    apply Nat.ltb_lt in Hlt. destruct n; [lia|reflexivity].
Qed.

Lemma count_occ_pop (p : nat) (l l' : list nat) (x : nat) :
  list_pop p l = Some l' ->
  nth_error l p = Some x ->
  forall y, count_occ Nat.eq_dec l y =
            ((if Nat.eqb x y then 1 else 0) + count_occ Nat.eq_dec l' y)%nat.
Proof.
  revert p l'. induction l as [|z l IH]; simpl; intros p l' H Hx y;
    [discriminate|].
  destruct p as [|p].
  - injection H as <-. injection Hx as ->.
    destruct (Nat.eq_dec x y) as [->|Hne].
    + rewrite Nat.eqb_refl. reflexivity.
    + apply Nat.eqb_neq in Hne. rewrite Hne. reflexivity.
  - destruct (list_pop p l) as [r|] eqn:E; [|discriminate].
    injection H as <-. simpl. rewrite (IH p r E Hx y).
    destruct (Nat.eq_dec z y); lia.
Qed.

Lemma list_pop_length {A} (p : nat) (l l' : list A) :
  list_pop p l = Some l' -> length l = S (length l').
Proof.
  revert p l'. induction l as [|y l IH]; simpl; intros p l' H; [discriminate|].
  destruct p as [|p].
  - now injection H as <-.
  - destruct (list_pop p l) as [r|] eqn:E; [|discriminate].
    injection H as <-. simpl. now rewrite (IH p r E).
Qed.

Lemma update_body_not_due (time : Z) (i : nat) (x : EventId) (w : World)
    (due : Z) :
  nth_error (times w) i = Some due -> time < due ->
  update_body time i x w = Ok tt w.
Proof.
  intros Hd Hlt. unfold update_body. run. rewrite Hd. run.
  destruct (Z.geb_spec time due); [lia|reflexivity].
Qed.

Lemma update_body_due (time : Z) (i : nat) (x : EventId) (w : World)
    (due : Z) (p : nat) :
  parallel w ->
  nth_error (times w) i = Some due -> due <= time ->
  list_index x (events w) = Some p ->
  exists l' t',
    list_pop p (events w) = Some l' /\
    list_pop p (times w) = Some t' /\
    update_body time i x w = Ok tt (after_fire w x l' t').
Proof.
  intros Hp Hd Hle Hx.
  pose (w1 := {| clock := clock w; clock_reads := clock_reads w;
                 heap := heap w; next_id := next_id w;
                 instance := instance w; owned := owned w;
                 executed := executed w ++ [x] |}).
  destruct (unschedule_present x w1 p Hp Hx) as (l' & t' & Hl & Ht & Hu).
  exists l', t'. repeat split; [exact Hl | exact Ht |].
  unfold update_body. run. rewrite Hd. run.
  destruct (Z.geb_spec time due); [|lia].
  unfold execute. fold w1. rewrite Hu. run.
  unfold after_fire. simpl.
  destruct (truthy (repeat (heap w x))); [|reflexivity].
  run. unfold schedule. run. simpl. rewrite Nat.eqb_refl. reflexivity.
Qed.

Lemma after_fire_events w x l' t' :
  events (after_fire w x l' t') =
  l' ++ (if truthy (repeat (heap w x)) then [x] else []).
Proof.
  unfold after_fire. destruct (truthy _); simpl; [reflexivity|].
  now rewrite app_nil_r.
Qed.

Lemma after_fire_times w x l' t' :
  times (after_fire w x l' t') =
  t' ++ (if truthy (repeat (heap w x))
         then [clock w (clock_reads w)
               + py_or (delay_left (heap w x)) (delay (heap w x))]
         else []).
Proof.
  unfold after_fire. destruct (truthy _); simpl; [reflexivity|].
  now rewrite app_nil_r.
Qed.

Lemma after_fire_executed w x l' t' :
  executed (after_fire w x l' t') = executed w ++ [x].
Proof. unfold after_fire. destruct (truthy _); reflexivity. Qed.

Lemma after_fire_clock w x l' t' :
  clock (after_fire w x l' t') = clock w.
Proof. unfold after_fire. destruct (truthy _); reflexivity. Qed.

Lemma after_fire_reads w x l' t' :
  (clock_reads w <= clock_reads (after_fire w x l' t'))%nat.
Proof. unfold after_fire. destruct (truthy _); simpl; lia. Qed.

Lemma after_fire_heap_other w x l' t' k :
  k <> x -> heap (after_fire w x l' t') k = heap w k.
Proof.
  intros H. unfold after_fire. destruct (truthy _); simpl; [|reflexivity].
  apply Nat.eqb_neq in H. now rewrite H.
Qed.

Lemma after_fire_repeat_self w x l' t' :
  repeat (heap (after_fire w x l' t') x) =
  if truthy (repeat (heap w x)) then decrement (repeat (heap w x))
  else repeat (heap w x).
Proof.
  unfold after_fire. destruct (truthy _); simpl; [|reflexivity].
  now rewrite Nat.eqb_refl.
Qed.

Lemma fired_after_fire e w x l' t' :
  fired e (after_fire w x l' t') =
  (fired e w + if Nat.eqb x e then 1 else 0)%nat.
Proof.
  unfold fired. rewrite after_fire_executed, count_occ_app. simpl.
  destruct (Nat.eq_dec x e) as [->|H].
  - now rewrite Nat.eqb_refl.
  - apply Nat.eqb_neq in H. now rewrite H.
Qed.

Lemma nth_error_index (x : nat) (l : list nat) (i : nat) :
  nth_error l i = Some x ->
  exists p, list_index x l = Some p /\ (p <= i)%nat.
Proof.
  intros H. destruct (list_index x l) as [p|] eqn:E.
  - exists p. split; [reflexivity|].
    destruct (list_index_Some _ _ _ E) as (_ & _ & Hmin).
    destruct (le_lt_dec p i); [assumption|]. exfalso. now apply (Hmin i).
  - apply list_index_None in E. exfalso. apply E.
    eapply nth_error_In; eassumption.
Qed.

Lemma parallel_nth (w : World) (i : nat) (x : EventId) :
  parallel w -> nth_error (events w) i = Some x ->
  exists due, nth_error (times w) i = Some due.
Proof.
  intros Hp H. assert (Hlt : (i < length (events w))%nat).
  { apply nth_error_Some. congruence. }
  destruct (nth_error (times w) i) eqn:E; [eauto|].
  apply nth_error_None in E. unfold parallel in Hp. lia.
Qed.

Lemma accounted_after_fire e K w x p l' t' :
  accounted e K w ->
  list_index x (events w) = Some p ->
  list_pop p (events w) = Some l' ->
  list_pop p (times w) = Some t' ->
  accounted e K (after_fire w x l' t').
Proof.
  intros (Hp & Hc & (r & Hr & Hr0) & HK) Hx Hl Ht.
  destruct (list_index_Some _ _ _ Hx) as (Hnth & _ & _).
  pose proof (count_occ_pop _ _ _ _ Hl Hnth e) as Hcount.
  pose proof (list_pop_length _ _ _ Hl) as Hll.
  pose proof (list_pop_length _ _ _ Ht) as Htl.
  unfold accounted, parallel.
  rewrite after_fire_events, after_fire_times, fired_after_fire.
  unfold pending in *. rewrite after_fire_events.
  rewrite !length_app, count_occ_app.
  destruct (Nat.eqb_spec x e) as [->|Hne].
  - rewrite after_fire_repeat_self, Hr in *. simpl truthy. simpl decrement.
    destruct (Z.eqb_spec r 0) as [->|Hr1]; simpl negb; cbv iota.
    + simpl. repeat split; try lia.
      * unfold parallel in Hp. lia.
      * exists 0. split; [reflexivity|lia].
      * destruct (count_occ Nat.eq_dec (events w) e =? 0)%nat eqn:E0.
        { apply Nat.eqb_eq in E0. lia. }
        replace (count_occ Nat.eq_dec l' e + 0)%nat with 0%nat by lia.
        simpl. lia.
    + simpl. destruct (Nat.eq_dec e e) as [_|]; [|congruence].
      repeat split; try lia.
      * unfold parallel in Hp. lia.
      * exists (r - 1). split; [reflexivity|lia].
      * destruct (count_occ Nat.eq_dec (events w) e =? 0)%nat eqn:E0.
        { apply Nat.eqb_eq in E0. lia. }
        replace (count_occ Nat.eq_dec l' e + 1 =? 0)%nat with false
          by (symmetry; apply Nat.eqb_neq; lia).
        lia.
  - rewrite after_fire_heap_other by congruence. rewrite Hr.
    assert (Hz : count_occ Nat.eq_dec
                   (if truthy (repeat (heap w x)) then [x] else []) e = 0%nat).
    { destruct (truthy _); simpl; [|reflexivity].
      destruct (Nat.eq_dec x e); [congruence|reflexivity]. }
    rewrite Hz. simpl in Hcount. rewrite Nat.add_0_r.
    rewrite Hr in HK. rewrite <- Hcount.
    repeat split; try lia.
    + unfold parallel in Hp. destruct (truthy _); simpl; lia.
    + exists r. split; [reflexivity|lia].
Qed.

Lemma position_after_fire e w x p l' t' j due :
  x <> e ->
  list_index e (events w) = Some j ->
  nth_error (times w) j = Some due ->
  list_index x (events w) = Some p ->
  list_pop p (events w) = Some l' ->
  list_pop p (times w) = Some t' ->
  p <> j /\
  list_index e (events (after_fire w x l' t'))
    = Some (if (p <? j)%nat then pred j else j) /\
  nth_error (times (after_fire w x l' t'))
    (if (p <? j)%nat then pred j else j) = Some due.
Proof.
  intros Hne He Hdue Hx Hl Ht.
  destruct (list_index_Some _ _ _ He) as (Hje & Hjlt & _).
  destruct (list_index_Some _ _ _ Hx) as (Hpx & Hplt & _).
  assert (Hpj : p <> j) by (intros ->; congruence).
  split; [exact Hpj|].
  rewrite after_fire_events, after_fire_times.
  pose proof (list_index_pop e p _ _ j Hl He Hpj) as Hi.
  split; [now apply list_index_app_l|].
  set (j1 := if (p <? j)%nat then pred j else j) in *.
  assert (Hnth : nth_error t' j1 = Some due).
  { rewrite (nth_error_pop p _ _ j1 Ht). rewrite <- Hdue. f_equal.
    subst j1. destruct (p <? j)%nat eqn:E.
    - apply Nat.ltb_lt in E.
      replace (pred j <? p)%nat with false by (symmetry; apply Nat.ltb_ge; lia).
      lia.
    - apply Nat.ltb_ge in E.
      replace (j <? p)%nat with true by (symmetry; apply Nat.ltb_lt; lia).
      reflexivity. }
  rewrite nth_error_app1; [exact Hnth|].
  apply nth_error_Some. congruence.
Qed.

Lemma progress_stop e time i w :
  (length (events w) <= i)%nat -> progress e time i w w.
Proof.
  intros Hlen. right. split; [reflexivity|].
  intros j due Hj Hd. exists j. repeat split; try assumption; try lia.
  intros Hij. destruct (list_index_Some _ _ _ Hj) as (_ & Hlt & _). lia.
Qed.

Lemma fired_mono e time i w w' :
  progress e time i w w' -> (fired e w <= fired e w')%nat.
Proof. intros [H|[H _]]; lia. Qed.

Lemma update_loop_spec e K time :
  forall fuel i w,
    accounted e K w ->
    (length (events w) <= i + fuel)%nat ->
    exists w',
      update_loop fuel time i w = Ok tt w' /\
      accounted e K w' /\
      clock w' = clock w /\
      (clock_reads w <= clock_reads w')%nat /\
      progress e time i w w'.
Proof.
  induction fuel as [|fuel IH]; intros i w Hacc Hlen.
  - exists w. simpl.
    assert (Hn : nth_error (events w) i = None) by (apply nth_error_None; lia).
    rewrite Hn. split; [reflexivity|]. split; [exact Hacc|].
    split; [reflexivity|]. split; [lia|]. apply progress_stop. lia.
  - simpl. destruct (nth_error (events w) i) as [x|] eqn:Hx.
    2:{ exists w. split; [reflexivity|]. split; [exact Hacc|].
        split; [reflexivity|]. split; [lia|].
        apply progress_stop. now apply nth_error_None. }
    pose proof Hacc as (Hp & _).
    destruct (parallel_nth w i x Hp Hx) as (duex & Hduex).
    run. destruct (Z.lt_ge_cases time duex) as [Hlt|Hge].
    + rewrite (update_body_not_due time i x w duex Hduex Hlt).
      destruct (IH (S i) w Hacc) as (w' & Hrun & Hacc' & Hc & Hr & Hpr); [lia|].
      exists w'. split; [exact Hrun|]. split; [exact Hacc'|].
      split; [exact Hc|]. split; [exact Hr|].
      destruct Hpr as [Hpr|[Hf Hpr]]; [now left|]. right. split; [exact Hf|].
      intros j due Hj Hd. destruct (Hpr j due Hj Hd) as (j' & H1 & H2 & H3 & H4).
      exists j'. repeat split; try assumption.
      intros Hij. destruct (Nat.eq_dec i j) as [->|Hne].
      * right. congruence.
      * apply H4. lia.
    + destruct (nth_error_index x _ i Hx) as (p & Hpx & Hpi).
      destruct (update_body_due time i x w duex p Hp Hduex Hge Hpx)
        as (l' & t' & Hl & Ht & Hbody).
      rewrite Hbody.
      pose proof (accounted_after_fire e K w x p l' t' Hacc Hpx Hl Ht) as Hacc1.
      set (w1 := after_fire w x l' t') in *.
      assert (Hlen1 : (length (events w1) <= length (events w))%nat).
      { subst w1. rewrite after_fire_events, length_app.
        rewrite (list_pop_length _ _ _ Hl).
        destruct (truthy _); simpl; lia. }
      destruct (IH (S i) w1 Hacc1) as (w' & Hrun & Hacc' & Hc & Hr & Hpr);
        [lia|].
      exists w'. split; [exact Hrun|]. split; [exact Hacc'|].
      split; [rewrite Hc; apply after_fire_clock|].
      split; [pose proof (after_fire_reads w x l' t'); fold w1 in H; lia|].
      pose proof (fired_after_fire e w x l' t') as Hf1. fold w1 in Hf1.
      pose proof (fired_mono _ _ _ _ _ Hpr) as Hmono.
      destruct (Nat.eqb_spec x e) as [->|Hne].
      * left. lia.
      * destruct Hpr as [Hpr|[Hf Hpr]]; [left; lia|]. right.
        split; [lia|]. intros j due Hj Hd.
        destruct (position_after_fire e w x p l' t' j due Hne Hj Hd Hpx Hl Ht)
          as (Hpj & Hj1 & Hd1).
        fold w1 in Hj1, Hd1.
        destruct (Hpr _ due Hj1 Hd1) as (j' & H1 & H2 & H3 & H4).
        exists j'. split; [exact H1|]. split; [exact H2|].
        destruct (list_index_Some _ _ _ Hj) as (Hje & _ & _).
        assert (Hij : i <> j) by (intros ->; congruence).
        destruct (p <? j)%nat eqn:E.
        -- apply Nat.ltb_lt in E. split; [lia|]. intros Hle.
           destruct (le_lt_dec (S i) (pred j)) as [Hs|Hs].
           ++ destruct (H4 Hs) as [H5|H5]; [left; lia|now right].
           ++ left. lia.
        -- apply Nat.ltb_ge in E. split; [lia|]. intros Hle. lia.
Qed.

Lemma update_spec e K w :
  accounted e K w ->
  exists w',
    update w = Ok tt w' /\
    accounted e K w' /\
    clock w' = clock w /\
    (clock_reads w < clock_reads w')%nat /\
    progress e (clock w (clock_reads w)) 0 w w'.
Proof.
  intros Hacc. unfold update. run. unfold get_time.
  set (w0 := {| clock := clock w; clock_reads := S (clock_reads w);
                heap := heap w; next_id := next_id w; instance := instance w;
                owned := owned w; executed := executed w |}).
  destruct (update_loop_spec e K (clock w (clock_reads w))
              (length (events w0)) 0 w0) as (w' & Hrun & Hacc' & Hc & Hr & Hpr).
  - exact Hacc.
  - lia.
  - exists w'. split; [exact Hrun|]. split; [exact Hacc'|].
    split; [exact Hc|]. split; [simpl in Hr; lia|]. exact Hpr.
Qed.

Lemma parallel_after_fire w x p l' t' :
  parallel w ->
  list_pop p (events w) = Some l' ->
  list_pop p (times w) = Some t' ->
  parallel (after_fire w x l' t') /\
  (length (events (after_fire w x l' t')) <= length (events w))%nat.
Proof.
  intros Hp Hl Ht. unfold parallel in *.
  rewrite after_fire_events, after_fire_times, !length_app.
  rewrite (list_pop_length _ _ _ Hl) in *.
  rewrite (list_pop_length _ _ _ Ht) in Hp.
  destruct (truthy _); simpl; lia.
Qed.

(** In a well-formed registry [update] returns: the fuel it is given is
    enough and no index is out of range. *)
Lemma update_loop_returns time :
  forall fuel i w,
    parallel w ->
    (length (events w) <= i + fuel)%nat ->
    exists w', update_loop fuel time i w = Ok tt w' /\ parallel w'.
Proof.
  induction fuel as [|fuel IH]; intros i w Hp Hlen; simpl.
  - assert (Hn : nth_error (events w) i = None) by (apply nth_error_None; lia).
    rewrite Hn. eauto.
  - destruct (nth_error (events w) i) as [x|] eqn:Hx; [|eauto].
    destruct (parallel_nth w i x Hp Hx) as (due & Hdue).
    run. destruct (Z.lt_ge_cases time due) as [Hlt|Hge].
    + rewrite (update_body_not_due time i x w due Hdue Hlt).
      apply IH; [exact Hp|lia].
    + destruct (nth_error_index x _ i Hx) as (p & Hpx & _).
      destruct (update_body_due time i x w due p Hp Hdue Hge Hpx)
        as (l' & t' & Hl & Ht & Hbody).
      rewrite Hbody.
      destruct (parallel_after_fire w x p l' t' Hp Hl Ht) as (Hp1 & Hlen1).
      apply IH; [exact Hp1|lia].
Qed.

Lemma update_returns (w : World) :
  parallel w -> exists w', update w = Ok tt w' /\ parallel w'.
Proof.
  intros Hp. unfold update, get_time. run.
  apply update_loop_returns; [exact Hp|]. simpl. lia.
Qed.

Lemma updates_S k w w1 :
  update w = Ok tt w1 -> updates (S k) w = updates k w1.
Proof. intros H. simpl. run. now rewrite H. Qed.

Lemma updates_app k1 k2 w w1 :
  updates k1 w = Ok tt w1 -> updates (k1 + k2) w = updates k2 w1.
Proof.
  revert w. induction k1 as [|k1 IH]; intros w H; simpl in *.
  - unfold ret in H. injection H as ->. reflexivity.
  - unfold bind in *. destruct (update w) as [[] w2| |]; try discriminate.
    now apply IH.
Qed.

Lemma updates_spec e K :
  forall k w,
    accounted e K w ->
    exists w',
      updates k w = Ok tt w' /\ accounted e K w' /\ clock w' = clock w /\
      (fired e w <= fired e w')%nat.
Proof.
  induction k as [|k IH]; intros w Hacc.
  - exists w. repeat split; try apply Hacc. lia.
  - destruct (update_spec e K w Hacc) as (w1 & Hu & Hacc1 & Hc1 & _ & Hpr).
    destruct (IH w1 Hacc1) as (w' & Hk & Hacc' & Hc' & Hf).
    exists w'. rewrite (updates_S k w w1 Hu).
    split; [exact Hk|]. split; [exact Hacc'|]. split; [congruence|].
    pose proof (fired_mono _ _ _ _ _ Hpr). lia.
Qed.

Lemma eventually_fires e K :
  forall m w j due n0,
    accounted e K w ->
    list_index e (events w) = Some j ->
    nth_error (times w) j = Some due ->
    (forall n, (n0 <= n)%nat -> due <= clock w n) ->
    (j + (n0 - clock_reads w) < m)%nat ->
    exists k w',
      updates k w = Ok tt w' /\ accounted e K w' /\ clock w' = clock w /\
      (fired e w < fired e w')%nat.
Proof.
  induction m as [|m IH]; intros w j due n0 Hacc Hj Hd Hn0 Hm; [lia|].
  destruct (update_spec e K w Hacc) as (w1 & Hu & Hacc1 & Hc1 & Hr1 & Hpr).
  destruct Hpr as [Hf|[Hf Hpos]].
  - exists 1%nat, w1. rewrite (updates_S 0 w w1 Hu). simpl.
    repeat split; try assumption; apply Hacc1.
  - destruct (Hpos j due Hj Hd) as (j' & Hj' & Hd' & Hle & Hstep).
    destruct (IH w1 j' due n0 Hacc1 Hj' Hd') as (k & w' & Hk & Hacc' & Hc' & Hf').
    + intros n Hn. rewrite Hc1. now apply Hn0.
    + destruct (Hstep ltac:(lia)) as [Hlt|Hlt]; [lia|].
      assert (clock_reads w < n0)%nat; [|lia].
      destruct (le_lt_dec n0 (clock_reads w)) as [Hge|]; [|assumption].
      specialize (Hn0 _ Hge). lia.
    + exists (S k), w'. rewrite (updates_S k w w1 Hu).
      split; [exact Hk|]. split; [exact Hacc'|]. split; [congruence|]. lia.
Qed.

Lemma accounted_present e K w :
  accounted e K w ->
  list_index e (events w) <> None ->
  exists j due, list_index e (events w) = Some j /\
                nth_error (times w) j = Some due /\
                Z.of_nat (fired e w) < K.
Proof.
  intros (Hp & Hc & (r & Hr & Hr0) & HK) Hne.
  destruct (list_index e (events w)) as [j|] eqn:Hj; [|congruence].
  destruct (list_index_Some _ _ _ Hj) as (Hnth & _ & _).
  destruct (parallel_nth w j e Hp Hnth) as (due & Hd).
  exists j, due. repeat split; try assumption.
  unfold pending in HK. rewrite Hr in HK.
  destruct (count_occ Nat.eq_dec (events w) e =? 0)%nat eqn:E; [|lia].
  apply Nat.eqb_eq, list_index_count in E. congruence.
Qed.

Lemma accounted_absent e K w :
  accounted e K w ->
  list_index e (events w) = None -> Z.of_nat (fired e w) = K.
Proof.
  intros (Hp & Hc & (r & Hr & Hr0) & HK) Hj.
  unfold pending in HK. rewrite Hr in HK.
  apply list_index_count in Hj. rewrite Hj in HK. simpl in HK. lia.
Qed.

Lemma accounted_full e K w :
  accounted e K w ->
  Z.of_nat (fired e w) <= K /\
  (Z.of_nat (fired e w) = K -> list_index e (events w) = None).
Proof.
  intros Hacc.
  destruct (list_index e (events w)) eqn:E.
  - destruct (accounted_present e K w Hacc) as (j & due & _ & _ & Hlt);
      [congruence|]. split; [lia|]. intros; lia.
  - pose proof (accounted_absent e K w Hacc E). split; [lia|reflexivity].
Qed.

Lemma eventually_absent e K :
  forall m w,
    diverges (clock w) ->
    accounted e K w ->
    K - Z.of_nat (fired e w) < Z.of_nat m ->
    exists k w',
      updates k w = Ok tt w' /\ accounted e K w' /\
      list_index e (events w') = None.
Proof.
  induction m as [|m IH]; intros w Hdiv Hacc Hm.
  - pose proof (accounted_full e K w Hacc). lia.
  - destruct (list_index e (events w)) as [j|] eqn:Hj.
    2:{ exists 0%nat, w. repeat split; try assumption; apply Hacc. }
    destruct (accounted_present e K w Hacc) as (j0 & due & Hj0 & Hd & _);
      [congruence|].
    destruct (Hdiv due) as (n0 & Hn0).
    destruct (eventually_fires e K (S (j0 + (n0 - clock_reads w))) w j0 due n0
                Hacc Hj0 Hd Hn0) as (k1 & w1 & Hk1 & Hacc1 & Hc1 & Hf1); [lia|].
    destruct (IH w1) as (k2 & w' & Hk2 & Hacc' & Habs).
    + now rewrite Hc1.
    + exact Hacc1.
    + lia.
    + exists (k1 + k2)%nat, w'. split; [|split; assumption].
      now rewrite (updates_app k1 k2 w w1 Hk1).
Qed.

Lemma schedule_result (event : EventId) (w : World) :
  schedule event w =
  Ok tt {| clock := clock w; clock_reads := S (clock_reads w);
           heap := heap w; next_id := next_id w;
           instance :=
             {| update_rate := update_rate (instance w);
                scheduled_events := events w ++ [event];
                execution_times :=
                  times w ++ [clock w (clock_reads w)
                              + py_or (delay_left (heap w event))
                                  (delay (heap w event))] |};
           owned := owned w; executed := executed w |}.
Proof. reflexivity. Qed.

(** C5.  An event created with a finite [repeat = N], [0 <= N], and handed
    to [schedule] in a well-formed registry where it is not yet scheduled:
    however many ticks are run, [update] never raises and the event has been
    executed at most [N + 1] times; and when the clock keeps advancing there
    is a number of ticks after which the event has been executed exactly
    [N + 1] times and is absent from the registry, and this stays so for
    every later tick. *)
Theorem repeats_fire_N_plus_one (w0 : World) (event : EventId) (N : Z)
    (c : CreatorId) (d : Z) (f : Callable) (a : option (list Z))
    (k : option (list (string * Z))) (dl : option Z) :
  parallel w0 ->
  ~ In event (events w0) ->
  heap w0 event = ScheduledEvent_init c d f a k (Fin N) dl ->
  0 <= N ->
  diverges (clock w0) ->
  exists w1,
    schedule event w0 = Ok tt w1 /\
    (forall n, exists w',
        updates n w1 = Ok tt w' /\
        (fired event w' <= fired event w0 + Z.to_nat N + 1)%nat) /\
    (exists n, forall m, exists w',
        updates (n + m) w1 = Ok tt w' /\
        fired event w' = (fired event w0 + Z.to_nat N + 1)%nat /\
        ~ In event (events w')).
Proof.
  intros Hp Hnew Hheap HN Hdiv.
  rewrite schedule_result. eexists. split; [reflexivity|].
  match goal with |- context [updates _ ?w] => set (w1 := w) end.
  set (K := Z.of_nat (fired event w0) + N + 1).
  assert (Hacc : accounted event K w1).
  { unfold accounted, parallel, pending, fired. subst w1. simpl.
    unfold events, times. simpl. rewrite Hheap. simpl.
    replace (N =? -1) with false by (symmetry; apply Z.eqb_neq; lia).
    rewrite !length_app, count_occ_app. simpl.
    apply (count_occ_not_In Nat.eq_dec) in Hnew. unfold events in Hnew.
    rewrite Hnew. destruct (Nat.eq_dec event event); [|congruence].
    simpl. split; [unfold parallel, events, times in Hp; lia|].
    split; [lia|]. split; [exists N; split; [reflexivity|lia]|].
    subst K. unfold fired. lia. }
  split.
  - intros n. destruct (updates_spec event K n w1 Hacc) as (w' & Hk & Hacc' & _).
    exists w'. split; [exact Hk|].
    destruct (accounted_full event K w' Hacc') as (Hle & _). subst K. lia.
  - destruct (eventually_absent event K (S (Z.to_nat (K - Z.of_nat (fired event w1))))
                w1 Hdiv Hacc) as (n & w2 & Hn & Hacc2 & Habs); [lia|].
    exists n. intros m. rewrite (updates_app n m w1 w2 Hn).
    destruct (updates_spec event K m w2 Hacc2) as (w' & Hk & Hacc' & _ & Hmono).
    exists w'. split; [exact Hk|].
    pose proof (accounted_absent event K w2 Hacc2 Habs) as H2.
    destruct (accounted_full event K w' Hacc') as (Hle & Hgone).
    assert (HK : Z.of_nat (fired event w') = K) by lia.
    split; [subst K; lia|]. apply list_index_None. now apply Hgone.
Qed.

Lemma diverges_of_nat : diverges Z.of_nat.
Proof. intros z. exists (Z.to_nat z). intros n Hn. lia. Qed.

(** C5 for [repeat = 2]: three executions in all. *)
Lemma repeats_fire_N_plus_one_witness :
  exists w1,
    schedule 1%nat (idle Z.of_nat (fun _ => plain 2 5)) = Ok tt w1 /\
    (forall n, exists w',
        updates n w1 = Ok tt w' /\ (fired 1%nat w' <= 0 + Z.to_nat 2 + 1)%nat) /\
    (exists n, forall m, exists w',
        updates (n + m) w1 = Ok tt w' /\
        fired 1%nat w' = (0 + Z.to_nat 2 + 1)%nat /\
        ~ In 1%nat (events w')).
Proof.
  apply (repeats_fire_N_plus_one (idle Z.of_nat (fun _ => plain 2 5)) 1%nat 2
           0%nat 5 {| fn_name := "f"; fn_self := None |} None None None).
  - reflexivity.
  - simpl. tauto.
  - reflexivity.
  - lia.
  - exact diverges_of_nat.
Defined.

Lemma filter_pop_combine (x : nat) (i : nat) (l l' : list nat) (t t' : list Z) :
  list_pop i l = Some l' -> list_pop i t = Some t' ->
  nth_error l i = Some x ->
  filter (fun p => negb (Nat.eqb (fst p) x)) (combine l' t') =
  filter (fun p => negb (Nat.eqb (fst p) x)) (combine l t).
Proof.
  revert i l' t t'. induction l as [|y l IH]; intros i l' t t' Hl Ht Hx;
    [discriminate|].
  destruct t as [|z t]; [discriminate|].
  destruct i as [|i]; simpl in *.
  - injection Hl as <-. injection Ht as <-. injection Hx as ->.
    now rewrite Nat.eqb_refl.
  - destruct (list_pop i l) as [r|] eqn:El; [|discriminate].
    destruct (list_pop i t) as [s|] eqn:Et; [|discriminate].
    injection Hl as <-. injection Ht as <-. simpl.
    rewrite (IH i r t s El Et Hx). reflexivity.
Qed.

Lemma unschedule_parallel (event : EventId) (w : World) :
  parallel w ->
  exists w',
    unschedule event w = Ok tt w' /\
    parallel w' /\
    entries_of_others event w' = entries_of_others event w /\
    heap w' = heap w /\ owned w' = owned w /\ executed w' = executed w /\
    (count_occ Nat.eq_dec (events w) event <= 1 ->
     ~ In event (events w'))%nat.
Proof.
  intros Hp. destruct (list_index event (events w)) as [i|] eqn:Hi.
  - destruct (unschedule_present event w i Hp Hi) as (l' & t' & Hl & Ht & Hu).
    destruct (list_index_Some _ _ _ Hi) as (Hnth & _ & _).
    rewrite Hu. eexists. split; [reflexivity|].
    split.
    { pose proof (list_pop_length _ _ _ Hl).
      pose proof (list_pop_length _ _ _ Ht).
      unfold parallel, events, times in *. simpl. lia. }
    split.
    { apply (filter_pop_combine event i _ _ _ _ Hl Ht Hnth). }
    split; [reflexivity|]. split; [reflexivity|]. split; [reflexivity|].
    intros Hc. apply list_index_None.
    apply list_index_count. unfold events at 1. simpl.
    pose proof (count_occ_pop _ _ _ _ Hl Hnth event) as H.
    rewrite Nat.eqb_refl in H. lia.
  - exists w. rewrite (unschedule_absent_noop event w Hi).
    split; [reflexivity|]. split; [exact Hp|]. split; [reflexivity|].
    split; [reflexivity|]. split; [reflexivity|]. split; [reflexivity|].
    intros _. now apply list_index_None.
Qed.

(** C9.  [unschedule] of an event that is not in the registry returns with
    the state unchanged, whatever the state.  In a well-formed registry
    [unschedule] never raises, neither the first nor the second time, and
    leaves the entries of all other events (event and fire time, in order)
    and the events themselves unchanged; when the event had at most one
    entry the second call changes nothing.  Events are compared by
    identity: when the event is in the registry, the entry that is dropped
    is the first one that holds this very event, together with the fire
    time at the same position, and nothing else is dropped. *)
Theorem unschedule_absent_is_noop (event : EventId) (w : World) :
  (~ In event (events w) -> unschedule event w = Ok tt w) /\
  (parallel w ->
   exists w' w'',
     unschedule event w = Ok tt w' /\
     unschedule event w' = Ok tt w'' /\
     entries_of_others event w' = entries_of_others event w /\
     entries_of_others event w'' = entries_of_others event w /\
     heap w'' = heap w /\ owned w'' = owned w /\ executed w'' = executed w /\
     ((count_occ Nat.eq_dec (events w) event <= 1)%nat -> w'' = w')) /\
  (parallel w ->
   forall i,
     list_index event (events w) = Some i ->
     exists w',
       unschedule event w = Ok tt w' /\
       nth_error (events w) i = Some event /\
       (forall j, (j < i)%nat -> nth_error (events w) j <> Some event) /\
       list_pop i (events w) = Some (events w') /\
       list_pop i (times w) = Some (times w') /\
       S (count_occ Nat.eq_dec (events w') event)
         = count_occ Nat.eq_dec (events w) event /\
       S (length (events w')) = length (events w) /\
       clock w' = clock w /\ clock_reads w' = clock_reads w /\
       heap w' = heap w /\ next_id w' = next_id w /\
       owned w' = owned w /\ executed w' = executed w).
Proof.
  split; [|split].
  - intros H. apply unschedule_absent_noop. now apply list_index_None.
  - intros Hp.
    destruct (unschedule_parallel event w Hp)
      as (w' & H1 & Hp' & He1 & Hh1 & Ho1 & Hx1 & Hgone).
    destruct (unschedule_parallel event w' Hp')
      as (w'' & H2 & _ & He2 & Hh2 & Ho2 & Hx2 & _).
    exists w', w''. split; [exact H1|]. split; [exact H2|].
    split; [exact He1|]. split; [congruence|]. split; [congruence|].
    split; [congruence|]. split; [congruence|].
    intros Hc. specialize (Hgone Hc). apply list_index_None in Hgone.
    rewrite (unschedule_absent_noop event w' Hgone) in H2. congruence.
  - intros Hp i Hi.
    destruct (unschedule_present event w i Hp Hi) as (l' & t' & Hl & Ht & Hu).
    destruct (list_index_Some _ _ _ Hi) as (Hnth & _ & Hfirst).
    rewrite Hu. eexists. split; [reflexivity|].
    split; [exact Hnth|]. split; [exact Hfirst|].
    split; [exact Hl|]. split; [exact Ht|]. split.
    { change (events (set_times _ (set_events _ w))) with l'.
      pose proof (count_occ_pop _ _ _ _ Hl Hnth event) as H.
      rewrite Nat.eqb_refl in H. lia. }
    split.
    { change (events (set_times _ (set_events _ w))) with l'.
      pose proof (list_pop_length _ _ _ Hl). lia. }
    repeat split.
Qed.

(** C10.  [schedule] appends the event and the fire time [now + delay]
    when [delay_left] is exactly 0, and [now + delay_left] when
    [delay_left] is any other number, positive or negative. *)
Theorem schedule_falsy_delay_left (event : EventId) (w : World) (d : Z) :
  delay_left (heap w event) = Some d ->
  exists w',
    schedule event w = Ok tt w' /\
    events w' = events w ++ [event] /\
    (d = 0 ->
     times w' = times w ++ [clock w (clock_reads w) + delay (heap w event)]) /\
    (d <> 0 -> times w' = times w ++ [clock w (clock_reads w) + d]).
Proof.
  intros Hd. rewrite schedule_result. eexists. split; [reflexivity|].
  split; [reflexivity|]. unfold times at 1 3. simpl. rewrite Hd. simpl.
  split; intros H.
  - subst d. reflexivity.
  - apply Z.eqb_neq in H. now rewrite H.
Qed.

(** C8 (defect of [unschedule_event]).  When the event is not in the
    owner's list, cancelling through the owner raises ValueError, and the
    global scheduler is not asked to drop the event. *)
Theorem unschedule_event_raises_when_not_owned (self : CreatorId)
    (event : EventId) (w : World) :
  ~ In event (owned w self) ->
  unschedule_event self event w = Raise ValueError w.
Proof.
  intros H. apply list_index_None in H.
  unfold unschedule_event, remove_event_from_scheduled_list, list_remove.
  run. rewrite H. reflexivity.
Qed.

(** C7 (defect of the re-insertion).  A repeating event that carries a
    non-zero [delay_left] (a restored one) is re-inserted by [update] with
    the fire time [now + delay_left], whatever its [delay] is. *)
Theorem reinserted_fire_time_uses_delay_left (w : World) (event : EventId)
    (due d : Z) :
  events w = [event] -> times w = [due] ->
  due <= clock w (clock_reads w) ->
  truthy (repeat (heap w event)) = true ->
  delay_left (heap w event) = Some d -> d <> 0 ->
  exists w',
    update w = Ok tt w' /\
    executed w' = executed w ++ [event] /\
    events w' = [event] /\
    times w' = [clock w (S (clock_reads w)) + d].
Proof.
  intros He Ht Hdue Hr Hd Hd0.
  destruct w as [c r h n [rate l t] o ex]. unfold events, times in *.
  simpl in *. subst l t.
  unfold update, get_time. run. simpl. unfold update_body. run. simpl.
  destruct (Z.geb_spec (c r) due); [|lia].
  unfold execute, unschedule. run. simpl. rewrite Nat.eqb_refl. run. simpl.
  rewrite Hr. run. simpl. unfold schedule, get_time. run. simpl.
  rewrite Nat.eqb_refl. simpl. rewrite Hd. simpl.
  apply Z.eqb_neq in Hd0. rewrite Hd0.
  eexists. split; [reflexivity|]. repeat split.
Qed.

Lemma round_trip_time_left (py_eval : Eval) (self : CreatorId)
    (event : EventId) (w : World) (i : nat) (due : Z) (f : Callable) :
  parallel w ->
  owned w self = [event] ->
  list_index event (events w) = Some i ->
  nth_error (times w) i = Some due ->
  ~ In (next_id w) (events w) ->
  py_eval self (stored_expression (function (heap w event))) = inr f ->
  exists data w',
    save_and_restore py_eval self w = Ok (data, [next_id w]) w' /\
    map sd_delay_left data = [due - clock w (clock_reads w)] /\
    function (heap w' (next_id w)) = f /\
    exists w'',
      time_left_to_event_execution (next_id w) w' =
      Ok (clock w (S (clock_reads w))
          + py_or (Some (due - clock w (clock_reads w)))
              (delay (heap w event))
          - clock w (S (S (clock_reads w)))) w''.
Proof.
  intros Hp Ho Hi Hd Hfresh Hf.
  destruct w as [c r h n [rate l t] o ex]. unfold parallel, events, times in *.
  simpl in *.
  apply list_index_None in Hfresh.
  unfold save_and_restore, scheduled_events_to_shelve_data. run. simpl.
  rewrite Ho. simpl. unfold time_left_to_event_execution, get_time. run.
  unfold events, times. simpl.
  rewrite Hi. run. simpl. rewrite Hd. run. simpl.
  assert (Hexpr :
    function_expression
      {| sd_delay_left := due - c r; sd_delay := delay (h event);
         sd_function_name := fn_name (function (h event));
         sd_self := match fn_self (function (h event)) with
                    | Some _ => Some "self"%string
                    | None => None
                    end;
         sd_args := args (h event); sd_kwargs := kwargs (h event);
         sd_repeat := repeat (h event) |}
    = stored_expression (function (h event))).
  { unfold function_expression, stored_expression. simpl.
    destruct (fn_self (function (h event))); reflexivity. }
  rewrite Hexpr, Hf. run.
  unfold new_event, schedule, get_time. run. unfold events, times. simpl.
  rewrite Nat.eqb_refl. simpl.
  eexists. eexists. split; [reflexivity|]. split; [reflexivity|].
  simpl. rewrite Nat.eqb_refl. split; [reflexivity|].
  rewrite (list_index_app_r n l [n] Hfresh). simpl.
  rewrite Nat.eqb_refl. rewrite Nat.add_0_r. rewrite Hp.
  unfold set_times, set_instance. simpl.
  rewrite nth_error_app2 by lia. rewrite Nat.sub_diag. simpl.
  eexists. reflexivity.
Qed.

Lemma restore_raises (py_eval : Eval) (self : CreatorId)
    (event : EventId) (w : World) (i : nat) (due : Z) (e : exn) :
  owned w self = [event] ->
  list_index event (events w) = Some i ->
  nth_error (times w) i = Some due ->
  py_eval self (stored_expression (function (heap w event))) = inl e ->
  exists w',
    save_and_restore py_eval self w = Raise e w' /\
    events w' = events w /\ times w' = times w /\
    heap w' = heap w /\ next_id w' = next_id w /\ owned w' = owned w.
Proof.
  intros Ho Hi Hd Hf.
  destruct w as [c r h n [rate l t] o ex]. unfold events, times in *.
  simpl in *.
  unfold save_and_restore, scheduled_events_to_shelve_data. run. simpl.
  rewrite Ho. simpl. unfold time_left_to_event_execution, get_time. run.
  unfold events, times. simpl.
  rewrite Hi. run. simpl. rewrite Hd. run. simpl.
  assert (Hexpr :
    function_expression
      {| sd_delay_left := due - c r; sd_delay := delay (h event);
         sd_function_name := fn_name (function (h event));
         sd_self := match fn_self (function (h event)) with
                    | Some _ => Some "self"%string
                    | None => None
                    end;
         sd_args := args (h event); sd_kwargs := kwargs (h event);
         sd_repeat := repeat (h event) |}
    = stored_expression (function (h event))).
  { unfold function_expression, stored_expression. simpl.
    destruct (fn_self (function (h event))); reflexivity. }
  rewrite Hexpr, Hf. run.
  eexists. split; [reflexivity|]. repeat split.
Qed.

(** C1 (defect of [update]).  The claim wants every due event executed and
    removed in the tick in which it is due.  With two distinct events [a]
    and [b] in the registry, both due, and [a] not repeating, one call of
    [update] executes [a] only: removing [a] moves [b] to the position the
    list iterator has just left, so [b] is passed over and stays in the
    registry, still due. *)
Theorem update_skips_second_due_event (w : World) (a b : EventId)
    (ta tb : Z) :
  events w = [a; b] -> times w = [ta; tb] -> a <> b ->
  ta <= clock w (clock_reads w) -> tb <= clock w (clock_reads w) ->
  repeat (heap w a) = Fin 0 ->
  exists w',
    update w = Ok tt w' /\
    executed w' = executed w ++ [a] /\
    events w' = [b] /\ times w' = [tb].
Proof.
  intros He Ht Hab Ha Hb Hr.
  destruct w as [c r h n [rate l t] o ex]. unfold events, times in *.
  simpl in *. subst l t.
  unfold update, get_time. run. simpl. unfold update_body. run. simpl.
  destruct (Z.geb_spec (c r) ta); [|lia].
  unfold execute, unschedule. run. simpl. rewrite Nat.eqb_refl. run. simpl.
  rewrite Hr. simpl. eexists. split; [reflexivity|]. repeat split.
Qed.

(** C1 at a concrete registry: events 1 and 2, both due at 5, time 10. *)
Lemma update_skips_second_due_event_witness :
  exists w',
    update two_due = Ok tt w' /\
    executed w' = executed two_due ++ [1%nat] /\
    events w' = [2%nat] /\ times w' = [5].
Proof.
  apply (update_skips_second_due_event two_due 1%nat 2%nat 5 5);
    try reflexivity; simpl; lia.
Defined.

(** C7 at a concrete event: delay 10, [delay_left] 7, fired at 7; it is
    re-inserted for 14, not for 17. *)
Lemma reinserted_fire_time_uses_delay_left_witness :
  delay (heap restored_repeater 1%nat) = 10 /\
  exists w',
    update restored_repeater = Ok tt w' /\
    executed w' = executed restored_repeater ++ [1%nat] /\
    events w' = [1%nat] /\
    times w' = [clock restored_repeater 1%nat + 7].
Proof.
  split; [reflexivity|].
  apply (reinserted_fire_time_uses_delay_left restored_repeater 1%nat 7 7);
    try reflexivity; simpl; lia.
Defined.

(** C6 (defect of the round trip).  An event saved at the very instant it
    is due has [delay_left = 0] recorded.  When [eval] finds the stored
    function, the restored event is scheduled with its full [delay], so
    its time left is the time of the restore plus [delay], less the time
    of asking, not the recorded 0.  When [eval] raises, the restore raises
    the same exception and the registry is as it was. *)
Theorem restored_due_event_waits_full_delay (py_eval : Eval)
    (self : CreatorId) (event : EventId) (w : World) (i : nat) (due : Z) :
  parallel w ->
  owned w self = [event] ->
  list_index event (events w) = Some i ->
  nth_error (times w) i = Some due ->
  ~ In (next_id w) (events w) ->
  due = clock w (clock_reads w) ->
  (forall f,
      py_eval self (stored_expression (function (heap w event))) = inr f ->
      exists data w',
        save_and_restore py_eval self w = Ok (data, [next_id w]) w' /\
        map sd_delay_left data = [0] /\
        function (heap w' (next_id w)) = f /\
        exists w'',
          time_left_to_event_execution (next_id w) w' =
          Ok (clock w (S (clock_reads w)) + delay (heap w event)
              - clock w (S (S (clock_reads w)))) w'') /\
  (forall e,
      py_eval self (stored_expression (function (heap w event))) = inl e ->
      exists w',
        save_and_restore py_eval self w = Raise e w' /\
        events w' = events w /\ times w' = times w).
Proof.
  intros Hp Ho Hi Hd Hfresh Hdue. split.
  - intros f Hf.
    destruct (round_trip_time_left py_eval self event w i due f
                Hp Ho Hi Hd Hfresh Hf)
      as (data & w' & Hsr & Hdata & Hfun & w'' & Hleft).
    exists data, w'. split; [exact Hsr|]. split; [|split; [exact Hfun|]].
    + rewrite Hdata. f_equal. lia.
    + exists w''. rewrite Hleft. f_equal. f_equal. f_equal.
      replace (due - clock w (clock_reads w)) with 0 by lia. reflexivity.
  - intros e He.
    destruct (restore_raises py_eval self event w i due e Ho Hi Hd He)
      as (w' & Hr & Hev & Ht & _).
    exists w'. split; [exact Hr|]. split; assumption.
Qed.

Lemma round_trip_nonzero (py_eval : Eval) (self : CreatorId)
    (event : EventId) (w : World) (i : nat) (due : Z) (f : Callable) :
  parallel w ->
  owned w self = [event] ->
  list_index event (events w) = Some i ->
  nth_error (times w) i = Some due ->
  ~ In (next_id w) (events w) ->
  py_eval self (stored_expression (function (heap w event))) = inr f ->
  due - clock w (clock_reads w) <> 0 ->
  exists data w',
    save_and_restore py_eval self w = Ok (data, [next_id w]) w' /\
    map sd_delay_left data = [due - clock w (clock_reads w)] /\
    exists w'',
      time_left_to_event_execution (next_id w) w' =
      Ok (clock w (S (clock_reads w)) + (due - clock w (clock_reads w))
          - clock w (S (S (clock_reads w)))) w''.
Proof.
  intros Hp Ho Hi Hd Hfresh Hf Hdue.
  destruct (round_trip_time_left py_eval self event w i due f
              Hp Ho Hi Hd Hfresh Hf)
    as (data & w' & Hsr & Hdata & _ & w'' & Hleft).
  exists data, w'. split; [exact Hsr|]. split; [exact Hdata|].
  exists w''. rewrite Hleft. f_equal. simpl.
  apply Z.eqb_neq in Hdue. now rewrite Hdue.
Qed.

(** C6 at a concrete event: an order to move with delay 10, saved when
    due; 0 is recorded and the restored event has 10 left. *)
Lemma restored_due_event_waits_full_delay_witness :
  exists data w',
    save_and_restore unit_methods 0%nat due_order
      = Ok (data, [100%nat]) w' /\
    map sd_delay_left data = [0] /\
    function (heap w' 100%nat)
      = {| fn_name := "move_to"; fn_self := Some 0%nat |} /\
    exists w'', time_left_to_event_execution 100%nat w' = Ok (10 + 10 - 10) w''.
Proof.
  refine (proj1 (restored_due_event_waits_full_delay unit_methods 0%nat 1%nat
                   due_order 0%nat 10 _ _ _ _ _ _) _ _);
    try reflexivity.
  simpl. intros [H|[]]. discriminate.
Defined.

(** C8 at a concrete owner: the second of two cancellations raises. *)
Lemma unschedule_event_raises_when_not_owned_witness :
  (schedule_event 0%nat 1%nat ;; unschedule_event 0%nat 1%nat)
    (idle (fun _ => 0) (fun _ => plain 0 5)) = Ok tt cancelled_once /\
  unschedule_event 0%nat 1%nat cancelled_once = Raise ValueError cancelled_once.
Proof.
  split; [reflexivity|].
  apply (unschedule_event_raises_when_not_owned 0%nat 1%nat cancelled_once).
  simpl. tauto.
Defined.

(** C10 at a concrete event: delay 10, [delay_left] 0, scheduled at 3. *)
Lemma schedule_falsy_delay_left_witness :
  exists w',
    schedule 1%nat
      (idle (fun _ => 3)
         (fun _ => ScheduledEvent_init 0%nat 10
                     {| fn_name := "f"; fn_self := None |} None None (Fin 0)
                     (Some 0))) = Ok tt w' /\
    events w' = [1%nat] /\
    (0 = 0 -> times w' = [] ++ [3 + 10]) /\
    (0 <> 0 -> times w' = [] ++ [3 + 0]).
Proof.
  apply (schedule_falsy_delay_left 1%nat
           (idle (fun _ => 3)
              (fun _ => ScheduledEvent_init 0%nat 10
                          {| fn_name := "f"; fn_self := None |} None None
                          (Fin 0) (Some 0))) 0).
  reflexivity.
Defined.

(** C9 at a concrete registry of three events: event 4 is absent, event 2
    is the second of the three. *)
Lemma unschedule_absent_is_noop_witness :
  unschedule 4%nat three_events = Ok tt three_events /\
  (exists w' w'',
    unschedule 2%nat three_events = Ok tt w' /\
    unschedule 2%nat w' = Ok tt w'' /\
    entries_of_others 2%nat w' = entries_of_others 2%nat three_events /\
    entries_of_others 2%nat w'' = entries_of_others 2%nat three_events /\
    heap w'' = heap three_events /\ owned w'' = owned three_events /\
    executed w'' = executed three_events /\
    ((count_occ Nat.eq_dec (events three_events) 2 <= 1)%nat -> w'' = w')) /\
  (exists w',
    unschedule 2%nat three_events = Ok tt w' /\
    nth_error (events three_events) 1 = Some 2%nat /\
    (forall j, (j < 1)%nat -> nth_error (events three_events) j <> Some 2%nat) /\
    list_pop 1 (events three_events) = Some (events w') /\
    list_pop 1 (times three_events) = Some (times w') /\
    S (count_occ Nat.eq_dec (events w') 2%nat)
      = count_occ Nat.eq_dec (events three_events) 2%nat /\
    S (length (events w')) = length (events three_events) /\
    clock w' = clock three_events /\
    clock_reads w' = clock_reads three_events /\
    heap w' = heap three_events /\ next_id w' = next_id three_events /\
    owned w' = owned three_events /\ executed w' = executed three_events).
Proof.
  split; [|split].
  - apply (proj1 (unschedule_absent_is_noop 4%nat three_events)).
    simpl. intros [H|[H|[H|[]]]]; discriminate.
  - apply (proj1 (proj2 (unschedule_absent_is_noop 2%nat three_events))).
    reflexivity.
  - apply (proj2 (proj2 (unschedule_absent_is_noop 2%nat three_events))).
    + reflexivity.
    + reflexivity.
Defined.

End SchedulingFacts.

(** ** Properties of unit movement *)

Module UnitsFacts.
Import Py Units UnitsNotions.
Local Open Scope Z_scope.
Local Open Scope py_scope.

Lemma node_eqb_refl (n : MapNode) : node_eqb n n = true.
Proof. unfold node_eqb. now rewrite !Z.eqb_refl. Qed.

Lemma node_eqb_eq (a b : MapNode) : node_eqb a b = true <-> a = b.
Proof.
  unfold node_eqb. destruct a as [a1 a2], b as [b1 b2]. simpl.
  rewrite andb_true_iff, !Z.eqb_eq. split; [intros [-> ->]; reflexivity|].
  intros H; injection H; auto.
Qed.

Lemma list_last_cons {A} (x : A) (l : list A) :
  exists y, list_last (x :: l) = Some y.
Proof.
  unfold list_last. simpl. destruct (rev l ++ [x]) eqn:E.
  - now destruct (rev l).
  - eauto.
Qed.

Lemma random_choice_total (env : Collaborators) (x : MapNode)
    (l : list MapNode) (w : World) :
  exists n, random_choice env (x :: l) w =
            Ok n (mkWorld (clock w) (clock_reads w) (S (draws w)) (units w)
                    (node_unit w) (pathfinder w)).
Proof.
  unfold random_choice.
  destruct (nth_error (x :: l)
              (random_draw env (draws w) mod length (x :: l))%nat) eqn:E.
  - eauto.
  - apply nth_error_None in E.
    pose proof (Nat.mod_upper_bound (random_draw env (draws w))
                  (length (x :: l))) as H.
    simpl in *. lia.
Qed.

Section CollisionScan.
Variable env : Collaborators.
Variable self : nat.

Lemma units_set_unit f w : units (set_unit self f w) self = f (units w self).
Proof. simpl. now rewrite Nat.eqb_refl. Qed.

Lemma wait_for_free_path_spec p w :
  exists w', wait_for_free_path self p w = Ok tt w' /\
             keeps_reservation self w w' /\ path (units w' self) = [] /\
             node_unit w' = node_unit w.
Proof.
  unfold wait_for_free_path, stop, get_time. run. eexists.
  split; [reflexivity|]. unfold keeps_reservation. simpl.
  rewrite !Nat.eqb_refl. simpl. repeat split.
Qed.

Lemma move_to_spec who dest w :
  move_to env who dest w =
  Ok tt (mkWorld (clock w) (clock_reads w) (draws w) (units w) (node_unit w)
           (pathfinder w ++
            [cancel_unit_path_requests who;
             request_path who (position_to_map_grid env (position (units w who)))
               dest])).
Proof.
  unfold move_to, cancel_path_requests, self_, call_pathfinder. run. simpl.
  now rewrite <- app_assoc.
Qed.

Lemma find_free_tile_spec blocker p w :
  exists b w', find_free_tile_to_unblock_way env blocker p w = Ok b w' /\
               units w' = units w /\ node_unit w' = node_unit w.
Proof.
  unfold find_free_tile_to_unblock_way, self_. run.
  destruct (walkable_adjacent env (node_unit w) (current_node (units w blocker)))
    as [|x l].
  - eexists _, _. split; [reflexivity|]. split; reflexivity.
  - destruct (random_choice_total env x l w) as (n & Hn). rewrite Hn.
    rewrite move_to_spec. eexists _, _. split; [reflexivity|].
    split; reflexivity.
Qed.

Lemma ask_for_pass_spec blocker w :
  path (units w self) <> [] ->
  exists w', ask_for_pass env self blocker w = Ok tt w' /\
             keeps_reservation self w w' /\ node_unit w' = node_unit w /\
             (path (units w' self) = [] \/
              path (units w' self) = path (units w self)).
Proof.
  intros Hpath. unfold ask_for_pass, self_. run.
  destruct (find_free_tile_spec blocker (path (units w self)) w)
    as (b & w1 & H1 & Hu & Hn).
  rewrite H1. destruct b.
  - destruct (wait_for_free_path_spec (path (units w1 self)) w1)
      as (w' & H2 & Hk & Hp & Hn').
    exists w'. split; [exact H2|]. unfold keeps_reservation in *.
    rewrite Hk, Hu. split; [reflexivity|]. split; [congruence|]. now left.
  - rewrite Hu. destruct (path (units w self)) as [|x l] eqn:Ep; [congruence|].
    destruct (list_last_cons x l) as (y & Hy). rewrite Hy.
    rewrite move_to_spec. eexists. split; [reflexivity|].
    unfold keeps_reservation. simpl. rewrite Hu.
    split; [reflexivity|]. split; [exact Hn|]. right. now rewrite Ep.
Qed.

Lemma find_alternative_path_spec w :
  exists r w', find_alternative_path env self w = Ok r w' /\
               keeps_reservation self w w' /\ node_unit w' = node_unit w /\
               length (path (units w' self)) = length (path (units w self)) /\
               (r = None -> units w' = units w).
Proof.
  unfold find_alternative_path, self_. run.
  destruct (path (units w self)) as [|front [|second rest]] eqn:Ep.
  - eexists _, _. split; [reflexivity|]. unfold keeps_reservation.
    rewrite Ep. repeat split.
  - eexists _, _. split; [reflexivity|]. unfold keeps_reservation.
    rewrite Ep. repeat split.
  - destruct (filter _ _) as [|node l].
    + eexists _, _. split; [reflexivity|]. unfold keeps_reservation.
      rewrite Ep. repeat split.
    + eexists _, _. split; [reflexivity|]. unfold keeps_reservation.
      simpl. rewrite Nat.eqb_refl. simpl. try rewrite Ep.
      repeat split. discriminate.
Qed.

Lemma scan_spec w :
  exists w', scan_next_nodes_for_collisions env self w = Ok tt w' /\
             keeps_reservation self w w' /\ node_unit w' = node_unit w.
Proof.
  unfold scan_next_nodes_for_collisions, self_. run.
  destruct (path (units w self)) as [|front rest] eqn:Ep.
  { exists w. repeat split. }
  destruct (node_unit w (position_to_node env front)) as [blocker|].
  2:{ exists w. repeat split. }
  destruct (Nat.eqb blocker self).
  { exists w. repeat split. }
  unfold find_best_way_to_avoid_collision, self_. run.
  destruct (has_destination env blocker w || is_enemy env self blocker).
  - destruct (wait_for_free_path_spec (path (units w self)) w)
      as (w' & H & Hk & _ & Hn).
    exists w'. split; [exact H|]. split; assumption.
  - destruct (find_alternative_path_spec w) as (r & w1 & H1 & Hk1 & Hn1 & _ & Hr).
    rewrite H1. destruct r as [p|].
    + exists w1. repeat split; assumption.
    + destruct (ask_for_pass_spec blocker w1) as (w' & H2 & Hk2 & Hn2 & _).
      { rewrite (Hr eq_refl), Ep. discriminate. }
      exists w'. split; [exact H2|]. unfold keeps_reservation in *.
      split; congruence.
Qed.

End CollisionScan.

Section Reservation.
Variable env : Collaborators.
Variable self : nat.

Lemma update_current_blocked_node_spec n w :
  exists w', update_current_blocked_node self n w = Ok tt w' /\
             keeps_reservation self w w' /\
             path (units w' self) = path (units w self).
Proof.
  unfold update_current_blocked_node, swap_blocked_nodes, unblock_map_node,
    block_map_node, self_. run. eexists. split; [reflexivity|].
  unfold keeps_reservation. simpl. rewrite Nat.eqb_refl. split; reflexivity.
Qed.

Lemma update_reserved_node_spec front rest w :
  path (units w self) = front :: rest ->
  exists w', update_reserved_node env self w = Ok tt w' /\
             reserved_node (units w' self) = Some (position_to_node env front) /\
             node_unit w' (position_to_node env front) = Some self /\
             path (units w' self) = path (units w self).
Proof.
  intros Hp.
  unfold update_reserved_node, swap_blocked_nodes, unblock_map_node,
    block_map_node, self_. run. rewrite Hp. simpl.
  destruct (reserved_node (units w self)); run; eexists;
    (split; [reflexivity|]); simpl; rewrite Nat.eqb_refl, node_eqb_refl;
    simpl; rewrite Hp; repeat split.
Qed.

Lemma update_blocked_map_nodes_spec n w :
  exists w',
    update_blocked_map_nodes env self n w = Ok tt w' /\
    ((1 < length (path (units w' self)))%nat ->
     exists front,
       nth_error (path (units w' self)) 0 = Some front /\
       reserved_node (units w' self) = Some (position_to_node env front) /\
       node_unit w' (position_to_node env front) = Some self) /\
    ((length (path (units w' self)) <= 1)%nat ->
     reserved_node (units w' self) = reserved_node (units w self)).
Proof.
  unfold update_blocked_map_nodes.
  destruct (scan_spec env self w) as (w1 & H1 & Hk1 & _).
  destruct (update_current_blocked_node_spec n w1) as (w2 & H2 & Hk2 & Hp2).
  unfold bind at 1. rewrite H1. unfold bind at 1. rewrite H2.
  unfold self_. run.
  destruct (1 <? length (path (units w2 self)))%nat eqn:E.
  - apply Nat.ltb_lt in E.
    destruct (path (units w2 self)) as [|front rest] eqn:Ep; [simpl in E; lia|].
    destruct (update_reserved_node_spec front rest w2 Ep)
      as (w3 & H3 & Hr & Hn & Hp3).
    exists w3. split; [exact H3|]. rewrite Hp3, Ep. split.
    + intros _. exists front. repeat split; assumption.
    + intros Hl. simpl in *. lia.
  - apply Nat.ltb_ge in E. exists w2. split; [reflexivity|]. split.
    + intros Hl. lia.
    + intros _. unfold keeps_reservation in *. congruence.
Qed.

Lemma restart_path_keeps p w w' :
  restart_path env self p w = Ok tt w' -> keeps_reservation self w w'.
Proof.
  unfold restart_path, keeps_reservation. run.
  destruct (20 <? length p)%nat.
  - intros H. injection H as <-. simpl. now rewrite !Nat.eqb_refl.
  - destruct (list_last p); [|discriminate]. rewrite move_to_spec.
    cbv beta iota. intros [= <-]. simpl.
    now rewrite !Nat.eqb_refl.
Qed.

Lemma update_pathfinding_keeps w w' :
  update_pathfinding env self w = Ok tt w' -> keeps_reservation self w w'.
Proof.
  unfold update_pathfinding, self_, keeps_reservation. run.
  destruct (awaited_path (units w self)) as [awaited|].
  - unfold countdown_waiting, get_time, self_. run. simpl.
    destruct (_ >=? _); [|intros H; injection H as <-; reflexivity].
    destruct awaited as [|front rest]; [discriminate|].
    destruct (_ || _).
    + intros H. apply restart_path_keeps in H. exact H.
    + intros H. injection H as <-. simpl. now rewrite Nat.eqb_refl.
  - destruct (path (units w self)) as [|front rest] eqn:Ep.
    + unfold stop. run. intros H. injection H as <-. simpl.
      now rewrite Nat.eqb_refl.
    + unfold follow_path, self_. run. rewrite Ep. simpl.
      destruct (negb _).
      * unfold stop, rotate_towards_target, calculate_unit_virtual_angle,
          self_. run. intros H. injection H as <-. simpl.
        now rewrite !Nat.eqb_refl.
      * destruct (_ <=? _).
        -- unfold move_to_next_waypoint, self_. run. rewrite Ep.
           intros H. injection H as <-. simpl. now rewrite Nat.eqb_refl.
        -- unfold move_to_current_waypoint, self_. run.
           intros H. injection H as <-. simpl. now rewrite !Nat.eqb_refl.
Qed.

(** C2, as the code has it.  [update_blocked_map_nodes] always returns;
    when the waypoint queue is then longer than one waypoint the
    reservation is the node of the front waypoint, and that node is marked
    as held by the unit; when the queue has one waypoint or none the
    reservation is left as it was.  [update_pathfinding], which ends the
    tick, does not touch the reservation.  So a reservation is never
    cleared. *)
Theorem reserved_node_set_never_cleared (n : MapNode) (w : World) :
  exists w1,
    update_blocked_map_nodes env self n w = Ok tt w1 /\
    ((1 < length (path (units w1 self)))%nat ->
     exists front,
       nth_error (path (units w1 self)) 0 = Some front /\
       reserved_node (units w1 self) = Some (position_to_node env front) /\
       node_unit w1 (position_to_node env front) = Some self) /\
    ((length (path (units w1 self)) <= 1)%nat ->
     reserved_node (units w1 self) = reserved_node (units w self)) /\
    (forall w2,
        update_pathfinding env self w1 = Ok tt w2 ->
        reserved_node (units w2 self) = reserved_node (units w1 self)).
Proof.
  destruct (update_blocked_map_nodes_spec n w) as (w1 & Hrun & Hlong & Hshort).
  exists w1. split; [exact Hrun|]. split; [exact Hlong|].
  split; [exact Hshort|]. intros w2. apply update_pathfinding_keeps.
Qed.

End Reservation.

Section Waiting.
Variable env : Collaborators.
Variable self : nat.

(** C3, as the code has it.  A unit with a shelved path whose deadline has
    passed: when the node of the front waypoint is walkable or the shelved
    path has fewer than 20 waypoints, waiting ends; the shelved path
    becomes the waypoint queue, with no call of the pathfinder, only when
    it has more than 20 waypoints, and otherwise the queue is left as it is
    and a new path to the last shelved waypoint is requested.  In the
    remaining case the deadline moves on by exactly 1.  In each case
    nothing else changes: the unit's other fields, the other units and the
    occupancy of the nodes are as before, and the clock was read once. *)
Theorem waiting_deadline_elapsed (w : World) (awaited : list Position)
    (front : Position) :
  awaited_path (units w self) = Some awaited ->
  nth_error awaited 0 = Some front ->
  path_wait_counter (units w self) <= clock w (clock_reads w) ->
  exists w',
    update_pathfinding env self w = Ok tt w' /\
    (forall k, k <> self -> units w' k = units w k) /\
    node_unit w' = node_unit w /\
    draws w' = draws w /\ clock w' = clock w /\
    clock_reads w' = S (clock_reads w) /\
    let resumes :=
      walkable env (node_unit w) (position_to_node env front)
      || (length awaited <? 20)%nat in
    (resumes = true -> (20 < length awaited)%nat ->
     path (units w' self) = awaited /\
     awaited_path (units w' self) = None /\
     pathfinder w' = pathfinder w /\
     units w' self = with_awaited_path None (with_path awaited (units w self))) /\
    (resumes = true -> (length awaited <= 20)%nat ->
     exists last,
       list_last awaited = Some last /\
       path (units w' self) = path (units w self) /\
       awaited_path (units w' self) = None /\
       pathfinder w' =
       pathfinder w ++
       [cancel_unit_path_requests self;
        request_path self
          (position_to_map_grid env (position (units w self)))
          (position_to_map_grid env last)] /\
       units w' self = with_awaited_path None (units w self)) /\
    (resumes = false ->
     path_wait_counter (units w' self) = path_wait_counter (units w self) + 1 /\
     awaited_path (units w' self) = Some awaited /\
     path (units w' self) = path (units w self) /\
     pathfinder w' = pathfinder w /\
     units w' self =
       with_path_wait_counter (path_wait_counter (units w self) + 1)
         (units w self)).
Proof.
  intros Ha Hf Hdue.
  unfold update_pathfinding, self_. run. rewrite Ha.
  unfold countdown_waiting, get_time, self_. run. simpl.
  destruct (Z.geb_spec (clock w (clock_reads w)) (path_wait_counter (units w self)));
    [|lia].
  destruct awaited as [|a rest]; [discriminate|]. simpl in Hf.
  injection Hf as ->. run. cbn [node_unit].
  destruct (walkable env (node_unit w) (position_to_node env front)
            || (length (front :: rest) <? 20)%nat) eqn:E.
  - unfold restart_path. run.
    destruct (20 <? length (front :: rest))%nat eqn:E20.
    + apply Nat.ltb_lt in E20. eexists. split; [reflexivity|].
      split; [intros k Hk; simpl; apply Nat.eqb_neq in Hk; now rewrite Hk|].
      simpl. rewrite !Nat.eqb_refl. simpl.
      do 4 (split; [reflexivity|]). split; [|split].
      * intros _ _. repeat split.
      * intros _ Hle. simpl in *. lia.
      * discriminate.
    + apply Nat.ltb_ge in E20.
      destruct (list_last_cons front rest) as (last & Hl). rewrite Hl.
      rewrite move_to_spec. cbv beta iota. eexists. split; [reflexivity|].
      split; [intros k Hk; simpl; apply Nat.eqb_neq in Hk; now rewrite Hk|].
      simpl. rewrite !Nat.eqb_refl. simpl.
      do 4 (split; [reflexivity|]). split; [|split].
      * intros _ Hlt. simpl in *. lia.
      * intros _ _. exists last. repeat split.
      * discriminate.
  - eexists. split; [reflexivity|].
    split; [intros k Hk; simpl; apply Nat.eqb_neq in Hk; now rewrite Hk|].
    simpl. rewrite !Nat.eqb_refl. simpl.
    do 4 (split; [reflexivity|]).
    split; [discriminate|]. split; [discriminate|]. intros _.
    rewrite Ha. repeat split.
Qed.

End Waiting.

(** C4, as the code has it.  [block_map_node] always returns and records
    the unit as holder of the node, whoever held it before, leaving the
    other nodes as they were; [swap_blocked_nodes] clears [unblocked],
    whoever holds it, then does the same for [blocked], and leaves all
    other nodes as they were.  Neither touches a unit, the pathfinder or
    the clock. *)
Theorem block_map_node_overwrites (self : nat) (w : World) :
  (forall node,
      exists w',
        block_map_node self node w = Ok tt w' /\
        node_unit w' node = Some self /\
        (forall n, node_eqb n node = false -> node_unit w' n = node_unit w n) /\
        units w' = units w /\ pathfinder w' = pathfinder w /\
        draws w' = draws w /\ clock w' = clock w /\
        clock_reads w' = clock_reads w) /\
  (forall unblocked blocked,
      exists w',
        swap_blocked_nodes self unblocked blocked w = Ok tt w' /\
        node_unit w' blocked = Some self /\
        (forall n, unblocked = Some n -> node_eqb n blocked = false ->
                   node_unit w' n = None) /\
        (forall n, node_eqb n blocked = false -> unblocked <> Some n ->
                   node_unit w' n = node_unit w n) /\
        units w' = units w /\ pathfinder w' = pathfinder w /\
        draws w' = draws w /\ clock w' = clock w /\
        clock_reads w' = clock_reads w).
Proof.
  split.
  - intros node. unfold block_map_node. run. eexists.
    split; [reflexivity|]. simpl. rewrite node_eqb_refl.
    split; [reflexivity|]. split; [|repeat split].
    intros n Hn. now rewrite Hn.
  - intros unblocked blocked.
    unfold swap_blocked_nodes, unblock_map_node, block_map_node. run.
    destruct unblocked as [u|]; eexists; (split; [reflexivity|]); simpl;
      rewrite node_eqb_refl; (split; [reflexivity|]).
    + split; [|split; [|repeat split]].
      * intros n [= ->] Hn. now rewrite Hn, node_eqb_refl.
      * intros n Hn Hu. rewrite Hn.
        destruct (node_eqb n u) eqn:E; [|reflexivity].
        apply node_eqb_eq in E. congruence.
    + split; [discriminate|]. split; [|repeat split].
      intros n Hn _. now rewrite Hn.
Qed.

(** C4 fails as stated.  Unit 2 blocks the node that unit 1 holds: the call
    returns normally and the node now names unit 2.  The same happens
    within a tick: unit 1, blocked by the boxed-in unit 2, asks for a new
    path and still reserves the node unit 2 stands on; the tick returns
    normally and the node names unit 1. *)
Lemma occupied_node_is_overwritten :
  (node_unit contested (2, 0) = Some 1%nat /\
   occupant (2, 0) (block_map_node 2%nat (2, 0) contested)
     = Some (Some 2%nat)) /\
  (node_unit boxed_in (1, 0) = Some 2%nat /\
   current_node (units boxed_in 2%nat) = (1, 0) /\
   occupant (1, 0) (on_update grid_map 1%nat boxed_in) = Some (Some 1%nat)).
Proof.
  repeat split; vm_compute; reflexivity.
Qed.

(** C3 fails as stated: the shelved path has one waypoint (fewer than 20),
    yet it is not restored, and a new path is requested. *)
Lemma short_shelved_path_is_requested_again :
  walkable grid_map (node_unit blocked_waiter) (3, 0) = false /\
  exists w',
    update_pathfinding grid_map 1%nat blocked_waiter = Ok tt w' /\
    path (units w' 1%nat) = [] /\
    awaited_path (units w' 1%nat) = None /\
    pathfinder w' =
      [cancel_unit_path_requests 1%nat; request_path 1%nat (0, 0) (3, 0)].
Proof.
  split; [reflexivity|]. eexists. split; [reflexivity|]. repeat split.
Qed.

(** C3 at a concrete unit with one shelved waypoint. *)
Lemma waiting_deadline_elapsed_witness :
  exists w',
    update_pathfinding grid_map 1%nat blocked_waiter = Ok tt w' /\
    (forall k, k <> 1%nat -> units w' k = units blocked_waiter k) /\
    node_unit w' = node_unit blocked_waiter /\
    draws w' = draws blocked_waiter /\ clock w' = clock blocked_waiter /\
    clock_reads w' = S (clock_reads blocked_waiter) /\
    let resumes :=
      walkable grid_map (node_unit blocked_waiter)
        (position_to_node grid_map (3, 0))
      || (length [(3, 0)] <? 20)%nat in
    (resumes = true -> (20 < length [(3, 0)])%nat ->
     path (units w' 1%nat) = [(3, 0)] /\
     awaited_path (units w' 1%nat) = None /\
     pathfinder w' = pathfinder blocked_waiter /\
     units w' 1%nat =
       with_awaited_path None
         (with_path [(3, 0)] (units blocked_waiter 1%nat))) /\
    (resumes = true -> (length [(3, 0)] <= 20)%nat ->
     exists last,
       list_last [(3, 0)] = Some last /\
       path (units w' 1%nat) = path (units blocked_waiter 1%nat) /\
       awaited_path (units w' 1%nat) = None /\
       pathfinder w' =
       pathfinder blocked_waiter ++
       [cancel_unit_path_requests 1%nat;
        request_path 1%nat
          (position_to_map_grid grid_map (position (units blocked_waiter 1%nat)))
          (position_to_map_grid grid_map last)] /\
       units w' 1%nat = with_awaited_path None (units blocked_waiter 1%nat)) /\
    (resumes = false ->
     path_wait_counter (units w' 1%nat)
       = path_wait_counter (units blocked_waiter 1%nat) + 1 /\
     awaited_path (units w' 1%nat) = Some [(3, 0)] /\
     path (units w' 1%nat) = path (units blocked_waiter 1%nat) /\
     pathfinder w' = pathfinder blocked_waiter /\
     units w' 1%nat =
       with_path_wait_counter
         (path_wait_counter (units blocked_waiter 1%nat) + 1)
         (units blocked_waiter 1%nat)).
Proof.
  apply (waiting_deadline_elapsed grid_map 1%nat blocked_waiter [(3, 0)] (3, 0)).
  - reflexivity.
  - reflexivity.
  - simpl. lia.
Defined.

(** C2 fails as stated: at the end of its first tick unit 1 has one
    waypoint left, (2, 0), and holds a reservation, of the node (1, 0); at
    the end of the fourth tick its queue is empty and the reservation is
    still there. *)
Lemma reservation_outlives_the_queue :
  queue_and_reservation 1%nat (on_update grid_map 1%nat lone_walker)
    = Some ([(2, 0)], Some (1, 0)) /\
  queue_and_reservation 1%nat (ticks grid_map 1%nat 4 lone_walker)
    = Some ([], Some (1, 0)).
Proof.
  split; vm_compute; reflexivity.
Qed.

End UnitsFacts.

(** ** More properties of the scheduler *)

Module SchedulingMoreFacts.
Import Py Scheduling SchedulingNotions SchedulingMore SchedulingFacts.
Local Open Scope Z_scope.
Local Open Scope py_scope.

(** A property of worlds that implies a well-formed registry and survives
    the firing of any due entry survives the loop of [update]. *)
Lemma update_loop_invariant (J : World -> Prop) (time : Z) :
  (forall w, J w -> parallel w) ->
  (forall w x p l' t' i due,
      J w ->
      nth_error (events w) i = Some x ->
      nth_error (times w) i = Some due -> due <= time ->
      list_index x (events w) = Some p ->
      list_pop p (events w) = Some l' ->
      list_pop p (times w) = Some t' ->
      J (after_fire w x l' t')) ->
  forall fuel i w,
    J w ->
    (length (events w) <= i + fuel)%nat ->
    exists w', update_loop fuel time i w = Ok tt w' /\ J w'.
Proof.
  intros Hpar Hfire.
  induction fuel as [|fuel IH]; intros i w HJ Hlen; simpl.
  - assert (Hn : nth_error (events w) i = None) by (apply nth_error_None; lia).
    rewrite Hn. eauto.
  - destruct (nth_error (events w) i) as [x|] eqn:Hx; [|eauto].
    pose proof (Hpar w HJ) as Hp.
    destruct (parallel_nth w i x Hp Hx) as (due & Hdue).
    run. destruct (Z.lt_ge_cases time due) as [Hlt|Hge].
    + rewrite (update_body_not_due time i x w due Hdue Hlt).
      apply IH; [exact HJ|lia].
    + destruct (nth_error_index x _ i Hx) as (p & Hpx & _).
      destruct (update_body_due time i x w due p Hp Hdue Hge Hpx)
        as (l' & t' & Hl & Ht & Hbody).
      rewrite Hbody.
      destruct (parallel_after_fire w x p l' t' Hp Hl Ht) as (_ & Hlen1).
      apply IH; [|lia]. eapply Hfire; eassumption.
Qed.

Lemma update_invariant (J : World -> Prop) :
  (forall w, J w -> parallel w) ->
  (forall w, J w -> J (after_clock_read w)) ->
  (forall w x p l' t' i due,
      J w ->
      nth_error (events w) i = Some x ->
      nth_error (times w) i = Some due ->
      list_index x (events w) = Some p ->
      list_pop p (events w) = Some l' ->
      list_pop p (times w) = Some t' ->
      J (after_fire w x l' t')) ->
  forall w, J w -> exists w', update w = Ok tt w' /\ J w'.
Proof.
  intros Hpar Hread Hfire w HJ. unfold update, get_time. run.
  apply (update_loop_invariant J (clock w (clock_reads w)) Hpar).
  - intros. eapply Hfire; eassumption.
  - apply (Hread w HJ).
  - simpl. lia.
Qed.

Lemma schedule_parallel (event : EventId) (w : World) :
  parallel w -> exists w', schedule event w = Ok tt w' /\ parallel w'.
Proof.
  intros Hp. rewrite schedule_result. eexists. split; [reflexivity|].
  unfold parallel, events, times in *. simpl. rewrite !length_app. simpl. lia.
Qed.

(** X1.  The two lists of the scheduler stay equally long: from a registry
    whose lists are, [schedule], [unschedule] and [update] all return
    normally and leave it so. *)
Theorem registry_stays_parallel (w : World) :
  parallel w ->
  (forall event, exists w', schedule event w = Ok tt w' /\ parallel w') /\
  (forall event, exists w', unschedule event w = Ok tt w' /\ parallel w') /\
  (exists w', update w = Ok tt w' /\ parallel w').
Proof.
  intros Hp. split; [|split].
  - intros event. now apply schedule_parallel.
  - intros event.
    destruct (unschedule_parallel event w Hp) as (w' & H & Hp' & _).
    eauto.
  - now apply update_returns.
Qed.

Lemma registry_stays_parallel_witness :
  (forall event, exists w',
      schedule event three_events = Ok tt w' /\ parallel w') /\
  (forall event, exists w',
      unschedule event three_events = Ok tt w' /\ parallel w') /\
  (exists w', update three_events = Ok tt w' /\ parallel w').
Proof.
  apply (registry_stays_parallel three_events). reflexivity.
Defined.

Lemma update_loop_nothing_due (time : Z) :
  forall fuel i w,
    parallel w ->
    Forall (fun due => time < due) (times w) ->
    (length (events w) <= i + fuel)%nat ->
    update_loop fuel time i w = Ok tt w.
Proof.
  induction fuel as [|fuel IH]; intros i w Hp Hall Hlen; simpl.
  - assert (Hn : nth_error (events w) i = None) by (apply nth_error_None; lia).
    now rewrite Hn.
  - destruct (nth_error (events w) i) as [x|] eqn:Hx; [|reflexivity].
    destruct (parallel_nth w i x Hp Hx) as (due & Hdue).
    assert (Hlt : time < due).
    { rewrite Forall_forall in Hall. apply Hall.
      eapply nth_error_In; eassumption. }
    run. rewrite (update_body_not_due time i x w due Hdue Hlt).
    apply IH; [exact Hp|exact Hall|lia].
Qed.

(** X2.  When no fire time has been reached, [update] returns, having read
    the clock once and changed nothing else. *)
Theorem update_without_due_events (w : World) :
  parallel w ->
  Forall (fun due => clock w (clock_reads w) < due) (times w) ->
  update w = Ok tt (after_clock_read w).
Proof.
  intros Hp Hall. unfold update, get_time. run.
  apply update_loop_nothing_due; [exact Hp|exact Hall|apply le_n].
Qed.

Lemma update_without_due_events_witness :
  update three_events = Ok tt (after_clock_read three_events).
Proof.
  apply (update_without_due_events three_events).
  - reflexivity.
  - repeat constructor.
Defined.

Lemma list_pop_incl {A} (p : nat) (l l' : list A) :
  list_pop p l = Some l' -> incl l' l.
Proof.
  revert p l'. induction l as [|y l IH]; simpl; intros p l' H; [discriminate|].
  destruct p as [|p].
  - injection H as <-. apply incl_tl, incl_refl.
  - destruct (list_pop p l) as [r|] eqn:E; [|discriminate].
    injection H as <-. intros z [->|Hz]; [now left|].
    right. eapply IH; eassumption.
Qed.

Lemma pass_from_after_fire w0 w x p l' t' :
  pass_from w0 w ->
  list_index x (events w) = Some p ->
  list_pop p (events w) = Some l' ->
  list_pop p (times w) = Some t' ->
  pass_from w0 (after_fire w x l' t').
Proof.
  intros (Hp & Hin & (l & Hex & Hl) & Ho & Hn & Hc) Hx Hpop Hpopt.
  destruct (list_index_Some _ _ _ Hx) as (Hnth & _ & _).
  assert (Hxin : In x (events w0)).
  { apply Hin. eapply nth_error_In; eassumption. }
  split; [apply (parallel_after_fire w x p l' t' Hp Hpop Hpopt)|].
  split.
  { rewrite after_fire_events. intros z Hz. apply in_app_or in Hz.
    destruct Hz as [Hz|Hz].
    - apply Hin. eapply list_pop_incl; eassumption.
    - destruct (truthy _); [|contradiction]. destruct Hz as [<-|[]].
      exact Hxin. }
  split.
  { exists (l ++ [x]). rewrite after_fire_executed, Hex, app_assoc.
    split; [reflexivity|]. intros z Hz. apply in_app_or in Hz.
    destruct Hz as [Hz|[<-|[]]]; [now apply Hl|exact Hxin]. }
  unfold after_fire. destruct (truthy _); simpl; auto.
Qed.

Lemma pass_from_start (w : World) : parallel w -> pass_from w w.
Proof.
  intros Hp. split; [exact Hp|]. split; [apply incl_refl|].
  split; [exists []; rewrite app_nil_r; split; [reflexivity|intros z []]|].
  auto.
Qed.

(** X3.  [update] returns from any well-formed registry; the events it
    executes were all in the registry when it started, the registry gains
    no event that was not in it, and the creators' own lists and the
    allocation of events are left as they were. *)
Theorem update_executes_registry_events_only (w : World) :
  parallel w ->
  exists w' l,
    update w = Ok tt w' /\
    executed w' = executed w ++ l /\
    incl l (events w) /\
    incl (events w') (events w) /\
    owned w' = owned w /\ next_id w' = next_id w.
Proof.
  intros Hp.
  destruct (update_invariant (pass_from w)) with (w := w)
    as (w' & Hrun & (_ & Hin & (l & Hex & Hl) & Ho & Hn & _)).
  - intros w1 H. apply H.
  - intros w1 (H1 & H2 & H3 & H4 & H5 & H6). repeat split; assumption.
  - intros. eapply pass_from_after_fire; eassumption.
  - now apply pass_from_start.
  - exists w', l. repeat split; assumption.
Qed.

Lemma update_executes_registry_events_only_witness :
  exists w' l,
    update two_due = Ok tt w' /\
    executed w' = executed two_due ++ l /\
    incl l (events two_due) /\
    incl (events w') (events two_due) /\
    owned w' = owned two_due /\ next_id w' = next_id two_due.
Proof.
  apply (update_executes_registry_events_only two_due). reflexivity.
Defined.

Lemma update_loop_S (fuel : nat) (time : Z) (i : nat) (w : World) (x : EventId) :
  nth_error (events w) i = Some x ->
  update_loop (S fuel) time i w =
  (update_body time i x ;; update_loop fuel time (S i)) w.
Proof. intros H. simpl. now rewrite H. Qed.

(** X4.  The first entry of the registry, when it is due, is the first event
    that [update] executes. *)
Theorem first_due_entry_fires (w : World) (event : EventId)
    (l : list EventId) (due : Z) (t : list Z) :
  parallel w ->
  events w = event :: l -> times w = due :: t ->
  due <= clock w (clock_reads w) ->
  exists w' rest,
    update w = Ok tt w' /\
    executed w' = executed w ++ event :: rest.
Proof.
  intros Hp He Ht Hdue. unfold update, get_time. run.
  set (w0 := {| clock := clock w; clock_reads := S (clock_reads w);
                heap := heap w; next_id := next_id w; instance := instance w;
                owned := owned w; executed := executed w |}).
  assert (He0 : events w0 = event :: l) by exact He.
  assert (Ht0 : times w0 = due :: t) by exact Ht.
  assert (Hp0 : parallel w0) by exact Hp.
  rewrite He0. simpl length.
  rewrite (update_loop_S _ _ 0 w0 event) by now rewrite He0.
  assert (Hx : list_index event (events w0) = Some 0%nat).
  { rewrite He0. simpl. now rewrite Nat.eqb_refl. }
  destruct (update_body_due (clock w (clock_reads w)) 0 event w0 due 0 Hp0)
    as (l' & t' & Hl & Htt & Hbody); [now rewrite Ht0|exact Hdue|exact Hx|].
  run. rewrite Hbody.
  set (w1 := after_fire w0 event l' t').
  destruct (update_loop_invariant (pass_from w1) (clock w (clock_reads w)))
    with (fuel := length l) (i := 1%nat) (w := w1)
    as (w' & Hrun & (_ & _ & (rest & Hex & _) & _)).
  - intros w2 H. apply H.
  - intros. eapply pass_from_after_fire; eassumption.
  - apply pass_from_start.
    apply (parallel_after_fire w0 event 0 l' t' Hp0 Hl Htt).
  - destruct (parallel_after_fire w0 event 0 l' t' Hp0 Hl Htt) as (_ & Hlen).
    fold w1 in Hlen. rewrite He0 in Hlen. simpl in Hlen. lia.
  - exists w', rest. split; [exact Hrun|]. rewrite Hex. subst w1.
    rewrite after_fire_executed. now rewrite <- app_assoc.
Qed.

Lemma first_due_entry_fires_witness :
  exists w' rest,
    update two_due = Ok tt w' /\
    executed w' = executed two_due ++ 1%nat :: rest.
Proof.
  apply (first_due_entry_fires two_due 1%nat [2%nat] 5 [5]);
    try reflexivity.
  simpl. lia.
Defined.

Lemma endless_truthy r : endless r -> truthy r = true /\ endless (decrement r).
Proof.
  destruct r as [|n]; simpl; [auto|]. intros H. split; [|lia].
  apply negb_true_iff, Z.eqb_neq. lia.
Qed.

Lemma kept_for_ever_after_fire e w x p l' t' :
  kept_for_ever e w ->
  list_index x (events w) = Some p ->
  list_pop p (events w) = Some l' ->
  list_pop p (times w) = Some t' ->
  kept_for_ever e (after_fire w x l' t').
Proof.
  intros (Hp & Hc & Hend) Hx Hl Ht.
  destruct (list_index_Some _ _ _ Hx) as (Hnth & _ & _).
  pose proof (count_occ_pop _ _ _ _ Hl Hnth e) as Hcount.
  split; [apply (parallel_after_fire w x p l' t' Hp Hl Ht)|].
  rewrite after_fire_events, count_occ_app.
  destruct (Nat.eqb_spec x e) as [->|Hne].
  - destruct (endless_truthy _ Hend) as (Htr & Hdec).
    rewrite after_fire_repeat_self, Htr. simpl.
    destruct (Nat.eq_dec e e); [|congruence]. split; [lia|exact Hdec].
  - rewrite after_fire_heap_other by congruence. split; [|exact Hend].
    destruct (truthy _); simpl; [|lia].
    destruct (Nat.eq_dec x e); [congruence|lia].
Qed.

(** X5.  An event with one entry and a repeat count that never becomes falsy
    (inf, or a negative number) has one entry and such a count after any
    number of updates. *)
Theorem endless_event_stays_scheduled (w : World) (event : EventId)
    (n : nat) :
  parallel w ->
  count_occ Nat.eq_dec (events w) event = 1%nat ->
  endless (repeat (heap w event)) ->
  exists w',
    updates n w = Ok tt w' /\
    count_occ Nat.eq_dec (events w') event = 1%nat /\
    endless (repeat (heap w' event)).
Proof.
  intros Hp Hc Hend.
  assert (H : kept_for_ever event w) by (repeat split; assumption).
  clear Hp Hc Hend. revert w H.
  induction n as [|n IH]; intros w H.
  - exists w. split; [reflexivity|]. apply H.
  - destruct (update_invariant (kept_for_ever event)) with (w := w)
      as (w1 & Hrun & H1).
    + intros w2 H2. apply H2.
    + intros w2 (H2 & H3 & H4). repeat split; assumption.
    + intros. eapply kept_for_ever_after_fire; eassumption.
    + exact H.
    + destruct (IH w1 H1) as (w' & Hk & Hres).
      exists w'. rewrite (updates_S n w w1 Hrun). split; assumption.
Qed.

Lemma endless_event_stays_scheduled_witness :
  exists w',
    updates 10 (set_heap 1%nat
                 (ScheduledEvent_init 0%nat 5
                    {| fn_name := "f"; fn_self := None |} None None
                    (Fin (-1)) None) two_due) = Ok tt w' /\
    count_occ Nat.eq_dec (events w') 1%nat = 1%nat /\
    endless (repeat (heap w' 1%nat)).
Proof.
  apply (endless_event_stays_scheduled
           (set_heap 1%nat
              (ScheduledEvent_init 0%nat 5
                 {| fn_name := "f"; fn_self := None |} None None
                 (Fin (-1)) None) two_due) 1%nat 10).
  - reflexivity.
  - reflexivity.
  - exact I.
Defined.

Lemma list_pop_app_last {A} (l : list A) (x : A) :
  list_pop (length l) (l ++ [x]) = Some l.
Proof.
  induction l as [|y l IH]; simpl; [reflexivity|]. now rewrite IH.
Qed.

Lemma list_index_fresh_last (x : nat) (l : list nat) :
  ~ In x l -> list_index x (l ++ [x]) = Some (length l).
Proof.
  intros H. apply list_index_None in H.
  rewrite (list_index_app_r x l [x] H). simpl. rewrite Nat.eqb_refl.
  now rewrite Nat.add_0_r.
Qed.

(** X6.  Scheduling an event that has no entry and cancelling it at once
    gives back the registry as it was; the heap, the creators' lists and
    the record of executions are untouched. *)
Theorem schedule_then_unschedule (w : World) (event : EventId) :
  parallel w ->
  ~ In event (events w) ->
  exists w1 w',
    schedule event w = Ok tt w1 /\
    unschedule event w1 = Ok tt w' /\
    events w' = events w /\ times w' = times w /\
    heap w' = heap w /\ owned w' = owned w /\ executed w' = executed w.
Proof.
  intros Hp Hnew. rewrite schedule_result. eexists.
  match goal with |- exists w', Ok tt ?x = _ /\ _ => set (w1 := x) end.
  assert (Hp1 : parallel w1).
  { unfold parallel, w1, events, times in *. simpl.
    rewrite !length_app. simpl. lia. }
  assert (Hi : list_index event (events w1) = Some (length (events w))).
  { apply (list_index_fresh_last event (events w) Hnew). }
  destruct (unschedule_present event w1 _ Hp1 Hi) as (l' & t' & Hl & Ht & Hu).
  eexists. split; [reflexivity|]. split; [exact Hu|].
  assert (El : l' = events w).
  { change (events w1) with (events w ++ [event]) in Hl.
    rewrite list_pop_app_last in Hl. congruence. }
  assert (Et : t' = times w).
  { unfold parallel in Hp. rewrite Hp in Ht.
    change (times w1) with
      (times w ++ [clock w (clock_reads w)
                   + py_or (delay_left (heap w event)) (delay (heap w event))])
      in Ht.
    rewrite list_pop_app_last in Ht. congruence. }
  subst l' t'. repeat split.
Qed.

Lemma schedule_then_unschedule_witness :
  exists w1 w',
    schedule 4%nat three_events = Ok tt w1 /\
    unschedule 4%nat w1 = Ok tt w' /\
    events w' = events three_events /\ times w' = times three_events /\
    heap w' = heap three_events /\ owned w' = owned three_events /\
    executed w' = executed three_events.
Proof.
  apply (schedule_then_unschedule three_events 4%nat).
  - reflexivity.
  - simpl. intros [H|[H|[H|[]]]]; discriminate.
Defined.

(** X7.  Right after an event without [delay_left] and without an entry
    was scheduled, [time_left_to_event_execution] finds the entry just
    made: it returns the time read by [schedule] plus the event's delay,
    less the time it reads itself. *)
Theorem time_left_of_fresh_event (w : World) (event : EventId) :
  parallel w ->
  ~ In event (events w) ->
  delay_left (heap w event) = None ->
  exists w1 w2,
    schedule event w = Ok tt w1 /\
    time_left_to_event_execution event w1 =
      Ok (clock w (clock_reads w) + delay (heap w event)
          - clock w (S (clock_reads w))) w2.
Proof.
  intros Hp Hnew Hd. rewrite schedule_result. eexists. eexists.
  split; [reflexivity|].
  unfold time_left_to_event_execution, get_time. run.
  unfold events at 1. simpl.
  rewrite (list_index_fresh_last event _ Hnew). run.
  unfold times at 1. simpl. unfold parallel in Hp. rewrite Hp.
  rewrite nth_error_app2 by lia. rewrite Nat.sub_diag. simpl.
  rewrite Hd. reflexivity.
Qed.

Lemma time_left_of_fresh_event_witness :
  exists w1 w2,
    schedule 4%nat
      {| clock := Z.of_nat; clock_reads := 0%nat;
         heap := fun _ => plain 0 5; next_id := 100%nat;
         instance := instance three_events;
         owned := fun _ => []; executed := [] |} = Ok tt w1 /\
    time_left_to_event_execution 4%nat w1 = Ok (0 + 5 - 1) w2.
Proof.
  apply (time_left_of_fresh_event
           {| clock := Z.of_nat; clock_reads := 0%nat;
              heap := fun _ => plain 0 5; next_id := 100%nat;
              instance := instance three_events;
              owned := fun _ => []; executed := [] |} 4%nat).
  - reflexivity.
  - simpl. intros [H|[H|[H|[]]]]; discriminate.
  - reflexivity.
Defined.

Lemma time_left_scheduled (w : World) (event : EventId) :
  parallel w -> In event (events w) ->
  exists left,
    time_left_to_event_execution event w = Ok left (after_clock_read w).
Proof.
  intros Hp Hin. destruct (list_index event (events w)) as [i|] eqn:Hi.
  2:{ apply list_index_None in Hi. contradiction. }
  destruct (list_index_Some _ _ _ Hi) as (Hnth & _ & _).
  destruct (parallel_nth w i event Hp Hnth) as (due & Hdue).
  unfold time_left_to_event_execution, get_time. run.
  rewrite Hi. run. rewrite Hdue. run. eexists. reflexivity.
Qed.

Lemma shelve_events_raises (l : list EventId) :
  forall (w : World) (event : EventId),
    parallel w -> In event l -> ~ In event (events w) ->
    exists w', shelve_events l w = Raise ValueError w'.
Proof.
  induction l as [|x l IH]; intros w event Hp Hin Hout; [contradiction|].
  simpl. run. destruct (in_dec Nat.eq_dec x (events w)) as [Hx|Hx].
  - destruct (time_left_scheduled w x Hp Hx) as (left & Hleft).
    rewrite Hleft.
    destruct Hin as [->|Hin]; [contradiction|].
    destruct (IH (after_clock_read w) event Hp Hin Hout) as (w' & Hr).
    rewrite Hr. eauto.
  - apply list_index_None in Hx.
    unfold time_left_to_event_execution. run. rewrite Hx. eauto.
Qed.

(** X8.  [scheduled_events_to_shelve_data] raises ValueError when the
    creator's list holds an event that has no entry in the scheduler. *)
Theorem saving_unscheduled_event_raises (self : CreatorId)
    (event : EventId) (w : World) :
  parallel w ->
  In event (owned w self) ->
  ~ In event (events w) ->
  exists w', scheduled_events_to_shelve_data self w = Raise ValueError w'.
Proof.
  intros Hp Hin Hout. unfold scheduled_events_to_shelve_data. run.
  eapply shelve_events_raises; eassumption.
Qed.

Lemma saving_unscheduled_event_raises_witness :
  exists w',
    scheduled_events_to_shelve_data 0%nat
      (set_owned 0%nat (fun _ => [1%nat; 4%nat]) three_events)
    = Raise ValueError w'.
Proof.
  apply (saving_unscheduled_event_raises 0%nat 4%nat
           (set_owned 0%nat (fun _ => [1%nat; 4%nat]) three_events)).
  - reflexivity.
  - simpl. tauto.
  - simpl. intros [H|[H|[H|[]]]]; discriminate.
Defined.

(** X9.  A one-shot event scheduled through its creator and then executed by
    [update] leaves the registry but stays in its creator's list, and
    saving the creator's events then raises ValueError. *)
Theorem fired_event_breaks_saving (self : CreatorId) (event : EventId)
    (w : World) :
  events w = [] -> times w = [] ->
  repeat (heap w event) = Fin 0 ->
  clock w (clock_reads w)
    + py_or (delay_left (heap w event)) (delay (heap w event))
    <= clock w (S (clock_reads w)) ->
  exists w1 w2 w3,
    schedule_event self event w = Ok tt w1 /\
    update w1 = Ok tt w2 /\
    executed w2 = executed w ++ [event] /\
    events w2 = [] /\
    In event (owned w2 self) /\
    scheduled_events_to_shelve_data self w2 = Raise ValueError w3.
Proof.
  intros He Ht Hr Hdue.
  destruct w as [c r h n [rate l t] o ex]. unfold events, times in *.
  simpl in *. subst l t.
  pose (own := fun k : nat => if Nat.eqb k self then o k ++ [event] else o k).
  pose (w1 := {| clock := c; clock_reads := S r; heap := h; next_id := n;
                 instance :=
                   {| update_rate := rate; scheduled_events := [event];
                      execution_times :=
                        [c r + py_or (delay_left (h event))
                                 (delay (h event))] |};
                 owned := own; executed := ex |}).
  pose (w2 := {| clock := c; clock_reads := S (S r); heap := h;
                 next_id := n;
                 instance :=
                   {| update_rate := rate; scheduled_events := [];
                      execution_times := [] |};
                 owned := own; executed := ex ++ [event] |}).
  assert (Hown : In event (owned w2 self)).
  { simpl. unfold own. rewrite Nat.eqb_refl. apply in_or_app. right.
    now left. }
  assert (Hsave : exists w3,
             scheduled_events_to_shelve_data self w2 = Raise ValueError w3).
  { unfold scheduled_events_to_shelve_data. run.
    apply (shelve_events_raises _ w2 event);
      [reflexivity|exact Hown|simpl; tauto]. }
  destruct Hsave as (w3 & H3).
  exists w1, w2, w3. split; [reflexivity|]. split.
  { unfold update, get_time. run. simpl. unfold update_body. run. simpl.
    destruct (Z.geb_spec (c (S r))
                (c r + py_or (delay_left (h event)) (delay (h event))));
      [|lia].
    unfold execute, unschedule. run. simpl. rewrite Nat.eqb_refl. run.
    simpl. rewrite Hr. reflexivity. }
  split; [reflexivity|]. split; [reflexivity|]. split; assumption.
Qed.

Lemma fired_event_breaks_saving_witness :
  exists w1 w2 w3,
    schedule_event 0%nat 1%nat (idle (fun n => 10 * Z.of_nat n)
                                  (fun _ => plain 0 5)) = Ok tt w1 /\
    update w1 = Ok tt w2 /\
    executed w2 = [] ++ [1%nat] /\
    events w2 = [] /\
    In 1%nat (owned w2 0%nat) /\
    scheduled_events_to_shelve_data 0%nat w2 = Raise ValueError w3.
Proof.
  apply (fired_event_breaks_saving 0%nat 1%nat
           (idle (fun n => 10 * Z.of_nat n) (fun _ => plain 0 5)));
    try reflexivity.
  simpl. lia.
Defined.

Lemma unschedule_count (event : EventId) (w : World) :
  parallel w ->
  exists w',
    unschedule event w = Ok tt w' /\
    parallel w' /\
    (forall x, count_occ Nat.eq_dec (events w) x =
               ((if Nat.eqb event x
                 then if count_occ Nat.eq_dec (events w) event =? 0 then 0 else 1
                 else 0)
                + count_occ Nat.eq_dec (events w') x)%nat) /\
    entries_of_others event w' = entries_of_others event w /\
    owned w' = owned w /\ heap w' = heap w /\ executed w' = executed w /\
    clock_reads w' = clock_reads w.
Proof.
  intros Hp. destruct (list_index event (events w)) as [i|] eqn:Hi.
  - destruct (unschedule_present event w i Hp Hi) as (l' & t' & Hl & Ht & Hu).
    destruct (list_index_Some _ _ _ Hi) as (Hnth & _ & _).
    rewrite Hu. eexists. split; [reflexivity|]. split.
    { pose proof (list_pop_length _ _ _ Hl).
      pose proof (list_pop_length _ _ _ Ht).
      unfold parallel, events, times in *. simpl. lia. }
    split.
    { intros x. change (events (set_times _ (set_events _ w))) with l'.
      rewrite (count_occ_pop _ _ _ _ Hl Hnth x).
      destruct (Nat.eqb_spec event x) as [<-|Hne]; [|reflexivity].
      pose proof (count_occ_pop _ _ _ _ Hl Hnth event) as H.
      rewrite Nat.eqb_refl in H.
      destruct (count_occ Nat.eq_dec (events w) event =? 0)%nat eqn:E;
        [apply Nat.eqb_eq in E; lia|reflexivity]. }
    split; [apply (filter_pop_combine event i _ _ _ _ Hl Ht Hnth)|].
    repeat split.
  - exists w. rewrite (unschedule_absent_noop event w Hi).
    split; [reflexivity|]. split; [exact Hp|]. split.
    { intros x. destruct (Nat.eqb_spec event x) as [<-|Hne]; [|reflexivity].
      apply list_index_count in Hi. rewrite Hi. reflexivity. }
    repeat split.
Qed.

(** X10.  [unschedule_event] on an event of the creator's list returns; it
    removes one occurrence of the event from that list and, when there is
    one, one entry of the event from the registry, and leaves the other
    creators' lists, the entries of the other events and the heap alone. *)
Theorem unschedule_event_of_owned_event (self : CreatorId) (event : EventId)
    (w : World) :
  parallel w ->
  In event (owned w self) ->
  exists w',
    unschedule_event self event w = Ok tt w' /\
    parallel w' /\
    (forall x, count_occ Nat.eq_dec (owned w self) x =
               ((if Nat.eqb event x then 1 else 0)
                + count_occ Nat.eq_dec (owned w' self) x)%nat) /\
    (forall c, c <> self -> owned w' c = owned w c) /\
    (forall x, count_occ Nat.eq_dec (events w) x =
               ((if Nat.eqb event x
                 then if count_occ Nat.eq_dec (events w) event =? 0 then 0 else 1
                 else 0)
                + count_occ Nat.eq_dec (events w') x)%nat) /\
    entries_of_others event w' = entries_of_others event w /\
    heap w' = heap w.
Proof.
  intros Hp Hin.
  destruct (list_index event (owned w self)) as [i|] eqn:Hi.
  2:{ apply list_index_None in Hi. contradiction. }
  destruct (list_index_Some _ _ _ Hi) as (Hnth & Hlt & _).
  destruct (list_pop_Some i (owned w self) Hlt) as (l' & Hl & _).
  unfold unschedule_event, remove_event_from_scheduled_list, list_remove.
  run. rewrite Hi, Hl. run.
  set (w1 := set_owned self (fun _ => l') w).
  destruct (unschedule_count event w1 Hp)
    as (w' & Hu & Hp' & Hc & He & Ho & Hh & _).
  exists w'. split; [exact Hu|]. split; [exact Hp'|].
  rewrite Ho. split.
  { intros x. simpl. rewrite Nat.eqb_refl.
    apply (count_occ_pop _ _ _ _ Hl Hnth x). }
  split.
  { intros c Hc'. simpl. apply Nat.eqb_neq in Hc'. now rewrite Hc'. }
  split; [exact Hc|]. split; [exact He|exact Hh].
Qed.

Lemma unschedule_event_of_owned_event_witness :
  exists w',
    unschedule_event 0%nat 1%nat due_now = Ok tt w' /\
    parallel w' /\
    (forall x, count_occ Nat.eq_dec (owned due_now 0%nat) x =
               ((if Nat.eqb 1 x then 1 else 0)
                + count_occ Nat.eq_dec (owned w' 0%nat) x)%nat) /\
    (forall c, c <> 0%nat -> owned w' c = owned due_now c) /\
    (forall x, count_occ Nat.eq_dec (events due_now) x =
               ((if Nat.eqb 1 x
                 then if count_occ Nat.eq_dec (events due_now) 1 =? 0
                      then 0 else 1
                 else 0)
                + count_occ Nat.eq_dec (events w') x)%nat) /\
    entries_of_others 1%nat w' = entries_of_others 1%nat due_now /\
    heap w' = heap due_now.
Proof.
  apply (unschedule_event_of_owned_event 0%nat 1%nat due_now).
  - reflexivity.
  - simpl. tauto.
Defined.

(** X11.  [shelve_data_to_scheduled_events] never schedules an event,
    never adds one to a creator's list, reads no clock and leaves the
    events that existed untouched, whether it returns or raises.  It
    returns exactly when [eval] finds the function of every dictionary:
    then there is one new event per dictionary, in order, with the creator
    as its creator, the function [eval] found, the other fields of its
    dictionary, and a repeat of -1 turned into inf.  Otherwise it raises
    what [eval] raises at the first dictionary whose function it does not
    find. *)
Theorem restoring_does_not_schedule (py_eval : Eval) (self : CreatorId)
    (shelve_data : list ShelveData) :
  forall w : World,
  (Forall (fun data => exists f,
             py_eval self (function_expression data) = inr f) shelve_data /\
   exists w',
     shelve_data_to_scheduled_events py_eval self shelve_data w =
       Ok (seq (next_id w) (length shelve_data)) w' /\
     next_id w' = (next_id w + length shelve_data)%nat /\
     instance w' = instance w /\ owned w' = owned w /\
     executed w' = executed w /\ clock_reads w' = clock_reads w /\
     (forall k, (k < next_id w)%nat -> heap w' k = heap w k) /\
     (forall i data,
         nth_error shelve_data i = Some data ->
         let e := heap w' (next_id w + i)%nat in
         creator e = self /\
         delay e = sd_delay data /\
         delay_left e = Some (sd_delay_left data) /\
         py_eval self (function_expression data) = inr (function e) /\
         args e = sd_args data /\ kwargs e = sd_kwargs data /\
         (sd_repeat data <> Fin (-1) -> repeat e = sd_repeat data) /\
         (sd_repeat data = Fin (-1) -> repeat e = Inf)))
  \/
  (exists pre data post e w',
     shelve_data = pre ++ data :: post /\
     Forall (fun data => exists f,
               py_eval self (function_expression data) = inr f) pre /\
     py_eval self (function_expression data) = inl e /\
     shelve_data_to_scheduled_events py_eval self shelve_data w =
       Raise e w' /\
     instance w' = instance w /\ owned w' = owned w /\
     executed w' = executed w /\ clock_reads w' = clock_reads w /\
     (forall k, (k < next_id w)%nat -> heap w' k = heap w k)).
Proof.
  induction shelve_data as [|d rest IH]; intros w.
  - left. split; [constructor|]. exists w. simpl. rewrite Nat.add_0_r.
    do 6 (split; [reflexivity|]). split; [reflexivity|].
    intros [|i] data H; discriminate.
  - simpl. run.
    destruct (py_eval self (function_expression d)) as [e|f] eqn:Ef.
    { right. exists [], d, rest, e, w. split; [reflexivity|].
      split; [constructor|]. split; [exact Ef|]. split; [reflexivity|].
      repeat split. }
    unfold new_event. run.
    match goal with
    | |- context [shelve_data_to_scheduled_events py_eval self rest ?x] =>
        set (w1 := x)
    end.
    destruct (IH w1)
      as [(Hall & w' & Hrun & Hn & Hi & Ho & Hx & Hr & Hold & Hnew)
         |(pre & d' & post & e & w' & Hsplit & Hall & He & Hrun & Hi & Ho
           & Hx & Hr & Hold)].
    + left. split; [constructor; [now exists f|exact Hall]|].
      rewrite Hrun. exists w'. split; [reflexivity|].
      split; [rewrite Hn; simpl; lia|].
      split; [exact Hi|]. split; [exact Ho|]. split; [exact Hx|].
      split; [exact Hr|]. split.
      * intros k Hk. rewrite Hold by (simpl; lia). simpl.
        replace (k =? next_id w)%nat with false
          by (symmetry; apply Nat.eqb_neq; lia).
        reflexivity.
      * intros [|i] data H.
        -- simpl in H. injection H as <-. cbv zeta.
           rewrite Nat.add_0_r, Hold by (simpl; lia). simpl.
           rewrite Nat.eqb_refl. simpl.
           split; [reflexivity|]. split; [reflexivity|].
           split; [reflexivity|]. split; [exact Ef|].
           split; [reflexivity|]. split; [reflexivity|]. split.
           ++ intros Hne. destruct (sd_repeat d) as [|n]; [reflexivity|].
              destruct (Z.eqb_spec n (-1)); [congruence|reflexivity].
           ++ intros ->. reflexivity.
        -- simpl in H.
           replace (next_id w + S i)%nat with (next_id w1 + i)%nat
             by (simpl; lia).
           now apply Hnew.
    + right. exists (d :: pre), d', post, e, w'.
      split; [simpl; now rewrite Hsplit|].
      split; [constructor; [now exists f|exact Hall]|].
      split; [exact He|]. rewrite Hrun. split; [reflexivity|].
      split; [exact Hi|]. split; [exact Ho|]. split; [exact Hx|].
      split; [exact Hr|].
      intros k Hk. rewrite Hold by (simpl; lia). simpl.
      replace (k =? next_id w)%nat with false
        by (symmetry; apply Nat.eqb_neq; lia).
      reflexivity.
Qed.

Lemma shelve_events_spec (l : list EventId) :
  forall w : World,
  parallel w ->
  (forall e, In e l -> In e (events w)) ->
  exists data w',
    shelve_events l w = Ok data w' /\
    length data = length l /\
    clock_reads w' = (clock_reads w + length l)%nat /\
    clock w' = clock w /\ instance w' = instance w /\ heap w' = heap w /\
    owned w' = owned w /\ executed w' = executed w /\
    next_id w' = next_id w /\
    (forall i e,
        nth_error l i = Some e ->
        exists d index due,
          nth_error data i = Some d /\
          list_index e (events w) = Some index /\
          nth_error (times w) index = Some due /\
          sd_delay_left d = due - clock w (clock_reads w + i)%nat /\
          sd_delay d = delay (heap w e) /\
          sd_repeat d = repeat (heap w e) /\
          sd_function_name d = fn_name (function (heap w e)) /\
          sd_args d = args (heap w e) /\
          sd_kwargs d = kwargs (heap w e)).
Proof.
  induction l as [|event l IH]; intros w Hp Hin.
  - exists [], w. simpl. rewrite Nat.add_0_r.
    do 9 (split; [reflexivity|]). intros [|i] e H; discriminate.
  - destruct (list_index event (events w)) as [index|] eqn:Hi.
    2:{ apply list_index_None in Hi. exfalso. apply Hi, Hin. now left. }
    destruct (list_index_Some _ _ _ Hi) as (_ & Hlt & _).
    destruct (nth_error (times w) index) as [due|] eqn:Hd.
    2:{ apply nth_error_None in Hd. unfold parallel in Hp. lia. }
    simpl. unfold time_left_to_event_execution, get_time. run.
    rewrite Hi. run. rewrite Hd. run.
    match goal with
    | |- context [shelve_events l ?x] => set (w1 := x)
    end.
    destruct (IH w1) as (data & w' & Hrun & Hlen & Hr & Hc & Hins & Hh
                         & Ho & Hx & Hn & Hdata).
    { exact Hp. }
    { intros e He. apply Hin. now right. }
    rewrite Hrun. eexists. exists w'. split; [reflexivity|].
    split; [simpl; now rewrite Hlen|].
    split; [rewrite Hr; simpl; lia|].
    do 6 (split; [assumption|]).
    intros [|i] e H.
    + simpl in H. injection H as <-.
      eexists. exists index, due. split; [reflexivity|].
      rewrite Nat.add_0_r. simpl. repeat split; assumption.
    + simpl in H. destruct (Hdata i e H)
        as (d & ix & du & H1 & H2 & H3 & H4 & H5).
      exists d, ix, du. split; [exact H1|]. split; [exact H2|].
      split; [exact H3|]. split; [|exact H5].
      rewrite H4. simpl. now rewrite Nat.add_succ_r.
Qed.

(** X12.  When every event of the creator's list has an entry in the
    scheduler, [scheduled_events_to_shelve_data] returns one dictionary
    per event, in order, with the event's fields and, as [delay_left], its
    fire time less the reading of the clock made for that event; the clock
    is read once per event and nothing else changes. *)
Theorem saved_data_of_scheduled_events (self : CreatorId) (w : World) :
  parallel w ->
  (forall e, In e (owned w self) -> In e (events w)) ->
  exists data w',
    scheduled_events_to_shelve_data self w = Ok data w' /\
    length data = length (owned w self) /\
    clock_reads w' = (clock_reads w + length (owned w self))%nat /\
    clock w' = clock w /\ instance w' = instance w /\ heap w' = heap w /\
    owned w' = owned w /\ executed w' = executed w /\
    next_id w' = next_id w /\
    (forall i e,
        nth_error (owned w self) i = Some e ->
        exists d index due,
          nth_error data i = Some d /\
          list_index e (events w) = Some index /\
          nth_error (times w) index = Some due /\
          sd_delay_left d = due - clock w (clock_reads w + i)%nat /\
          sd_delay d = delay (heap w e) /\
          sd_repeat d = repeat (heap w e) /\
          sd_function_name d = fn_name (function (heap w e)) /\
          sd_args d = args (heap w e) /\
          sd_kwargs d = kwargs (heap w e)).
Proof.
  intros Hp Hin. unfold scheduled_events_to_shelve_data. run.
  now apply shelve_events_spec.
Qed.

Lemma saved_data_of_scheduled_events_witness :
  exists data w',
    scheduled_events_to_shelve_data 0%nat due_now = Ok data w' /\
    length data = length (owned due_now 0%nat) /\
    clock_reads w' = (clock_reads due_now + length (owned due_now 0%nat))%nat /\
    clock w' = clock due_now /\ instance w' = instance due_now /\
    heap w' = heap due_now /\
    owned w' = owned due_now /\ executed w' = executed due_now /\
    next_id w' = next_id due_now /\
    (forall i e,
        nth_error (owned due_now 0%nat) i = Some e ->
        exists d index due,
          nth_error data i = Some d /\
          list_index e (events due_now) = Some index /\
          nth_error (times due_now) index = Some due /\
          sd_delay_left d = due - clock due_now (clock_reads due_now + i)%nat /\
          sd_delay d = delay (heap due_now e) /\
          sd_repeat d = repeat (heap due_now e) /\
          sd_function_name d = fn_name (function (heap due_now e)) /\
          sd_args d = args (heap due_now e) /\
          sd_kwargs d = kwargs (heap due_now e)).
Proof.
  apply (saved_data_of_scheduled_events 0%nat due_now).
  - reflexivity.
  - simpl. tauto.
Defined.

(** *** The sweep of [unschedule_earlier_move_orders] *)

Lemma survivors_incl (keep : EventId -> bool) (l : list EventId) :
  incl (survivors keep l) l.
Proof.
  assert (H : forall n l, (length l <= n)%nat -> incl (survivors keep l) l).
  { induction n as [|n IH]; intros [|e rest] Hl;
      try (intros x Hx; now destruct Hx); simpl in Hl; try lia.
    intros x Hx. simpl in Hx. destruct (keep e).
    - destruct Hx as [<-|Hx]; [now left|right].
      apply (IH rest); [lia|exact Hx].
    - destruct rest as [|s rest']; [destruct Hx|].
      destruct Hx as [<-|Hx]; [right; now left|].
      right; right. apply (IH rest'); [simpl in Hl; lia|exact Hx]. }
  apply (H (length l)). apply le_n.
Qed.

Lemma survivors_all_kept (keep : EventId -> bool) (pre l : list EventId) :
  (forall x, In x pre -> keep x = true) ->
  survivors keep (pre ++ l) = pre ++ survivors keep l.
Proof.
  induction pre as [|p pre IH]; intros H; [reflexivity|].
  simpl. rewrite (H p) by now left. f_equal. apply IH.
  intros x Hx. apply H. now right.
Qed.

Lemma list_index_nodup (l : list EventId) :
  forall i e, NoDup l -> nth_error l i = Some e -> list_index e l = Some i.
Proof.
  intros i e Hnd Hnth.
  destruct (list_index e l) as [j|] eqn:Hj.
  - destruct (list_index_Some _ _ _ Hj) as (Hnj & Hlt & _).
    f_equal. apply (proj1 (NoDup_nth_error l) Hnd); [exact Hlt|congruence].
  - apply list_index_None in Hj. exfalso. apply Hj.
    eapply nth_error_In; eauto.
Qed.

Lemma list_pop_middle (pre : list EventId) (e : EventId) (post : list EventId) :
  list_pop (length pre) (pre ++ e :: post) = Some (pre ++ post).
Proof.
  induction pre as [|p pre IH]; simpl; [reflexivity|]. now rewrite IH.
Qed.

Lemma nth_error_split_at (l : list EventId) (i : nat) (e : EventId) :
  nth_error l i = Some e ->
  exists pre post, l = pre ++ e :: post /\ length pre = i.
Proof.
  intros H. destruct (nth_error_split l i H) as (l1 & l2 & -> & Hl).
  now exists l1, l2.
Qed.

Lemma firstn_at (pre l : list EventId) :
  firstn (length pre) (pre ++ l) = pre.
Proof. induction pre; simpl; [now destruct l|now f_equal]. Qed.

Lemma skipn_at (pre l : list EventId) :
  skipn (length pre) (pre ++ l) = l.
Proof. induction pre; simpl; [reflexivity|assumption]. Qed.

Lemma firstn_S_at (pre : list EventId) (x : EventId) (l : list EventId) :
  firstn (S (length pre)) (pre ++ x :: l) = pre ++ [x].
Proof.
  induction pre; [simpl; now destruct l|].
  cbn [length app]. rewrite firstn_cons. now f_equal.
Qed.

Lemma skipn_S_at (pre : list EventId) (x : EventId) (l : list EventId) :
  skipn (S (length pre)) (pre ++ x :: l) = l.
Proof. induction pre; [reflexivity|]. cbn [length app]. now rewrite skipn_cons. Qed.

Lemma firstn_S_end (pre : list EventId) :
  firstn (S (length pre)) pre = pre.
Proof. apply firstn_all2. lia. Qed.

Lemma skipn_S_end (pre : list EventId) :
  skipn (S (length pre)) pre = [].
Proof. apply skipn_all2. lia. Qed.

Lemma move_orders_loop_spec (self : CreatorId) (h : EventId -> ScheduledEvent)
    (fuel : nat) :
  forall (i : nat) (w : World),
  parallel w -> heap w = h -> NoDup (owned w self) ->
  (length (owned w self) <= i + fuel)%nat ->
  exists w',
    move_orders_loop fuel self i w = Ok tt w' /\
    parallel w' /\ heap w' = h /\
    owned w' self =
      firstn i (owned w self)
      ++ survivors (fun e => negb (callable_eqb (function (h e))
                                                (move_to_method self)))
                   (skipn i (owned w self)) /\
    (forall c, c <> self -> owned w' c = owned w c) /\
    (forall e, In e (owned w' self) ->
               count_occ Nat.eq_dec (events w') e =
               count_occ Nat.eq_dec (events w) e) /\
    (forall e, (count_occ Nat.eq_dec (events w') e
                <= count_occ Nat.eq_dec (events w) e)%nat) /\
    (forall e, In e (owned w self) -> ~ In e (owned w' self) ->
               (count_occ Nat.eq_dec (events w) e <= 1)%nat ->
               ~ In e (events w')) /\
    clock_reads w' = clock_reads w /\ executed w' = executed w.
Proof.
  set (keep := fun e => negb (callable_eqb (function (h e))
                                           (move_to_method self))).
  induction fuel as [|fuel IH]; intros i w Hp Hh Hnd Hlen.
  - assert (Hnone : nth_error (owned w self) i = None)
      by (apply nth_error_None; lia).
    exists w. simpl. rewrite Hnone. split; [reflexivity|].
    split; [exact Hp|]. split; [exact Hh|]. split.
    { rewrite firstn_all2, skipn_all2 by lia. simpl. now rewrite app_nil_r. }
    split; [reflexivity|]. split; [reflexivity|]. split; [intros; apply le_n|].
    split; [intros e H1 H2; contradiction|]. split; reflexivity.
  - destruct (nth_error (owned w self) i) as [event|] eqn:Hnth.
    2:{ exists w. simpl. rewrite Hnth. split; [reflexivity|].
        split; [exact Hp|]. split; [exact Hh|]. split.
        { apply nth_error_None in Hnth.
          rewrite firstn_all2, skipn_all2 by lia. simpl.
          now rewrite app_nil_r. }
        split; [reflexivity|]. split; [reflexivity|].
        split; [intros; apply le_n|].
        split; [intros e H1 H2; contradiction|]. split; reflexivity. }
    destruct (nth_error_split_at _ _ _ Hnth) as (pre & post & Hl & Hpre).
    simpl. rewrite Hnth, Hh.
    destruct (callable_eqb (function (h event)) (move_to_method self)) eqn:Hm.
    + (* a move order: cancelled, and the iterator moves on *)
      assert (Hin : In event (owned w self))
        by (eapply nth_error_In; eauto).
      pose proof (list_index_nodup _ _ _ Hnd Hnth) as Hidx.
      unfold unschedule_event, remove_event_from_scheduled_list, list_remove.
      run. rewrite Hidx. run.
      assert (Hpop : list_pop i (owned w self) = Some (pre ++ post))
        by (rewrite Hl, <- Hpre; apply list_pop_middle).
      rewrite Hpop. run.
      set (w1 := set_owned self (fun _ => pre ++ post) w).
      destruct (unschedule_count event w1 Hp)
        as (w2 & Hu & Hp2 & Hc2 & _ & Ho2 & Hh2 & Hx2 & Hr2).
      fold w1. rewrite Hu.
      assert (Hown2 : owned w2 self = pre ++ post).
      { rewrite Ho2. simpl. now rewrite Nat.eqb_refl. }
      assert (Hnd' : NoDup (pre ++ post)).
      { rewrite Hl in Hnd. now apply NoDup_remove_1 in Hnd. }
      assert (Hnotin : ~ In event (pre ++ post)).
      { rewrite Hl in Hnd. now apply NoDup_remove_2 in Hnd. }
      destruct (IH (S i) w2) as (w' & Hrun & Hp' & Hh' & Hown & Hoth & Hcnt
                                 & Hle & Hgone & Hr' & Hx').
      { exact Hp2. } { rewrite Hh2. exact Hh. }
      { now rewrite Hown2. }
      { rewrite Hown2. rewrite Hl in Hlen. rewrite length_app in *.
        simpl in Hlen. lia. }
      assert (Hshape : owned w' self =
                firstn i (owned w self) ++ survivors keep (skipn i (owned w self))).
      { assert (Hk : keep event = false) by (unfold keep; now rewrite Hm).
        rewrite Hown, Hown2, Hl, <- Hpre.
        rewrite firstn_at, skipn_at.
        destruct post as [|s post'].
        - rewrite app_nil_r, firstn_S_end, skipn_S_end.
          cbn [survivors]. now rewrite Hk.
        - rewrite firstn_S_at, skipn_S_at.
          cbn [survivors]. rewrite Hk. now rewrite <- app_assoc. }
      assert (Hsub : incl (owned w' self) (pre ++ post)).
      { rewrite Hown, Hown2. intros x Hx. apply in_app_or in Hx.
        rewrite <- (firstn_skipn (S i) (pre ++ post)).
        apply in_or_app. destruct Hx as [Hx|Hx]; [now left|right].
        now apply (survivors_incl keep). }
      exists w'. split; [exact Hrun|]. split; [exact Hp'|].
      split; [exact Hh'|]. split; [exact Hshape|]. split.
      { intros c Hc. rewrite (Hoth c Hc), Ho2. simpl.
        apply Nat.eqb_neq in Hc. now rewrite Hc. }
      split.
      { intros e He. rewrite (Hcnt e He).
        change (events w) with (events w1). rewrite (Hc2 e).
        destruct (Nat.eqb_spec event e) as [<-|Hne]; [|reflexivity].
        exfalso. apply Hnotin, Hsub, He. }
      split.
      { intros e. etransitivity; [apply Hle|].
        change (events w) with (events w1). rewrite (Hc2 e). lia. }
      split.
      { intros e He Hne Hone.
        destruct (Nat.eq_dec e event) as [->|Hdiff].
        - intros Hin'. apply (count_occ_In Nat.eq_dec) in Hin'.
          pose proof (Hle event) as Hle'.
          pose proof (Hc2 event) as Hc2'. rewrite Nat.eqb_refl in Hc2'.
          change (events w1) with (events w) in Hc2'.
          destruct (count_occ Nat.eq_dec (events w) event =? 0)%nat eqn:E.
          + apply Nat.eqb_eq in E. lia.
          + lia.
        - apply Hgone; [|exact Hne|].
          + rewrite Hown2. rewrite Hl in He.
            apply in_app_or in He. apply in_or_app.
            destruct He as [He|[He|He]]; [now left|congruence|now right].
          + pose proof (Hc2 e) as Hc2'.
            change (events w1) with (events w) in Hc2'. lia. }
      split; [rewrite Hr', Hr2|rewrite Hx', Hx2]; reflexivity.
    + (* any other event: left alone *)
      destruct (IH (S i) w Hp Hh Hnd) as (w' & Hrun & Hp' & Hh' & Hown & Hrest).
      { lia. }
      exists w'. split; [exact Hrun|]. split; [exact Hp'|].
      split; [exact Hh'|]. split; [|exact Hrest].
      rewrite Hown, Hl, <- Hpre.
      assert (Hk : keep event = true) by (unfold keep; now rewrite Hm).
      rewrite firstn_S_at, skipn_S_at, firstn_at, skipn_at.
      cbn [survivors]. rewrite Hk. now rewrite <- app_assoc.
Qed.

(** X13.  [unschedule_earlier_move_orders] on a list without duplicates in
    which the first order to move, [a], is followed by [b]: it returns,
    [a] is cancelled, and [b] is stepped over, so that it stays in the list
    and in the registry, an order to move or not; behind [b] the sweep goes
    on in the same way.  The other creators' lists are untouched. *)
Theorem move_order_after_a_cancelled_one_is_kept (self : CreatorId)
    (pre : list EventId) (a b : EventId) (post : list EventId) (w : World) :
  parallel w ->
  owned w self = pre ++ a :: b :: post ->
  NoDup (owned w self) ->
  (forall x, In x pre ->
     callable_eqb (function (heap w x)) (move_to_method self) = false) ->
  callable_eqb (function (heap w a)) (move_to_method self) = true ->
  exists w',
    unschedule_earlier_move_orders self w = Ok tt w' /\
    parallel w' /\
    owned w' self =
      pre ++ b :: survivors
                    (fun e => negb (callable_eqb (function (heap w e))
                                                 (move_to_method self)))
                    post /\
    ~ In a (owned w' self) /\
    In b (owned w' self) /\
    count_occ Nat.eq_dec (events w') b = count_occ Nat.eq_dec (events w) b /\
    ((count_occ Nat.eq_dec (events w) a <= 1)%nat -> ~ In a (events w')) /\
    (forall c, c <> self -> owned w' c = owned w c).
Proof.
  intros Hp Hl Hnd Hpre Ha.
  unfold unschedule_earlier_move_orders. run.
  destruct (move_orders_loop_spec self (heap w) (length (owned w self)) 0%nat w
              Hp eq_refl Hnd (le_n _))
    as (w' & Hrun & Hp' & _ & Hown & Hoth & Hcnt & _ & Hgone & _).
  exists w'. split; [exact Hrun|]. split; [exact Hp'|].
  assert (Hshape : owned w' self =
            pre ++ b :: survivors
                    (fun e => negb (callable_eqb (function (heap w e))
                                                 (move_to_method self)))
                    post).
  { rewrite Hown. simpl. rewrite Hl. rewrite survivors_all_kept.
    - simpl. now rewrite Ha.
    - intros x Hx. now rewrite (Hpre x Hx). }
  assert (Hb : In b (owned w' self))
    by (rewrite Hshape; apply in_or_app; right; now left).
  assert (Hna : ~ In a (owned w' self)).
  { rewrite Hshape. rewrite Hl in Hnd.
    pose proof (NoDup_remove_2 _ _ _ Hnd) as Hn.
    intros Hin. apply Hn. apply in_app_or in Hin. apply in_or_app.
    destruct Hin as [Hin|[Hin|Hin]]; [now left|right; now left|].
    right; right. now apply survivors_incl in Hin. }
  split; [exact Hshape|]. split; [exact Hna|]. split; [exact Hb|].
  split; [now apply Hcnt|]. split; [|exact Hoth].
  intros Hone. apply Hgone; [|exact Hna|exact Hone].
  rewrite Hl. apply in_or_app. right. now left.
Qed.

Lemma move_order_after_a_cancelled_one_is_kept_witness :
  exists w',
    unschedule_earlier_move_orders 7%nat two_move_orders = Ok tt w' /\
    parallel w' /\
    owned w' 7%nat =
      [] ++ 2%nat :: survivors
                    (fun e => negb (callable_eqb
                                      (function (heap two_move_orders e))
                                      (move_to_method 7%nat)))
                    [] /\
    ~ In 1%nat (owned w' 7%nat) /\
    In 2%nat (owned w' 7%nat) /\
    count_occ Nat.eq_dec (events w') 2%nat
      = count_occ Nat.eq_dec (events two_move_orders) 2%nat /\
    ((count_occ Nat.eq_dec (events two_move_orders) 1%nat <= 1)%nat ->
     ~ In 1%nat (events w')) /\
    (forall c, c <> 7%nat -> owned w' c = owned two_move_orders c).
Proof.
  apply (move_order_after_a_cancelled_one_is_kept 7%nat [] 1%nat 2%nat []
           two_move_orders).
  - reflexivity.
  - reflexivity.
  - simpl. repeat constructor; simpl; intuition discriminate.
  - intros x [].
  - reflexivity.
Defined.

End SchedulingMoreFacts.

(** ** More properties of unit movement *)

Module UnitsMoreFacts.
Import Py Units UnitsNotions UnitsMore UnitsFacts.
Local Open Scope Z_scope.
Local Open Scope py_scope.

Lemma random_choice_in (env : Collaborators) (x : MapNode)
    (l : list MapNode) (w : World) :
  exists n, In n (x :: l) /\
            random_choice env (x :: l) w =
            Ok n (mkWorld (clock w) (clock_reads w) (S (draws w)) (units w)
                    (node_unit w) (pathfinder w)).
Proof.
  unfold random_choice.
  destruct (nth_error (x :: l)
              (random_draw env (draws w) mod length (x :: l))%nat) eqn:E.
  - exists m. split; [eapply nth_error_In; eauto|reflexivity].
  - apply nth_error_None in E.
    pose proof (Nat.mod_upper_bound (random_draw env (draws w))
                  (length (x :: l))) as H.
    simpl in *. lia.
Qed.

Section Collisions.
Variable env : Collaborators.
Variable self : nat.

Lemma wait_for_free_path_full p w :
  exists w',
    wait_for_free_path self p w = Ok tt w' /\
    others_untouched self w w' /\
    awaited_path (units w' self) = Some p /\
    path (units w' self) = [] /\
    path_wait_counter (units w' self) = clock w (clock_reads w) + 1 /\
    change_x (units w' self) = 0 /\ change_y (units w' self) = 0 /\
    position (units w' self) = position (units w self) /\
    current_node (units w' self) = current_node (units w self) /\
    reserved_node (units w' self) = reserved_node (units w self) /\
    node_unit w' = node_unit w /\ pathfinder w' = pathfinder w /\
    clock w' = clock w /\ clock_reads w' = S (clock_reads w).
Proof.
  unfold wait_for_free_path, stop, get_time. run. eexists.
  split; [reflexivity|]. split.
  { intros k Hk. simpl. apply Nat.eqb_neq in Hk. now rewrite Hk. }
  simpl. rewrite !Nat.eqb_refl. simpl. repeat split.
Qed.

(** X14.  When the node of the next waypoint is held by another unit that is on
    its way somewhere, or hostile, the unit shelves its path. *)
Theorem busy_or_hostile_blocker_makes_unit_wait (front : Position)
    (rest : list Position) (blocker : nat) (w : World) :
  path (units w self) = front :: rest ->
  node_unit w (position_to_node env front) = Some blocker ->
  blocker <> self ->
  has_destination env blocker w || is_enemy env self blocker = true ->
  exists w',
    scan_next_nodes_for_collisions env self w = Ok tt w' /\
    awaited_path (units w' self) = Some (front :: rest) /\
    path (units w' self) = [] /\
    path_wait_counter (units w' self) = clock w (clock_reads w) + 1 /\
    change_x (units w' self) = 0 /\ change_y (units w' self) = 0 /\
    pathfinder w' = pathfinder w /\
    node_unit w' = node_unit w /\
    others_untouched self w w'.
Proof.
  intros Hp Hn Hne Hbusy.
  unfold scan_next_nodes_for_collisions, self_. run. rewrite Hp, Hn.
  apply Nat.eqb_neq in Hne. rewrite Hne.
  unfold find_best_way_to_avoid_collision, self_. run. rewrite Hbusy, Hp.
  destruct (wait_for_free_path_full (front :: rest) w)
    as (w' & Hrun & Ho & Ha & Hq & Hc & Hx & Hy & _ & _ & _ & Hu & Hf & _).
  exists w'. repeat (split; [assumption|]). assumption.
Qed.

(** X15.  The blocker is idle and friendly, and the unit's node and the node of
    the waypoint after the blocked one have a walkable neighbour in
    common: the blocked waypoint is replaced by the position of the first
    such neighbour, and nothing else happens. *)
Theorem idle_blocker_is_walked_around (front second : Position)
    (rest : list Position) (blocker : nat) (node : MapNode)
    (more : list MapNode) (w : World) :
  path (units w self) = front :: second :: rest ->
  node_unit w (position_to_node env front) = Some blocker ->
  blocker <> self ->
  has_destination env blocker w = false ->
  is_enemy env self blocker = false ->
  detours env w self second = node :: more ->
  exists w',
    scan_next_nodes_for_collisions env self w = Ok tt w' /\
    path (units w' self) = node_position env node :: second :: rest /\
    In node (walkable_adjacent env (node_unit w) (current_node (units w self))) /\
    In node (walkable_adjacent env (node_unit w) (position_to_node env second)) /\
    awaited_path (units w' self) = awaited_path (units w self) /\
    pathfinder w' = pathfinder w /\
    node_unit w' = node_unit w /\
    others_untouched self w w' /\
    clock_reads w' = clock_reads w.
Proof.
  intros Hp Hn Hne Hidle Hfriend Hd.
  assert (Hin : In node (detours env w self second))
    by (rewrite Hd; now left).
  unfold detours in Hin, Hd. apply filter_In in Hin. destruct Hin as [Hin1 Hin2].
  apply existsb_exists in Hin2. destruct Hin2 as (x & Hx & Hex).
  apply node_eqb_eq in Hex. subst x.
  unfold scan_next_nodes_for_collisions, self_. run. rewrite Hp, Hn.
  pose proof Hne as Hne'. apply Nat.eqb_neq in Hne'. rewrite Hne'.
  unfold find_best_way_to_avoid_collision, self_. run.
  rewrite Hidle, Hfriend. cbn [orb].
  unfold find_alternative_path, self_. run. rewrite Hp. run.
  cbn [node_unit]. rewrite Hd. run.
  eexists. split; [reflexivity|]. simpl. rewrite Nat.eqb_refl. simpl.
  split; [reflexivity|]. split; [exact Hin1|]. split; [exact Hx|].
  split; [reflexivity|]. split; [reflexivity|]. split; [reflexivity|].
  split; [|reflexivity].
  intros k Hk. simpl. apply Nat.eqb_neq in Hk. now rewrite Hk.
Qed.

(** X16.  The blocker is idle and friendly and there is no way around it.  When
    the blocker has a walkable neighbour, it is sent to one of them and
    the unit shelves its path; otherwise the unit asks for a new path to
    its last waypoint and keeps its queue. *)
Theorem idle_blocker_is_asked_for_pass (front : Position)
    (rest : list Position) (blocker : nat) (w : World) :
  path (units w self) = front :: rest ->
  node_unit w (position_to_node env front) = Some blocker ->
  blocker <> self ->
  has_destination env blocker w = false ->
  is_enemy env self blocker = false ->
  match rest with
  | [] => True
  | second :: _ => detours env w self second = []
  end ->
  exists w',
    scan_next_nodes_for_collisions env self w = Ok tt w' /\
    node_unit w' = node_unit w /\
    others_untouched self w w' /\
    (walkable_adjacent env (node_unit w) (current_node (units w blocker)) <> [] ->
     exists tile,
       In tile (walkable_adjacent env (node_unit w)
                  (current_node (units w blocker))) /\
       pathfinder w' =
         pathfinder w ++
         [cancel_unit_path_requests blocker;
          request_path blocker
            (position_to_map_grid env (position (units w blocker))) tile] /\
       awaited_path (units w' self) = Some (front :: rest) /\
       path (units w' self) = [] /\
       path_wait_counter (units w' self) = clock w (clock_reads w) + 1) /\
    (walkable_adjacent env (node_unit w) (current_node (units w blocker)) = [] ->
     exists last,
       list_last (front :: rest) = Some last /\
       pathfinder w' =
         pathfinder w ++
         [cancel_unit_path_requests self;
          request_path self
            (position_to_map_grid env (position (units w self)))
            (position_to_map_grid env last)] /\
       units w' = units w).
Proof.
  intros Hp Hn Hne Hidle Hfriend Hd.
  unfold scan_next_nodes_for_collisions, self_. run. rewrite Hp, Hn.
  pose proof Hne as Hne'. apply Nat.eqb_neq in Hne'. rewrite Hne'.
  unfold find_best_way_to_avoid_collision, self_. run.
  rewrite Hidle, Hfriend. cbn [orb].
  assert (Hnone : find_alternative_path env self w = Ok None w).
  { unfold find_alternative_path, self_. run. rewrite Hp.
    destruct rest as [|second rest']; [reflexivity|]. run. cbn [node_unit].
    unfold detours in Hd. rewrite Hd. reflexivity. }
  rewrite Hnone. unfold ask_for_pass, self_. run.
  unfold find_free_tile_to_unblock_way, self_. run.
  destruct (walkable_adjacent env (node_unit w) (current_node (units w blocker)))
    as [|x l] eqn:Ea.
  - run. rewrite Hp.
    destruct (list_last_cons front rest) as (last & Hl). rewrite Hl.
    rewrite move_to_spec. cbv beta iota. eexists. split; [reflexivity|].
    split; [reflexivity|]. split; [intros k _; reflexivity|]. split.
    + intros H. congruence.
    + intros _. exists last. repeat split.
  - destruct (random_choice_in env x l w) as (tile & Hin & Hc). rewrite Hc.
    rewrite move_to_spec. cbv beta iota.
    match goal with
    | |- context [wait_for_free_path self ?p ?x] =>
        destruct (wait_for_free_path_full p x)
          as (w' & Hrun & Ho & Ha & Hq & Hcnt & _ & _ & _ & _ & _ & Hu & Hf & _)
    end.
    rewrite Hrun. exists w'. split; [reflexivity|].
    split; [exact Hu|]. split; [exact Ho|]. split.
    + intros _. exists tile. split; [exact Hin|]. split; [exact Hf|].
      simpl in Ha. rewrite Hp in Ha. split; [exact Ha|].
      split; [exact Hq|exact Hcnt].
    + discriminate.
Qed.

End Collisions.

Lemma node_eqb_neq (a b : MapNode) : node_eqb a b = false <-> a <> b.
Proof.
  split.
  - intros H E. apply node_eqb_eq in E. congruence.
  - intros H. destruct (node_eqb a b) eqn:E; [|reflexivity].
    apply node_eqb_eq in E. contradiction.
Qed.

Section Tick.
Variable env : Collaborators.
Variable self : nat.

Lemma scan_frame_refl w : scan_frame self w w.
Proof. repeat split; auto. Qed.

Lemma scan_frame_wait w0 w w' p x l :
  units w0 = units w -> node_unit w0 = node_unit w ->
  path (units w self) = x :: l -> p = x :: l ->
  wait_for_free_path self p w0 = Ok tt w' ->
  scan_frame self w w'.
Proof.
  intros Hu Hn Hp -> Hrun.
  destruct (wait_for_free_path_full self (x :: l) w0)
    as (w2 & Hrun' & Ho & Ha & Hq & _ & _ & _ & Hpos & Hc & Hr & Hnu & _).
  rewrite Hrun in Hrun'. injection Hrun' as <-.
  unfold scan_frame, others_untouched in *. rewrite <- Hu, <- Hn.
  split; [exact Ho|]. split; [exact Hnu|]. split; [exact Hc|].
  split; [exact Hr|]. split; [exact Hpos|].
  intros _. unfold shelved_well. now rewrite Ha, Hq.
Qed.

Lemma scan_total w :
  exists w1,
    scan_next_nodes_for_collisions env self w = Ok tt w1 /\ scan_frame self w w1.
Proof.
  unfold scan_next_nodes_for_collisions, self_. run.
  destruct (path (units w self)) as [|front rest] eqn:Ep.
  { exists w. split; [reflexivity|apply scan_frame_refl]. }
  destruct (node_unit w (position_to_node env front)) as [blocker|].
  2:{ exists w. split; [reflexivity|apply scan_frame_refl]. }
  destruct (Nat.eqb blocker self).
  { exists w. split; [reflexivity|apply scan_frame_refl]. }
  unfold find_best_way_to_avoid_collision, self_. run.
  destruct (has_destination env blocker w || is_enemy env self blocker).
  - destruct (wait_for_free_path_full self (path (units w self)) w)
      as (w' & Hrun & _).
    exists w'. split; [exact Hrun|].
    eapply scan_frame_wait; eauto.
  - unfold find_alternative_path, self_. run. rewrite Ep.
    assert (Hask : exists w1, ask_for_pass env self blocker w = Ok tt w1 /\
                              scan_frame self w w1).
    { unfold ask_for_pass, self_. run.
      unfold find_free_tile_to_unblock_way, self_. run.
      destruct (walkable_adjacent env (node_unit w)
                  (current_node (units w blocker))) as [|x l].
      - run. rewrite Ep.
        destruct (list_last_cons front rest) as (last & Hl). rewrite Hl.
        rewrite move_to_spec. cbv beta iota. eexists. split; [reflexivity|].
        repeat split; auto.
      - destruct (random_choice_in env x l w) as (tile & _ & Hc). rewrite Hc.
        rewrite move_to_spec. cbv beta iota.
        match goal with
        | |- context [wait_for_free_path self ?p ?x] =>
            destruct (wait_for_free_path_full self p x) as (w' & Hrun & _);
            rewrite Hrun; exists w'; split; [reflexivity|];
            apply (scan_frame_wait x w w' p front rest);
              [reflexivity|reflexivity|exact Ep|simpl; exact Ep|exact Hrun]
        end. }
    destruct rest as [|second rest'].
    + run. exact Hask.
    + run. cbn [node_unit].
      destruct (filter _ _) as [|node more].
      * run. exact Hask.
      * run. eexists. split; [reflexivity|].
        unfold scan_frame. split.
        { intros k Hk. simpl. apply Nat.eqb_neq in Hk. now rewrite Hk. }
        simpl. rewrite Nat.eqb_refl. simpl.
        repeat split. unfold shelved_well. simpl.
        destruct (awaited_path (units w self)) as [[|a l]|]; auto.
        rewrite Ep. discriminate.
Qed.

Lemma scan_noop w :
  match path (units w self) with
  | [] => True
  | front :: _ =>
      node_unit w (position_to_node env front) = None \/
      node_unit w (position_to_node env front) = Some self
  end ->
  scan_next_nodes_for_collisions env self w = Ok tt w.
Proof.
  unfold scan_next_nodes_for_collisions, self_. run.
  destruct (path (units w self)) as [|front rest]; [reflexivity|].
  intros [->| ->]; [reflexivity|]. now rewrite Nat.eqb_refl.
Qed.

Lemma update_current_blocked_node_full n w :
  exists w',
    update_current_blocked_node self n w = Ok tt w' /\
    units w' self = with_current_node n (units w self) /\
    others_untouched self w w' /\
    (forall m, node_unit w' m =
               if node_eqb m n then Some self
               else if node_eqb m (current_node (units w self)) then None
                    else node_unit w m) /\
    pathfinder w' = pathfinder w /\ clock_reads w' = clock_reads w /\
    clock w' = clock w.
Proof.
  unfold update_current_blocked_node, swap_blocked_nodes, unblock_map_node,
    block_map_node, self_. run. eexists. split; [reflexivity|].
  split; [simpl; now rewrite Nat.eqb_refl|].
  split; [intros k Hk; simpl; apply Nat.eqb_neq in Hk; now rewrite Hk|].
  repeat split.
Qed.

Lemma update_reserved_node_full front rest w :
  path (units w self) = front :: rest ->
  exists w',
    update_reserved_node env self w = Ok tt w' /\
    units w' self =
      with_reserved_node (Some (position_to_node env front)) (units w self) /\
    others_untouched self w w' /\
    (forall m, node_unit w' m =
               if node_eqb m (position_to_node env front) then Some self
               else match reserved_node (units w self) with
                    | Some r => if node_eqb m r then None else node_unit w m
                    | None => node_unit w m
                    end) /\
    pathfinder w' = pathfinder w /\ clock_reads w' = clock_reads w /\
    clock w' = clock w.
Proof.
  intros Hp.
  unfold update_reserved_node, swap_blocked_nodes, unblock_map_node,
    block_map_node, self_. run. rewrite Hp. simpl.
  destruct (reserved_node (units w self)) eqn:Er; run; eexists;
    (split; [reflexivity|]);
    (split; [simpl; now rewrite Nat.eqb_refl|]);
    (split; [intros k Hk; simpl; apply Nat.eqb_neq in Hk; now rewrite Hk|]);
    repeat split.
Qed.

Lemma update_pathfinding_total w :
  shelved_well (units w self) ->
  exists w', update_pathfinding env self w = Ok tt w' /\ steering_frame self w w'.
Proof.
  intros Hs. unfold update_pathfinding, self_. run.
  unfold shelved_well in Hs.
  destruct (awaited_path (units w self)) as [awaited|] eqn:Ea.
  - destruct awaited as [|front rest]; [contradiction|].
    unfold countdown_waiting, get_time, self_. run. simpl.
    destruct (_ >=? _).
    + run. cbn [node_unit].
      destruct (_ || _).
      * unfold restart_path. run.
        destruct (20 <? length (front :: rest))%nat.
        -- eexists. split; [reflexivity|]. unfold steering_frame.
           split; [intros k Hk; simpl; apply Nat.eqb_neq in Hk; now rewrite Hk|].
           simpl. rewrite !Nat.eqb_refl. unfold shelved_well. simpl.
           repeat split.
        -- destruct (list_last_cons front rest) as (last & Hl). rewrite Hl.
           rewrite move_to_spec. cbv beta iota. eexists.
           split; [reflexivity|]. unfold steering_frame.
           split; [intros k Hk; simpl; apply Nat.eqb_neq in Hk; now rewrite Hk|].
           simpl. rewrite !Nat.eqb_refl. unfold shelved_well. simpl.
           repeat split.
      * eexists. split; [reflexivity|]. unfold steering_frame.
        split; [intros k Hk; simpl; apply Nat.eqb_neq in Hk; now rewrite Hk|].
        simpl. rewrite !Nat.eqb_refl. unfold shelved_well. simpl.
        rewrite Ea. repeat split. exact Hs.
    + eexists. split; [reflexivity|]. unfold steering_frame.
      split; [intros k Hk; reflexivity|].
      simpl. unfold shelved_well. rewrite Ea. repeat split. exact Hs.
  - destruct (path (units w self)) as [|front rest] eqn:Ep.
    + unfold stop. run. eexists. split; [reflexivity|].
      unfold steering_frame.
      split; [intros k Hk; simpl; apply Nat.eqb_neq in Hk; now rewrite Hk|].
      simpl. rewrite !Nat.eqb_refl. unfold shelved_well. simpl.
      rewrite Ea. repeat split.
    + unfold follow_path, self_. run. rewrite Ep. simpl.
      destruct (negb _).
      * unfold stop, rotate_towards_target, calculate_unit_virtual_angle,
          self_. run. eexists. split; [reflexivity|].
        unfold steering_frame.
        split; [intros k Hk; simpl; apply Nat.eqb_neq in Hk; now rewrite Hk|].
        simpl. rewrite !Nat.eqb_refl. unfold shelved_well. simpl.
        rewrite Ea. repeat split.
      * destruct (_ <=? _).
        -- unfold move_to_next_waypoint, self_. run. rewrite Ep.
           eexists. split; [reflexivity|]. unfold steering_frame.
           split; [intros k Hk; simpl; apply Nat.eqb_neq in Hk; now rewrite Hk|].
           simpl. rewrite !Nat.eqb_refl. unfold shelved_well. simpl.
           rewrite Ea. repeat split.
        -- unfold move_to_current_waypoint, self_. run.
           eexists. split; [reflexivity|]. unfold steering_frame.
           split; [intros k Hk; simpl; apply Nat.eqb_neq in Hk; now rewrite Hk|].
           simpl. rewrite !Nat.eqb_refl. unfold shelved_well. simpl.
           rewrite Ea. repeat split.
Qed.

Lemma update_blocked_map_nodes_total n w :
  exists w',
    update_blocked_map_nodes env self n w = Ok tt w' /\
    others_untouched self w w' /\
    (shelved_well (units w self) -> shelved_well (units w' self)) /\
    (tidy self w -> tidy self w') /\
    (forall m j, j <> self -> node_unit w' m = Some j ->
                 node_unit w m = Some j).
Proof.
  unfold update_blocked_map_nodes.
  destruct (scan_total w) as (w1 & H1 & Ho1 & Hn1 & Hc1 & Hr1 & _ & Hs1).
  destruct (update_current_blocked_node_full n w1)
    as (w2 & H2 & Hu2 & Ho2 & Hn2 & _).
  unfold bind at 1. rewrite H1. unfold bind at 1. rewrite H2.
  unfold self_. run.
  assert (Hs2 : shelved_well (units w self) -> shelved_well (units w2 self)).
  { intros H. apply Hs1 in H. unfold shelved_well in *. now rewrite Hu2. }
  assert (Ht2 : tidy self w -> tidy self w2).
  { intros Ht m Hm. rewrite Hn2 in Hm. rewrite Hu2. simpl.
    destruct (node_eqb m n) eqn:E1; [left; now apply node_eqb_eq|].
    destruct (node_eqb m (current_node (units w1 self))) eqn:E2;
      [discriminate|].
    rewrite Hn1 in Hm. destruct (Ht m Hm) as [->|Hres].
    - rewrite Hc1 in E2. now rewrite node_eqb_refl in E2.
    - right. now rewrite Hr1. }
  assert (Hj2 : forall m j, j <> self -> node_unit w2 m = Some j ->
                            node_unit w m = Some j).
  { intros m j Hj Hm. rewrite Hn2 in Hm.
    destruct (node_eqb m n); [congruence|].
    destruct (node_eqb m (current_node (units w1 self))); [discriminate|].
    now rewrite <- Hn1. }
  assert (Ho12 : others_untouched self w w2).
  { intros k Hk. now rewrite (Ho2 k Hk), (Ho1 k Hk). }
  destruct (1 <? length (path (units w2 self)))%nat eqn:E.
  - apply Nat.ltb_lt in E.
    destruct (path (units w2 self)) as [|front rest] eqn:Ep; [simpl in E; lia|].
    destruct (update_reserved_node_full front rest w2 Ep)
      as (w3 & H3 & Hu3 & Ho3 & Hn3 & _).
    exists w3. split; [exact H3|]. split.
    { intros k Hk. now rewrite (Ho3 k Hk), (Ho12 k Hk). }
    split.
    { intros H. apply Hs2 in H. unfold shelved_well in *. now rewrite Hu3. }
    split.
    { intros Ht m Hm. rewrite Hn3 in Hm. rewrite Hu3. simpl.
      destruct (node_eqb m (position_to_node env front)) eqn:E1;
        [right; f_equal; symmetry; now apply node_eqb_eq|].
      left. specialize (Ht2 Ht m).
      destruct (reserved_node (units w2 self)) as [r|] eqn:Er.
      - destruct (node_eqb m r) eqn:E2; [discriminate|].
        destruct (Ht2 Hm) as [->|Hres]; [reflexivity|].
        injection Hres as ->. now rewrite node_eqb_refl in E2.
      - destruct (Ht2 Hm) as [->|Hres]; [reflexivity|discriminate]. }
    intros m j Hj Hm. apply Hj2; [exact Hj|]. rewrite Hn3 in Hm.
    destruct (node_eqb m (position_to_node env front)); [congruence|].
    destruct (reserved_node (units w2 self)) as [r|]; [|exact Hm].
    destruct (node_eqb m r); [discriminate|exact Hm].
  - exists w2. split; [reflexivity|]. repeat split; assumption.
Qed.

Lemma on_update_total w :
  shelved_well (units w self) ->
  exists w',
    on_update env self w = Ok tt w' /\
    shelved_well (units w' self) /\
    others_untouched self w w' /\
    (tidy self w -> tidy self w') /\
    (forall m j, j <> self -> node_unit w' m = Some j ->
                 node_unit w m = Some j).
Proof.
  intros Hs. unfold on_update, update_current_node, self_. run.
  match goal with
  | |- context [update_blocked_map_nodes env self ?n ?x] =>
      set (n0 := n); set (w0 := x)
  end.
  assert (Hu0 : units w0 self =
                with_position (fst (position (units w self)) + change_x (units w self),
                               snd (position (units w self)) + change_y (units w self))
                              (units w self))
    by (unfold w0; simpl; now rewrite Nat.eqb_refl).
  assert (Ho0 : others_untouched self w w0)
    by (intros k Hk; unfold w0; simpl; apply Nat.eqb_neq in Hk; now rewrite Hk).
  destruct (update_blocked_map_nodes_total n0 w0)
    as (w1 & H1 & Ho1 & Hs1 & Ht1 & Hj1).
  rewrite H1.
  destruct (update_pathfinding_total w1) as (w2 & H2 & Ho2 & Hn2 & Hc2 & Hr2 & _ & Hs2).
  { apply Hs1. unfold shelved_well in *. now rewrite Hu0. }
  exists w2. split; [exact H2|]. split; [exact Hs2|]. split.
  { intros k Hk. now rewrite (Ho2 k Hk), (Ho1 k Hk), (Ho0 k Hk). }
  split.
  { intros Ht m Hm. rewrite Hn2 in Hm. rewrite Hc2, Hr2.
    apply Ht1; [|exact Hm].
    intros m' Hm'. rewrite Hu0. simpl. apply Ht. exact Hm'. }
  intros m j Hj Hm. rewrite Hn2 in Hm. apply (Hj1 m j Hj Hm).
Qed.

End Tick.

(** X17.  A unit whose shelved path, if it has one, is not empty while its queue
    is: a tick returns normally, leaves the unit in such a state, and
    changes no field of any other unit. *)
Theorem on_update_returns_and_spares_the_others (env : Collaborators)
    (self : nat) (w : World) :
  shelved_well (units w self) ->
  exists w',
    on_update env self w = Ok tt w' /\
    shelved_well (units w' self) /\
    others_untouched self w w'.
Proof.
  intros Hs.
  destruct (on_update_total env self w Hs) as (w' & H & Hs' & Ho & _).
  exists w'. repeat split; assumption.
Qed.

(** X18.  No tick of any unit [k] makes a node name the unit [self] beyond the
    current node and the reserved node of [self]. *)
Theorem held_nodes_are_current_or_reserved (env : Collaborators)
    (self k : nat) (w : World) :
  shelved_well (units w k) ->
  tidy self w ->
  exists w', on_update env k w = Ok tt w' /\ tidy self w'.
Proof.
  intros Hs Ht.
  destruct (on_update_total env k w Hs) as (w' & H & _ & Ho & Hk & Hj).
  exists w'. split; [exact H|].
  destruct (Nat.eq_dec self k) as [->|Hne]; [now apply Hk|].
  intros m Hm. rewrite (Ho self Hne). apply Ht. now apply (Hj m self).
Qed.

(** X19.  For integer angles below 360 and a rotation speed that is not
    negative, [calculate_unit_virtual_angle] returns with an angle in
    [0, 360) and changes no other field.  When the rotation speed does not
    exceed the angle left to the target, the short way round, that angle
    shrinks by exactly the rotation speed; when the target is less than
    180 away by plain difference and within the rotation speed, it is
    reached. *)
Theorem turn_takes_the_short_way (self : nat) (target : Z) (w : World) :
  0 <= virtual_angle (units w self) < 360 ->
  0 <= target < 360 ->
  0 <= rotation_speed (units w self) ->
  exists w',
    calculate_unit_virtual_angle self target w = Ok tt w' /\
    0 <= virtual_angle (units w' self) < 360 /\
    units w' self =
      with_virtual_angle (virtual_angle (units w' self)) (units w self) /\
    (rotation_speed (units w self) <= arc (virtual_angle (units w self)) target ->
     arc (virtual_angle (units w' self)) target =
     arc (virtual_angle (units w self)) target - rotation_speed (units w self)) /\
    (Z.abs (virtual_angle (units w self) - target) < 180 ->
     Z.abs (virtual_angle (units w self) - target)
       <= rotation_speed (units w self) ->
     virtual_angle (units w' self) = target).
Proof.
  intros Hva Ht Hrs.
  unfold calculate_unit_virtual_angle, self_. run. eexists.
  split; [reflexivity|]. simpl. rewrite Nat.eqb_refl. simpl.
  set (va := virtual_angle (units w self)) in *.
  set (rs := rotation_speed (units w self)) in *.
  split; [apply Z.mod_pos_bound; lia|].
  split; [reflexivity|].
  unfold arc.
  destruct (Z.ltb_spec (Z.abs (va - target)) 180) as [Hd|Hd];
    destruct (Z.ltb_spec va target) as [Hlt|Hge].
  - split.
    + intros Hle.
      rewrite Z.mod_small by lia. lia.
    + intros _ Hle. rewrite Z.mod_small by lia. lia.
  - split.
    + intros Hle. rewrite Z.mod_small by lia. lia.
    + intros _ Hle. rewrite Z.mod_small by lia. lia.
  - split; [|lia].
    intros Hle.
    assert (Hrot : Z.min (Z.abs (va - target)) rs = rs) by lia.
    rewrite Hrot.
    destruct (Z_lt_le_dec (va + rs * -1) 0) as [Hneg|Hpos].
    + replace ((va + rs * -1) mod 360) with (va + rs * -1 + 360).
      * lia.
      * apply (Z.mod_unique _ _ (-1)); lia.
    + rewrite Z.mod_small by lia. lia.
  - split; [|lia].
    intros Hle.
    assert (Hrot : Z.min (Z.abs (va - target)) rs = rs) by lia.
    rewrite Hrot.
    destruct (Z_lt_le_dec (va + rs * 1) 360) as [Hsmall|Hbig].
    + rewrite Z.mod_small by lia. lia.
    + replace ((va + rs * 1) mod 360) with (va + rs * 1 - 360).
      * lia.
      * apply (Z.mod_unique _ _ 1); lia.
Qed.

Lemma turn_takes_the_short_way_witness :
  exists w',
    calculate_unit_virtual_angle 1%nat 10 lone_walker = Ok tt w' /\
    0 <= virtual_angle (units w' 1%nat) < 360 /\
    units w' 1%nat =
      with_virtual_angle (virtual_angle (units w' 1%nat))
        (units lone_walker 1%nat) /\
    (rotation_speed (units lone_walker 1%nat)
       <= arc (virtual_angle (units lone_walker 1%nat)) 10 ->
     arc (virtual_angle (units w' 1%nat)) 10 =
     arc (virtual_angle (units lone_walker 1%nat)) 10
     - rotation_speed (units lone_walker 1%nat)) /\
    (Z.abs (virtual_angle (units lone_walker 1%nat) - 10) < 180 ->
     Z.abs (virtual_angle (units lone_walker 1%nat) - 10)
       <= rotation_speed (units lone_walker 1%nat) ->
     virtual_angle (units w' 1%nat) = 10).
Proof.
  apply (turn_takes_the_short_way 1%nat 10 lone_walker); simpl; lia.
Defined.

Section Steering.
Variable env : Collaborators.
Variable self : nat.

(** X20.  [follow_path] on a queue that is not empty always returns and
    never moves the unit itself.  The unit's angle is compared with the
    angle to the front waypoint cut down to an integer.  While they
    differ, the unit is stopped and keeps its queue; when they agree and
    the waypoint is within the current speed, the waypoint is dropped
    while velocity and angle stay as they are; when they agree and the
    waypoint is further away, the speed becomes the smaller of the
    distance and the maximal speed and the velocity its vector along the
    angle as [calculate_angle] gave it, not cut down. *)
Theorem follow_path_cases (destination : Position) (rest : list Position)
    (w : World) :
  path (units w self) = destination :: rest ->
  exists w',
    follow_path env self w = Ok tt w' /\
    position (units w' self) = position (units w self) /\
    others_untouched self w w' /\
    (virtual_angle (units w self)
       <> py_int (calculate_angle env (position (units w self)) destination) ->
     change_x (units w' self) = 0 /\ change_y (units w' self) = 0 /\
     path (units w' self) = destination :: rest) /\
    (virtual_angle (units w self)
       = py_int (calculate_angle env (position (units w self)) destination) ->
     distance_2d env (position (units w self)) destination
       <= current_speed (units w self) ->
     units w' self = with_path rest (units w self)) /\
    (virtual_angle (units w self)
       = py_int (calculate_angle env (position (units w self)) destination) ->
     current_speed (units w self)
       < distance_2d env (position (units w self)) destination ->
     path (units w' self) = destination :: rest /\
     current_speed (units w' self) =
       Z.min (distance_2d env (position (units w self)) destination)
             (max_speed (units w self)) /\
     (change_x (units w' self), change_y (units w' self)) =
       vector_2d env
         (calculate_angle env (position (units w self)) destination)
         (Z.min (distance_2d env (position (units w self)) destination)
                (max_speed (units w self)))).
Proof.
  intros Hp. unfold follow_path, self_. run. rewrite Hp. simpl.
  destruct (Z.eqb_spec (virtual_angle (units w self))
              (py_int (calculate_angle env (position (units w self))
                         destination)))
    as [He|Hne]; simpl.
  - destruct (Z.leb_spec
                (distance_2d env (position (units w self)) destination)
                (current_speed (units w self))) as [Hle|Hgt].
    + unfold move_to_next_waypoint, self_. run. rewrite Hp.
      eexists. split; [reflexivity|]. simpl. rewrite Nat.eqb_refl.
      split; [reflexivity|].
      split; [intros k Hk; simpl; apply Nat.eqb_neq in Hk; now rewrite Hk|].
      split; [intros H; contradiction|].
      split; [reflexivity|]. intros _ H. lia.
    + unfold move_to_current_waypoint, self_. run.
      eexists. split; [reflexivity|]. simpl. rewrite !Nat.eqb_refl. simpl.
      split; [reflexivity|].
      split; [intros k Hk; simpl; apply Nat.eqb_neq in Hk; now rewrite Hk|].
      split; [intros H; contradiction|].
      split; [intros _ H; lia|]. intros _ _.
      split; [exact Hp|]. split; [reflexivity|].
      now destruct (vector_2d env _ _).
  - unfold stop, rotate_towards_target, calculate_unit_virtual_angle, self_.
    run. eexists. split; [reflexivity|]. simpl. rewrite !Nat.eqb_refl. simpl.
    split; [reflexivity|].
    split; [intros k Hk; simpl; apply Nat.eqb_neq in Hk; now rewrite Hk|].
    split; [intros _; repeat split; exact Hp|].
    split; intros H; contradiction.
Qed.

(** X21.  A unit moves onto the node it has reserved while its queue, two
    waypoints or more, already starts with a waypoint of another node,
    which is free: the tick returns, the unit's current node is the node
    it stands on, and that node names no unit. *)
Theorem arrival_frees_the_units_own_node (front second : Position)
    (rest : list Position) (r : MapNode) (w : World) :
  awaited_path (units w self) = None ->
  path (units w self) = front :: second :: rest ->
  reserved_node (units w self) = Some r ->
  position_to_node env
    (fst (position (units w self)) + change_x (units w self),
     snd (position (units w self)) + change_y (units w self)) = r ->
  node_unit w (position_to_node env front) = None ->
  position_to_node env front <> r ->
  exists w',
    on_update env self w = Ok tt w' /\
    position_to_node env (position (units w' self)) = r /\
    current_node (units w' self) = r /\
    node_unit w' r = None /\
    reserved_node (units w' self) = Some (position_to_node env front) /\
    node_unit w' (position_to_node env front) = Some self.
Proof.
  intros Ha Hp Hr Hpos Hfree Hne.
  unfold on_update, update_current_node, self_. run.
  match goal with
  | |- context [update_blocked_map_nodes env self ?n ?x] =>
      set (n0 := n); set (w0 := x)
  end.
  assert (Hu0 : units w0 self =
                with_position (fst (position (units w self)) + change_x (units w self),
                               snd (position (units w self)) + change_y (units w self))
                              (units w self))
    by (unfold w0; simpl; now rewrite Nat.eqb_refl).
  assert (Hn0 : n0 = r).
  { unfold n0. fold w0. rewrite Hu0. simpl. exact Hpos. }
  unfold update_blocked_map_nodes.
  assert (Hscan : scan_next_nodes_for_collisions env self w0 = Ok tt w0).
  { apply scan_noop. rewrite Hu0. simpl. rewrite Hp. left. exact Hfree. }
  unfold bind at 1. rewrite Hscan.
  destruct (update_current_blocked_node_full self n0 w0)
    as (w2 & H2 & Hu2 & _ & Hn2 & _).
  unfold bind at 1. rewrite H2. unfold self_. run.
  assert (Hp2 : path (units w2 self) = front :: second :: rest).
  { rewrite Hu2, Hu0. simpl. exact Hp. }
  rewrite Hp2. simpl.
  destruct (update_reserved_node_full env self front (second :: rest) w2 Hp2)
    as (w3 & H3 & Hu3 & _ & Hn3 & _).
  rewrite H3.
  destruct (update_pathfinding_total env self w3)
    as (w4 & H4 & _ & Hn4 & Hc4 & Hr4 & Hpos4 & _).
  { unfold shelved_well. rewrite Hu3, Hu2, Hu0. simpl. now rewrite Ha. }
  exists w4. split; [exact H4|].
  rewrite Hpos4, Hc4, Hr4, Hn4, Hu3, Hu2, Hu0. simpl.
  split; [exact Hpos|]. split; [exact Hn0|].
  rewrite !Hn3. rewrite Hu2, Hu0. simpl. rewrite Hr.
  apply node_eqb_neq in Hne.
  assert (Hne' : node_eqb r (position_to_node env front) = false).
  { apply node_eqb_neq. apply node_eqb_neq in Hne. congruence. }
  rewrite Hne', !node_eqb_refl. repeat split.
Qed.

(** X22.  A unit that waits with a shelved path, before its deadline: the tick
    returns, the unit is moved by its velocity and its current node
    follows, and nothing else changes; no path is requested. *)
Theorem waiting_unit_stays_put (awaited : list Position) (w : World) :
  awaited_path (units w self) = Some awaited ->
  path (units w self) = [] ->
  clock w (clock_reads w) < path_wait_counter (units w self) ->
  exists w',
    on_update env self w = Ok tt w' /\
    units w' self =
      with_current_node
        (position_to_node env
           (fst (position (units w self)) + change_x (units w self),
            snd (position (units w self)) + change_y (units w self)))
        (with_position
           (fst (position (units w self)) + change_x (units w self),
            snd (position (units w self)) + change_y (units w self))
           (units w self)) /\
    others_untouched self w w' /\
    pathfinder w' = pathfinder w /\
    clock_reads w' = S (clock_reads w).
Proof.
  intros Ha Hp Hearly.
  unfold on_update, update_current_node, self_. run.
  match goal with
  | |- context [update_blocked_map_nodes env self ?n ?x] =>
      set (n0 := n); set (w0 := x)
  end.
  assert (Hu0 : units w0 self =
                with_position (fst (position (units w self)) + change_x (units w self),
                               snd (position (units w self)) + change_y (units w self))
                              (units w self))
    by (unfold w0; simpl; now rewrite Nat.eqb_refl).
  assert (Ho0 : others_untouched self w w0)
    by (intros k Hk; unfold w0; simpl; apply Nat.eqb_neq in Hk; now rewrite Hk).
  unfold update_blocked_map_nodes.
  assert (Hscan : scan_next_nodes_for_collisions env self w0 = Ok tt w0).
  { apply scan_noop. rewrite Hu0. simpl. now rewrite Hp. }
  unfold bind at 1. rewrite Hscan.
  destruct (update_current_blocked_node_full self n0 w0)
    as (w2 & H2 & Hu2 & Ho2 & _ & Hf2 & Hr2 & Hc2).
  unfold bind at 1. rewrite H2. unfold self_. run.
  assert (Hp2 : path (units w2 self) = []).
  { rewrite Hu2, Hu0. simpl. exact Hp. }
  rewrite Hp2. simpl. run.
  unfold update_pathfinding, self_. run.
  assert (Ha2 : awaited_path (units w2 self) = Some awaited).
  { rewrite Hu2, Hu0. simpl. exact Ha. }
  rewrite Ha2. unfold countdown_waiting, get_time, self_. run. simpl.
  assert (Hcnt : path_wait_counter (units w2 self)
                 = path_wait_counter (units w self)).
  { rewrite Hu2, Hu0. reflexivity. }
  rewrite Hcnt, Hc2, Hr2.
  change (clock w0) with (clock w). change (clock_reads w0) with (clock_reads w).
  destruct (Z.geb_spec (clock w (clock_reads w))
              (path_wait_counter (units w self))) as [Hge|Hlt]; [lia|].
  eexists. split; [reflexivity|]. simpl.
  assert (Hn0 : n0 = position_to_node env
                       (fst (position (units w self)) + change_x (units w self),
                        snd (position (units w self)) + change_y (units w self)))
    by (unfold n0; fold w0; rewrite Hu0; reflexivity).
  split; [rewrite Hu2, Hu0, Hn0; reflexivity|].
  split; [intros k Hk; simpl; now rewrite (Ho2 k Hk), (Ho0 k Hk)|].
  split; [exact Hf2|reflexivity].
Qed.

End Steering.

Lemma busy_or_hostile_blocker_makes_unit_wait_witness :
  exists w',
    scan_next_nodes_for_collisions grid_map 1%nat oncoming = Ok tt w' /\
    awaited_path (units w' 1%nat) = Some [(1, 0); (2, 0)] /\
    path (units w' 1%nat) = [] /\
    path_wait_counter (units w' 1%nat)
      = clock oncoming (clock_reads oncoming) + 1 /\
    change_x (units w' 1%nat) = 0 /\ change_y (units w' 1%nat) = 0 /\
    pathfinder w' = pathfinder oncoming /\
    node_unit w' = node_unit oncoming /\
    others_untouched 1%nat oncoming w'.
Proof.
  apply (busy_or_hostile_blocker_makes_unit_wait grid_map 1%nat (1, 0) [(2, 0)]
           2%nat oncoming).
  - reflexivity.
  - reflexivity.
  - discriminate.
  - reflexivity.
Defined.

Lemma idle_blocker_is_walked_around_witness :
  exists w',
    scan_next_nodes_for_collisions grid_map 1%nat corner = Ok tt w' /\
    path (units w' 1%nat) = node_position grid_map (0, 1) :: (1, 1) :: [] /\
    In (0, 1) (walkable_adjacent grid_map (node_unit corner)
                 (current_node (units corner 1%nat))) /\
    In (0, 1) (walkable_adjacent grid_map (node_unit corner)
                 (position_to_node grid_map (1, 1))) /\
    awaited_path (units w' 1%nat) = awaited_path (units corner 1%nat) /\
    pathfinder w' = pathfinder corner /\
    node_unit w' = node_unit corner /\
    others_untouched 1%nat corner w' /\
    clock_reads w' = clock_reads corner.
Proof.
  apply (idle_blocker_is_walked_around grid_map 1%nat (1, 0) (1, 1) [] 2%nat
           (0, 1) [] corner).
  - reflexivity.
  - reflexivity.
  - discriminate.
  - reflexivity.
  - reflexivity.
  - reflexivity.
Defined.

Lemma idle_blocker_is_asked_for_pass_witness :
  exists w',
    scan_next_nodes_for_collisions grid_map 1%nat boxed_in = Ok tt w' /\
    node_unit w' = node_unit boxed_in /\
    others_untouched 1%nat boxed_in w' /\
    (walkable_adjacent grid_map (node_unit boxed_in)
       (current_node (units boxed_in 2%nat)) <> [] ->
     exists tile,
       In tile (walkable_adjacent grid_map (node_unit boxed_in)
                  (current_node (units boxed_in 2%nat))) /\
       pathfinder w' =
         pathfinder boxed_in ++
         [cancel_unit_path_requests 2%nat;
          request_path 2%nat
            (position_to_map_grid grid_map (position (units boxed_in 2%nat)))
            tile] /\
       awaited_path (units w' 1%nat) = Some [(1, 0); (2, 0)] /\
       path (units w' 1%nat) = [] /\
       path_wait_counter (units w' 1%nat)
         = clock boxed_in (clock_reads boxed_in) + 1) /\
    (walkable_adjacent grid_map (node_unit boxed_in)
       (current_node (units boxed_in 2%nat)) = [] ->
     exists last,
       list_last [(1, 0); (2, 0)] = Some last /\
       pathfinder w' =
         pathfinder boxed_in ++
         [cancel_unit_path_requests 1%nat;
          request_path 1%nat
            (position_to_map_grid grid_map (position (units boxed_in 1%nat)))
            (position_to_map_grid grid_map last)] /\
       units w' = units boxed_in).
Proof.
  apply (idle_blocker_is_asked_for_pass grid_map 1%nat (1, 0) [(2, 0)] 2%nat
           boxed_in).
  - reflexivity.
  - reflexivity.
  - discriminate.
  - reflexivity.
  - reflexivity.
  - reflexivity.
Defined.

Lemma on_update_returns_and_spares_the_others_witness :
  exists w',
    on_update grid_map 1%nat lone_walker = Ok tt w' /\
    shelved_well (units w' 1%nat) /\
    others_untouched 1%nat lone_walker w'.
Proof.
  apply (on_update_returns_and_spares_the_others grid_map 1%nat lone_walker).
  simpl. exact I.
Defined.

Lemma held_nodes_are_current_or_reserved_witness :
  exists w', on_update grid_map 1%nat lone_walker = Ok tt w' /\ tidy 1%nat w'.
Proof.
  apply (held_nodes_are_current_or_reserved grid_map 1%nat 1%nat lone_walker).
  - simpl. exact I.
  - intros n H. simpl in *. left.
    destruct (node_eqb n (0, 0)) eqn:E; [|discriminate].
    apply node_eqb_eq. exact E.
Defined.

Lemma follow_path_cases_witness :
  exists w',
    follow_path grid_map 1%nat lone_walker = Ok tt w' /\
    position (units w' 1%nat) = position (units lone_walker 1%nat) /\
    others_untouched 1%nat lone_walker w' /\
    (virtual_angle (units lone_walker 1%nat)
       <> py_int (calculate_angle grid_map
                    (position (units lone_walker 1%nat)) (1, 0)) ->
     change_x (units w' 1%nat) = 0 /\ change_y (units w' 1%nat) = 0 /\
     path (units w' 1%nat) = (1, 0) :: [(2, 0)]) /\
    (virtual_angle (units lone_walker 1%nat)
       = py_int (calculate_angle grid_map
                   (position (units lone_walker 1%nat)) (1, 0)) ->
     distance_2d grid_map (position (units lone_walker 1%nat)) (1, 0)
       <= current_speed (units lone_walker 1%nat) ->
     units w' 1%nat = with_path [(2, 0)] (units lone_walker 1%nat)) /\
    (virtual_angle (units lone_walker 1%nat)
       = py_int (calculate_angle grid_map
                   (position (units lone_walker 1%nat)) (1, 0)) ->
     current_speed (units lone_walker 1%nat)
       < distance_2d grid_map (position (units lone_walker 1%nat)) (1, 0) ->
     path (units w' 1%nat) = (1, 0) :: [(2, 0)] /\
     current_speed (units w' 1%nat) =
       Z.min (distance_2d grid_map (position (units lone_walker 1%nat)) (1, 0))
             (max_speed (units lone_walker 1%nat)) /\
     (change_x (units w' 1%nat), change_y (units w' 1%nat)) =
       vector_2d grid_map
         (calculate_angle grid_map (position (units lone_walker 1%nat)) (1, 0))
         (Z.min (distance_2d grid_map (position (units lone_walker 1%nat)) (1, 0))
                (max_speed (units lone_walker 1%nat)))).
Proof.
  apply (follow_path_cases grid_map 1%nat (1, 0) [(2, 0)] lone_walker).
  reflexivity.
Defined.

Lemma arrival_frees_the_units_own_node_witness :
  exists w',
    on_update grid_map 1%nat arrived = Ok tt w' /\
    position_to_node grid_map (position (units w' 1%nat)) = (1, 0) /\
    current_node (units w' 1%nat) = (1, 0) /\
    node_unit w' (1, 0) = None /\
    reserved_node (units w' 1%nat) = Some (position_to_node grid_map (2, 0)) /\
    node_unit w' (position_to_node grid_map (2, 0)) = Some 1%nat.
Proof.
  apply (arrival_frees_the_units_own_node grid_map 1%nat (2, 0) (3, 0) []
           (1, 0) arrived).
  - reflexivity.
  - reflexivity.
  - reflexivity.
  - reflexivity.
  - reflexivity.
  - simpl. discriminate.
Defined.

Lemma waiting_unit_stays_put_witness :
  exists w',
    on_update grid_map 1%nat early_waiter = Ok tt w' /\
    units w' 1%nat =
      with_current_node
        (position_to_node grid_map
           (fst (position (units early_waiter 1%nat))
              + change_x (units early_waiter 1%nat),
            snd (position (units early_waiter 1%nat))
              + change_y (units early_waiter 1%nat)))
        (with_position
           (fst (position (units early_waiter 1%nat))
              + change_x (units early_waiter 1%nat),
            snd (position (units early_waiter 1%nat))
              + change_y (units early_waiter 1%nat))
           (units early_waiter 1%nat)) /\
    others_untouched 1%nat early_waiter w' /\
    pathfinder w' = pathfinder early_waiter /\
    clock_reads w' = S (clock_reads early_waiter).
Proof.
  apply (waiting_unit_stays_put grid_map 1%nat [(3, 0)] early_waiter).
  - reflexivity.
  - reflexivity.
  - simpl. lia.
Defined.

(** X23.  When the nodes naming a unit are among its current and its reserved
    node, [clear_all_blocked_nodes] leaves no node naming it; it names no
    unit on any node and changes no unit. *)
Theorem clearing_frees_every_node_of_the_unit (self : nat) (w : World) :
  tidy self w ->
  exists w',
    clear_all_blocked_nodes self w = Ok tt w' /\
    (forall n, node_unit w' n <> Some self) /\
    (forall n j, node_unit w' n = Some j -> node_unit w n = Some j) /\
    units w' = units w /\ pathfinder w' = pathfinder w.
Proof.
  intros Ht. unfold clear_all_blocked_nodes, unblock_map_node, self_. run.
  destruct (reserved_node (units w self)) as [r|] eqn:Er; run;
    eexists; (split; [reflexivity|]); simpl.
  - split; [|split].
    + intros n Hn.
      destruct (node_eqb n r) eqn:E1; [discriminate|].
      destruct (node_eqb n (current_node (units w self))) eqn:E2;
        [discriminate|].
      destruct (Ht n Hn) as [->|H].
      * now rewrite node_eqb_refl in E2.
      * rewrite Er in H. injection H as ->. now rewrite node_eqb_refl in E1.
    + intros n j Hn.
      destruct (node_eqb n r); [discriminate|].
      destruct (node_eqb n (current_node (units w self))); [discriminate|].
      exact Hn.
    + split; reflexivity.
  - split; [|split].
    + intros n Hn.
      destruct (node_eqb n (current_node (units w self))) eqn:E2;
        [discriminate|].
      destruct (Ht n Hn) as [->|H].
      * now rewrite node_eqb_refl in E2.
      * rewrite Er in H. discriminate.
    + intros n j Hn.
      destruct (node_eqb n (current_node (units w self))); [discriminate|].
      exact Hn.
    + split; reflexivity.
Qed.

Lemma clearing_frees_every_node_of_the_unit_witness :
  exists w',
    clear_all_blocked_nodes 1%nat lone_walker = Ok tt w' /\
    (forall n, node_unit w' n <> Some 1%nat) /\
    (forall n j, node_unit w' n = Some j -> node_unit lone_walker n = Some j) /\
    units w' = units lone_walker /\ pathfinder w' = pathfinder lone_walker.
Proof.
  apply (clearing_frees_every_node_of_the_unit 1%nat lone_walker).
  intros n H. simpl in *. left.
  destruct (node_eqb n (0, 0)) eqn:E; [|discriminate].
  apply node_eqb_eq. exact E.
Defined.

End UnitsMoreFacts.

(** ** Properties of the geometry helpers and of the destination markers *)

Module GeometryFacts.
Import Geometry.
Local Open Scope Z_scope.

Lemma in_range (lo hi x : Z) : In x (range lo hi) <-> lo <= x < hi.
Proof.
  unfold range. rewrite in_map_iff. split.
  - intros (n & <- & Hn). apply in_seq in Hn. lia.
  - intros H. exists (Z.to_nat (x - lo)). split; [lia|].
    apply in_seq. lia.
Qed.

Lemma dict_get_absent (k : Z) (d : list (Z * Z)) :
  (forall p, In p d -> fst p <> k) -> dict_get k d = None.
Proof.
  unfold dict_get. generalize (@None Z) as acc.
  induction d as [|p d IH]; intros acc H; [reflexivity|].
  simpl. destruct (Z.eqb_spec (fst p) k) as [E|_].
  - exfalso. apply (H p); [now left|exact E].
  - apply IH. intros q Hq. apply H. now right.
Qed.

Lemma keys_in_range (p : Z * Z) :
  In p precalculate_8_angles -> 0 <= fst p <= 360.
Proof.
  unfold precalculate_8_angles. intros H.
  apply in_flat_map in H. destruct H as (j & _ & H).
  apply in_flat_map in H. destruct H as (i & Hi & H).
  apply in_range in Hi.
  destruct (2 * (j * 45 - i) <? 45); [|destruct H].
  destruct H as [<-|[]]. simpl. lia.
Qed.

Lemma slices_checked : forallb slice_ok (range 0 361) = true.
Proof. vm_compute. reflexivity. Qed.

(** X24.  The table of [precalculate_8_angles] has exactly the keys 0..360,
    and at the key [i] the number of the direction nearest to [i] among
    0, 45, ..., 315 and 360, the last one counting as direction 0. *)
Theorem precalculate_8_angles_table (i : Z) :
  dict_get i precalculate_8_angles =
  if (0 <=? i) && (i <=? 360)
  then Some (((2 * i + 45) / 90) mod 8)
  else None.
Proof.
  destruct ((0 <=? i) && (i <=? 360)) eqn:E.
  - apply andb_true_iff in E. destruct E as [E1 E2].
    apply Z.leb_le in E1, E2.
    pose proof slices_checked as H. rewrite forallb_forall in H.
    specialize (H i). unfold slice_ok in H.
    destruct (dict_get i precalculate_8_angles) as [v|].
    + f_equal. apply Z.eqb_eq. apply H. apply in_range. lia.
    + discriminate H. apply in_range. lia.
  - apply dict_get_absent. intros p Hp Hk. apply keys_in_range in Hp.
    rewrite Hk in Hp. apply andb_false_iff in E.
    destruct E as [E|E]; apply Z.leb_gt in E; lia.
Qed.

(** X25.  [clamp] keeps a value between the bounds when the bounds are in order
    and leaves a value between them as it is; with the bounds out of order
    the result is [minimum], which is above [maximum]. *)
Theorem clamp_bounds (value maximum minimum : Z) :
  (minimum <= maximum ->
   minimum <= clamp value maximum minimum <= maximum /\
   (minimum <= value <= maximum -> clamp value maximum minimum = value)) /\
  (maximum < minimum -> clamp value maximum minimum = minimum).
Proof.
  unfold clamp. split; intros H; [split|]; lia.
Qed.

End GeometryFacts.

Module DestinationsFacts.
Import Destinations.
Local Open Scope Z_scope.

Lemma frames_S (k : nat) (s : UnitsOrderedDestinations) :
  frames (S k) s = on_update (frames k s).
Proof. reflexivity. Qed.

Lemma frames_counting (points : list Point) (s : UnitsOrderedDestinations)
    (k : nat) :
  (k <= 90)%nat ->
  frames k (new_destinations points s) =
  {| destinations := points; time_left := 90 - Z.of_nat k |}.
Proof.
  induction k as [|k IH]; intros Hk; [reflexivity|].
  rewrite frames_S, IH by lia. unfold on_update. cbn [time_left destinations].
  destruct (Z.ltb_spec 0 (90 - Z.of_nat k)) as [_|H]; [|lia].
  f_equal. lia.
Qed.

Lemma frames_cleared (points : list Point) (s : UnitsOrderedDestinations)
    (k : nat) :
  frames (91 + k) (new_destinations points s) =
  {| destinations := []; time_left := 0 |}.
Proof.
  induction k as [|k IH].
  - change (91 + 0)%nat with (S 90). rewrite frames_S, frames_counting by lia.
    reflexivity.
  - replace (91 + S k)%nat with (S (91 + k)) by lia.
    rewrite frames_S, IH. reflexivity.
Qed.

(** X26.  Destinations handed over by [new_destinations] are kept for the next
    90 calls of [on_update], which count [time_left] down to 0; the 91st
    call clears them, and they stay cleared. *)
Theorem destinations_last_ninety_frames (points : list Point)
    (s : UnitsOrderedDestinations) (k : nat) :
  ((k <= 90)%nat ->
   destinations (frames k (new_destinations points s)) = points /\
   time_left (frames k (new_destinations points s)) = 90 - Z.of_nat k) /\
  ((90 < k)%nat ->
   destinations (frames k (new_destinations points s)) = [] /\
   time_left (frames k (new_destinations points s)) = 0).
Proof.
  split; intros Hk.
  - rewrite frames_counting by exact Hk. split; reflexivity.
  - replace k with (91 + (k - 91))%nat by lia. rewrite frames_cleared.
    split; reflexivity.
Qed.

End DestinationsFacts.
